(** * ngx-signal-immutability: a shallow embedding and its verified properties

    The library consists of three TypeScript files:
    - [immutable-utility.ts]: [naiveDeepClone], [deepClone],
      [naiveCloneAndMutate] and [deepFreeze];
    - [immutable-signal-options.ts]: the process-wide options record, its
      defaults and [setGlobalImmutableSignalOptions];
    - [immutable-signal.ts]: [immutable] and [immutableSignal].

    These functions act on the JavaScript object heap and call host
    built-ins ([Object.freeze], [Object.isFrozen],
    [Object.getOwnPropertyNames], [JSON.stringify], [JSON.parse],
    [structuredClone], and the signal primitives of the reactive framework).
    The embedding therefore has two layers: a small model of the part of
    the host that the library touches (module [Js]), and on top of it a
    line-by-line transcription of the library's own functions. *)

From stdpp Require Import base list strings numbers relations.

Open Scope string_scope.
Open Scope list_scope.
Open Scope nat_scope.

(* ================================================================== *)
(** * The host: values, objects, heap                                  *)
(* ================================================================== *)

Module Js.

(** A location names an object of the heap. *)
Abbreviation loc := nat (only parsing).

(** Number primitives.  Finite numbers are represented by integers; the
    three non-finite values are kept apart because [JSON.stringify] prints
    them as [null].  (Fractions and the sign of zero are not represented.) *)
Inductive number :=
| Finite (z : Z)
| NaN
| Infinity (negative : bool).

(** A JavaScript value is a primitive or a reference to a heap object. *)
Inductive value :=
| VUndefined
| VNull
| VBool (b : bool)
| VNumber (n : number)
| VString (s : string)
| VRef (l : loc).

(** Property keys.  A canonical array index ("0", "1", ...) is [Index i];
    every other string key is [Name s]. *)
Inductive key :=
| Index (i : nat)
| Name (s : string).

(** An own property is a data property holding a value, or an accessor
    whose getter throws a [TypeError] (the shape of the [caller] and
    [arguments] properties of strict-mode functions).  Other accessors and
    symbol keys are not modelled. *)
Inductive slot :=
| Data (v : value)
| ThrowingAccessor.

(** What [typeof] and [Array.isArray] can tell about an object. *)
Inductive objectClass :=
| PlainObject
| ArrayObject
| FunctionObject.

(** A heap object: its class, its own string-keyed properties in the order
    in which [[OwnPropertyKeys]] reports them, and whether [Object.freeze]
    has been applied to it.  The [length] of an array is not stored; it is
    derived from the index keys (see [arrayLength]). *)
Record object := mkObject {
  class : objectClass;
  props : list (key * slot);
  frozen : bool
}.

(** The mutable state of the host: the object heap, and a ghost trace of
    the objects that were passed to [Object.freeze], in call order. *)
Record state := mkState {
  heap : list object;
  freezeCalls : list loc
}.

#[global] Instance number_eq_dec : EqDecision number.
Proof. solve_decision. Defined.
#[global] Instance value_eq_dec : EqDecision value.
Proof. solve_decision. Defined.
#[global] Instance key_eq_dec : EqDecision key.
Proof. solve_decision. Defined.
#[global] Instance slot_eq_dec : EqDecision slot.
Proof. solve_decision. Defined.
#[global] Instance objectClass_eq_dec : EqDecision objectClass.
Proof. solve_decision. Defined.
#[global] Instance object_eq_dec : EqDecision object.
Proof. solve_decision. Defined.

(** ** Computations that read and write the state and may throw *)

Inductive error :=
| TypeError
| SyntaxError
| RangeError
| DataCloneError
| UserError (msg : string).

(** The outcome of running a computation: a result with the state it left,
    an exception with the state at the point of the throw, or the model's
    recursion budget ran out. *)
Inductive outcome (St A : Type) :=
| Ok (a : A) (s : St)
| Throw (e : error) (s : St)
| OutOfFuel.
Arguments Ok {St A} a s.
Arguments Throw {St A} e s.
Arguments OutOfFuel {St A}.

Definition M (St A : Type) : Type := St → outcome St A.

Definition ret {St A} (a : A) : M St A := λ s, Ok a s.

Definition bind {St A B} (c : M St A) (k : A → M St B) : M St B :=
  λ s, match c s with
       | Ok a s' => k a s'
       | Throw e s' => Throw e s'
       | OutOfFuel => OutOfFuel
       end.

Definition throw {St A} (e : error) : M St A := λ s, Throw e s.

Definition outOfFuel {St A} : M St A := λ _, OutOfFuel.

Definition gets {St A} (f : St → A) : M St A := λ s, Ok (f s) s.

Definition modify {St} (f : St → St) : M St unit := λ s, Ok tt (f s).

Notation "'do' x <- c ; k" := (bind c (λ x, k))
  (at level 10, x name, c at level 100, k at level 200,
   format "'[v' 'do'  x  <-  c ;  '/' k ']'").
Notation "'do' ' p <- c ; k" := (bind c (λ x, match x with p => k end))
  (at level 10, p pattern, c at level 100, k at level 200,
   format "'[v' 'do'  ' p  <-  c ;  '/' k ']'").

(** [Array.prototype.forEach] over a list of keys or values. *)
Fixpoint forEach {St A} (xs : list A) (f : A → M St unit) : M St unit :=
  match xs with
  | [] => ret tt
  | x :: xs' => do _ <- f x; forEach xs' f
  end.

(** ** Reading objects *)

(** The first property stored under key [k]. *)
Fixpoint lookupProp (k : key) (ps : list (key * slot)) : option slot :=
  match ps with
  | [] => None
  | (k', sl) :: ps' => if decide (k' = k) then Some sl else lookupProp k ps'
  end.

(** The [length] of an array: one more than its largest index. *)
Fixpoint arrayLength (ps : list (key * slot)) : nat :=
  match ps with
  | [] => 0
  | (Index i, _) :: ps' => S i `max` arrayLength ps'
  | (Name _, _) :: ps' => arrayLength ps'
  end.

Definition lengthKey : key := Name "length".

(** Truthiness, as tested by [if (obj)]. *)
Definition truthy (v : value) : bool :=
  match v with
  | VUndefined | VNull => false
  | VBool b => b
  | VNumber (Finite z) => negb (z =? 0)%Z
  | VNumber NaN => false
  | VNumber (Infinity _) => true
  | VString s => negb (String.eqb s "")
  | VRef _ => true
  end.

Inductive jsType :=
| TUndefined | TObject | TBoolean | TNumber | TString | TFunction.

#[global] Instance jsType_eq_dec : EqDecision jsType.
Proof. solve_decision. Defined.

(** [typeof v].  A reference that is not in the heap does not occur in a
    JavaScript program; the primitives below treat it as an object without
    properties that cannot be modified. *)
Definition typeOf (v : value) (s : state) : jsType :=
  match v with
  | VUndefined => TUndefined
  | VNull => TObject
  | VBool _ => TBoolean
  | VNumber _ => TNumber
  | VString _ => TString
  | VRef l =>
      match heap s !! l with
      | Some o => if decide (class o = FunctionObject) then TFunction else TObject
      | None => TObject
      end
  end.

(** [Object.isFrozen(v)]: primitives count as frozen. *)
Definition isFrozen (v : value) (s : state) : bool :=
  match v with
  | VRef l =>
      match heap s !! l with
      | Some o => frozen o
      | None => true
      end
  | _ => true
  end.

Definition setFrozen (o : object) : object :=
  {| class := class o; props := props o; frozen := true |}.

(** The state after [Object.freeze] has been applied to the object at [l]:
    the object is marked, and the call is recorded in the ghost trace. *)
Definition markFrozen (l : loc) (s : state) : state :=
  match heap s !! l with
  | Some o => {| heap := <[l := setFrozen o]> (heap s);
                 freezeCalls := freezeCalls s ++ [l] |}
  | None => s
  end.

(** [Object.freeze(v)]: a primitive is left as it is. *)
Definition Object_freeze (v : value) : M state unit :=
  modify (λ s, match v with VRef l => markFrozen l s | _ => s end).

Definition Object_isFrozen (v : value) : M state bool := gets (isFrozen v).

Definition typeof (v : value) : M state jsType := gets (typeOf v).

(** The own property keys of an object, as [Object.getOwnPropertyNames]
    lists them; the [length] of an array comes after its indices.  A string
    primitive is boxed: it has its character indices and [length]; the
    other primitives have no own properties; [undefined] and [null] cannot
    be converted to an object. *)
Definition isIndex (k : key) : bool :=
  match k with
  | Index _ => true
  | Name _ => false
  end.

Definition ownKeys (o : object) : list key :=
  match class o with
  | ArrayObject =>
      List.filter isIndex (props o).*1 ++ [lengthKey] ++
      List.filter (λ k, negb (isIndex k)) (props o).*1
  | _ => (props o).*1
  end.

Definition Object_getOwnPropertyNames (v : value) : M state (list key) :=
  match v with
  | VUndefined | VNull => throw TypeError
  | VBool _ | VNumber _ => ret []
  | VString str => ret ((Index <$> seq 0 (String.length str)) ++ [lengthKey])
  | VRef l =>
      gets (λ s, match heap s !! l with
                 | Some o => ownKeys o
                 | None => []
                 end)
  end.

(** The own property of [o] under [k], with the derived [length] of arrays. *)
Definition ownProp (o : object) (k : key) : option slot :=
  match lookupProp k (props o) with
  | Some sl => Some sl
  | None =>
      match class o with
      | ArrayObject =>
          if decide (k = lengthKey)
          then Some (Data (VNumber (Finite (Z.of_nat (arrayLength (props o))))))
          else None
      | _ => None
      end
  end.

(** The own property of a boxed string. *)
Definition stringProp (str : string) (k : key) : option value :=
  match k with
  | Index i =>
      if decide (i < String.length str)
      then Some (VString (String.substring i 1 str)) else None
  | Name n =>
      if decide (k = lengthKey)
      then Some (VNumber (Finite (Z.of_nat (String.length str)))) else None
  end.

(** [Object.prototype.hasOwnProperty.call(v, k)]. *)
Definition hasOwnProperty (v : value) (k : key) : M state bool :=
  match v with
  | VUndefined | VNull => throw TypeError
  | VBool _ | VNumber _ => ret false
  | VString str => ret (bool_decide (is_Some (stringProp str k)))
  | VRef l =>
      gets (λ s, match heap s !! l with
                 | Some o => bool_decide (is_Some (ownProp o k))
                 | None => false
                 end)
  end.

(** The property read [v[k]].  Only own properties are modelled: a key that
    is not an own property reads as [undefined].  Reading an accessor runs
    its getter, which throws. *)
Definition Get (v : value) (k : key) : M state value :=
  match v with
  | VUndefined | VNull => throw TypeError
  | VBool _ | VNumber _ => ret VUndefined
  | VString str => ret (default VUndefined (stringProp str k))
  | VRef l =>
      λ s, match heap s !! l with
           | Some o =>
               match ownProp o k with
               | Some (Data w) => Ok w s
               | Some ThrowingAccessor => Throw TypeError s
               | None => Ok VUndefined s
               end
           | None => Ok VUndefined s
           end
  end.

Arguments Get : simpl never.

(** ** Writing objects *)

(** The position of a new key among the own keys: array indices come
    first, in ascending order, and the other keys follow in the order in
    which they were created. *)
Definition precedes (k k' : key) : bool :=
  match k, k' with
  | Index i, Index j => bool_decide (i < j)
  | Index _, Name _ => true
  | Name _, _ => false
  end.

(** [CreateDataProperty]: the property under [k] is replaced, or is added
    at the position of a new key. *)
Fixpoint defineProp (k : key) (sl : slot) (ps : list (key * slot))
  : list (key * slot) :=
  match ps with
  | [] => [(k, sl)]
  | (k', sl') :: ps' =>
      if decide (k' = k) then (k, sl) :: ps'
      else if precedes k k' then (k, sl) :: (k', sl') :: ps'
      else (k', sl') :: defineProp k sl ps'
  end.

(** The properties that remain when the [length] of an array is set to [n]. *)
Fixpoint truncateProps (n : nat) (ps : list (key * slot)) : list (key * slot) :=
  match ps with
  | [] => []
  | (Index i, sl) :: ps' =>
      if decide (i < n) then (Index i, sl) :: truncateProps n ps'
      else truncateProps n ps'
  | (Name x, sl) :: ps' => (Name x, sl) :: truncateProps n ps'
  end.

Definition storeObject (l : loc) (o : object) (s : state) : state :=
  {| heap := <[l := o]> (heap s); freezeCalls := freezeCalls s |}.

(** The assignment [v[k] = w] in strict-mode code (module code is strict):
    it throws on [undefined], [null], a primitive, a frozen object and an
    accessor without setter.  Assigning the [length] of an array removes the
    elements from that index on; growing an array through its [length] is
    outside this model and is rejected.  Only own properties are modelled:
    the setter [__proto__] that objects inherit is not, so the statements
    about writes are made for the other keys (see [protoKey]). *)
Definition Put (v : value) (k : key) (w : value) : M state unit :=
  match v with
  | VRef l =>
      λ s, match heap s !! l with
           | Some o =>
               if frozen o then Throw TypeError s
               else match lookupProp k (props o) with
                    | Some ThrowingAccessor => Throw TypeError s
                    | Some (Data _) =>
                        Ok tt (storeObject l
                                 {| class := class o;
                                    props := defineProp k (Data w) (props o);
                                    frozen := false |} s)
                    | None =>
                        if decide (class o = ArrayObject ∧ k = lengthKey)
                        then
                          match w with
                          | VNumber (Finite z) =>
                              if decide (0 ≤ z ≤ Z.of_nat (arrayLength (props o)))%Z
                              then Ok tt (storeObject l
                                     {| class := class o;
                                        props := truncateProps (Z.to_nat z) (props o);
                                        frozen := false |} s)
                              else Throw RangeError s
                          | _ => Throw RangeError s
                          end
                        else
                          Ok tt (storeObject l
                                   {| class := class o;
                                      props := defineProp k (Data w) (props o);
                                      frozen := false |} s)
                    end
           | None => Throw TypeError s
           end
  | _ => throw TypeError
  end.

(** A new object at the next free location. *)
Definition alloc (o : object) : M state loc :=
  λ s, Ok (length (heap s))
          {| heap := heap s ++ [o]; freezeCalls := freezeCalls s |}.

(** ** JSON *)

(** A JSON text, by its syntax tree.  Member names are property keys.
    (The induction principle for the nested lists is [json_induction].) *)
Unset Elimination Schemes.
Inductive json :=
| JNull
| JBool (b : bool)
| JNumber (z : Z)
| JString (s : string)
| JArray (items : list json)
| JObject (members : list (key * json)).
Set Elimination Schemes.

Fixpoint mapM {St A B} (f : A → M St B) (xs : list A) : M St (list B) :=
  match xs with
  | [] => ret []
  | x :: xs' => do y <- f x; do ys <- mapM f xs'; ret (y :: ys)
  end.

(** [SerializeJSONProperty]: the JSON text of a value, or nothing for
    [undefined] and for functions.  [stack] holds the objects that are
    being serialized; meeting one of them again is a cycle and throws.
    A property whose text is nothing is left out of an object and printed
    as [null] in an array; a number that is not finite is printed as
    [null].  Calls of [toJSON] are not modelled: the statements about the
    text of arbitrary values are made for values none of whose objects has
    a callable [toJSON] (see [toJSONFree]); a JSON-like value has none. *)
Fixpoint serializeJSONProperty (fuel : nat) (stack : list loc) (v : value)
  : M state (option json) :=
  match fuel with
  | 0 => outOfFuel
  | S fuel' =>
      match v with
      | VUndefined => ret None
      | VNull => ret (Some JNull)
      | VBool b => ret (Some (JBool b))
      | VNumber (Finite z) => ret (Some (JNumber z))
      | VNumber _ => ret (Some JNull)
      | VString str => ret (Some (JString str))
      | VRef l =>
          do found <- gets (λ s, heap s !! l);
          match found with
          | None => ret (Some (JObject []))
          | Some o =>
              match class o with
              | FunctionObject => ret None
              | ArrayObject =>
                  if bool_decide (l ∈ stack) then throw TypeError
                  else
                    do items <-
                      mapM (λ i,
                              do w <- Get v (Index i);
                              do j <- serializeJSONProperty fuel' (l :: stack) w;
                              ret (default JNull j))
                           (seq 0 (arrayLength (props o)));
                    ret (Some (JArray items))
              | PlainObject =>
                  if bool_decide (l ∈ stack) then throw TypeError
                  else
                    do members <-
                      mapM (λ k,
                              do w <- Get v k;
                              do j <- serializeJSONProperty fuel' (l :: stack) w;
                              ret (pair k <$> j))
                           (props o).*1;
                    ret (Some (JObject (omap id members)))
              end
          end
      end
  end.

(** [JSON.stringify(v)].  The stack never holds an object twice, so the
    depth of the recursion is bounded by the number of objects (see
    [JSON_stringify_terminates]). *)
Definition JSON_stringify (v : value) : M state (option json) :=
  λ s, serializeJSONProperty (S (length (heap s))) [] v s.

(** The properties of the object that [JSON.parse] builds for a list of
    members, created one after the other. *)
Definition propsOfMembers (kvs : list (key * value)) : list (key * slot) :=
  foldl (λ ps kv, defineProp kv.1 (Data kv.2) ps) [] kvs.

(** The value that [JSON.parse] builds from a JSON text: new objects for
    arrays and objects, none of them frozen. *)
Fixpoint internalize (j : json) : M state value :=
  match j with
  | JNull => ret VNull
  | JBool b => ret (VBool b)
  | JNumber z => ret (VNumber (Finite z))
  | JString str => ret (VString str)
  | JArray items =>
      do vs <-
        (fix elements (items : list json) : M state (list value) :=
           match items with
           | [] => ret []
           | j :: items' =>
               do v <- internalize j;
               do vs <- elements items';
               ret (v :: vs)
           end) items;
      do l <- alloc {| class := ArrayObject;
                       props := propsOfMembers (imap (λ i v, (Index i, v)) vs);
                       frozen := false |};
      ret (VRef l)
  | JObject members =>
      do kvs <-
        (fix fields (members : list (key * json))
           : M state (list (key * value)) :=
           match members with
           | [] => ret []
           | (k, j) :: members' =>
               do v <- internalize j;
               do kvs <- fields members';
               ret ((k, v) :: kvs)
           end) members;
      do l <- alloc {| class := PlainObject;
                       props := propsOfMembers kvs;
                       frozen := false |};
      ret (VRef l)
  end.

(** [JSON.parse(text)].  When [JSON.stringify] returned [undefined], the
    argument is converted to the string "undefined", which is not JSON. *)
Definition JSON_parse (text : option json) : M state value :=
  match text with
  | Some j => internalize j
  | None => throw SyntaxError
  end.

(** ** The global object *)

(** The library asks whether [window] has a [structuredClone] and calls it
    when it has.  The function itself belongs to the host. *)
Record window := mkWindow {
  structuredClone : option (value → M state value)
}.

(** ** Signals of the reactive framework *)

(** [a === b] *)
Definition strictEquals (a b : value) : bool :=
  match a, b with
  | VNumber NaN, _ | _, VNumber NaN => false
  | _, _ => bool_decide (a = b)
  end.

(** A node of the signal graph: a writable signal with its current value
    and equality function, or a computed signal with its computation, which
    reads other signals through the getter it is given. *)
Inductive node :=
| Writable (current : value) (equal : value → value → bool)
| Computed (computation : (nat → M state value) → M state value).

(** Reading signal [id]: the current value of a writable signal; a computed
    signal runs its computation.  The cache of the framework is not
    modelled: a read here is a read that evaluates the computation, as the
    first read of a computed signal does, and the statements about derived
    signals are made for such reads. *)
Fixpoint readSignalN (fuel : nat) (signals : list node) (id : nat)
  : M state value :=
  match fuel with
  | 0 => outOfFuel
  | S fuel' =>
      match signals !! id with
      | Some (Writable v _) => ret v
      | Some (Computed f) => f (readSignalN fuel' signals)
      | None => throw TypeError
      end
  end.

End Js.

Export Js.

(* ================================================================== *)
(** * immutable-utility.ts                                             *)
(* ================================================================== *)

Module Utility.

Section Clone.

Context (win : window).

(** [naiveDeepClone(value)]: [JSON.parse(JSON.stringify(value))]. *)
Definition naiveDeepClone (value : value) : M state Js.value :=
  do text <- JSON_stringify value;
  JSON_parse text.

(** [deepClone(value)]: [structuredClone] when [window] has it, and the
    JSON round trip otherwise. *)
Definition deepClone (value : value) : M state Js.value :=
  match structuredClone win with
  | Some hostClone => hostClone value
  | None => naiveDeepClone value
  end.

(** [naiveCloneAndMutate(currentValue, mutation)] *)
Definition naiveCloneAndMutate (currentValue : value)
    (mutation : value → M state unit) : M state value :=
  do clone <- deepClone currentValue;
  do _ <- mutation clone;
  ret clone.

End Clone.

(** The three property names that [deepFreeze] leaves alone on functions. *)
Definition reservedKey (prop : key) : bool :=
  bool_decide (prop = Name "caller")
  || bool_decide (prop = Name "callee")
  || bool_decide (prop = Name "arguments").

(** The callback that [deepFreeze] passes to [forEach]; [recurse] is the
    recursive call [deepFreeze(propValue)]. *)
Definition visitProp (recurse : value → M state value)
    (obj : value) (oIsFunction : bool) (prop : key) : M state unit :=
  do own <- hasOwnProperty obj prop;
  if own && (if oIsFunction then negb (reservedKey prop) else true)
  then
    do propValue <- Get obj prop;
    do ty <- typeof propValue;
    do isFrz <- Object_isFrozen propValue;
    if negb (bool_decide (propValue = VNull))
       && (bool_decide (ty = TObject) || bool_decide (ty = TFunction))
       && negb isFrz
    then do _ <- recurse propValue; ret tt
    else ret tt
  else ret tt.

(** [deepFreeze(obj)], with a bound on the depth of the recursion. *)
Fixpoint deepFreezeN (fuel : nat) (obj : value) : M state value :=
  match fuel with
  | 0 => outOfFuel
  | S fuel' =>
      if truthy obj then
        do _ <- Object_freeze obj;
        do ty <- typeof obj;
        let oIsFunction := bool_decide (ty = TFunction) in
        do names <- Object_getOwnPropertyNames obj;
        do _ <- forEach names (visitProp (deepFreezeN fuel') obj oIsFunction);
        ret obj
      else ret obj
  end.

(** The number of objects of the heap that are not frozen. *)
Definition unfrozenCount (s : state) : nat :=
  length (filter (λ o, frozen o = false) (heap s)).

(** [deepFreeze(obj)]: every recursive call freezes an object that was not
    frozen, so the depth is bounded by the number of such objects (see
    [deepFreeze_terminates]). *)
Definition deepFreeze (obj : value) : M state value :=
  λ s, deepFreezeN (S (unfrozenCount s)) obj s.

End Utility.

Export Utility.

(* ================================================================== *)
(** * immutable-signal-options.ts                                      *)
(* ================================================================== *)

Module Options.

(** [MutationProducerFn<T>]: from the current value and a mutation of a
    draft to the new value. *)
Definition MutationProducerFn : Type :=
  value → (value → M state unit) → M state value.

(** [CreateImmutableSignalOptions<T>]: both fields are optional. *)
Record CreateImmutableSignalOptions := mkOptions {
  mutationProducerFn : option MutationProducerFn;
  enableDeepFreezing : option bool
}.

(** [Required<CreateImmutableSignalOptions<any>>] *)
Record RequiredImmutableSignalOptions := mkRequiredOptions {
  requiredMutationProducerFn : MutationProducerFn;
  requiredEnableDeepFreezing : bool
}.

(** [getDefaultImmutableSignalOptions()] *)
Definition getDefaultImmutableSignalOptions (win : window)
  : RequiredImmutableSignalOptions :=
  {| requiredMutationProducerFn := naiveCloneAndMutate win;
     requiredEnableDeepFreezing := false |}.

(** The state of a program that uses the library: the host state, the
    signal graph, and the module variable [globalImmutableSignalOptions]. *)
Record world := mkWorld {
  js : state;
  signals : list node;
  globalImmutableSignalOptions : RequiredImmutableSignalOptions
}.

(** The state in which the module is loaded: the variable is initialised
    with [getDefaultImmutableSignalOptions()]. *)
Definition initialWorld (win : window) (s : state) : world :=
  {| js := s;
     signals := [];
     globalImmutableSignalOptions := getDefaultImmutableSignalOptions win |}.

(** [a ?? b] on an optional field of an optional record. *)
Definition orElse {A} (a : option A) (b : A) : A :=
  match a with
  | Some x => x
  | None => b
  end.

(** [setGlobalImmutableSignalOptions(options)]; [None] is a [null] or
    [undefined] argument. *)
Definition setGlobalImmutableSignalOptions (win : window)
    (options : option CreateImmutableSignalOptions) : M world unit :=
  match options with
  | Some options =>
      let defaultOptions := getDefaultImmutableSignalOptions win in
      modify (λ w,
        {| js := js w;
           signals := signals w;
           globalImmutableSignalOptions :=
             {| requiredMutationProducerFn :=
                  orElse (mutationProducerFn options)
                         (requiredMutationProducerFn defaultOptions);
                requiredEnableDeepFreezing :=
                  orElse (enableDeepFreezing options)
                         (requiredEnableDeepFreezing defaultOptions) |} |})
  | None => ret tt
  end.

End Options.

Export Options.

(* ================================================================== *)
(** * The signal primitives of the framework, on a [world]             *)
(* ================================================================== *)

Module Framework.

(** Host code runs on the host part of the world. *)
Definition liftJs {A} (c : M state A) : M world A :=
  λ w, match c (js w) with
       | Ok a s' =>
           Ok a {| js := s'; signals := signals w;
                   globalImmutableSignalOptions :=
                     globalImmutableSignalOptions w |}
       | Throw e s' =>
           Throw e {| js := s'; signals := signals w;
                      globalImmutableSignalOptions :=
                        globalImmutableSignalOptions w |}
       | OutOfFuel => OutOfFuel
       end.

Definition newNode (n : node) : M world nat :=
  λ w, Ok (length (signals w))
          {| js := js w; signals := signals w ++ [n];
             globalImmutableSignalOptions := globalImmutableSignalOptions w |}.

(** [signal(initialValue, { equal })] *)
Definition signal (initialValue : value) (equal : value → value → bool)
  : M world nat :=
  newNode (Writable initialValue equal).

(** [computed(computation)] *)
Definition computed (computation : (nat → M state value) → M state value)
  : M world nat :=
  newNode (Computed computation).

(** Calling a signal: [sig()]. *)
Definition readSignal (sig : nat) : M world value :=
  λ w, liftJs (readSignalN (S (length (signals w))) (signals w) sig) w.

(** [sig.set(newValue)]: the value is replaced unless the equality function
    holds of the current and the new value. *)
Definition signalSet (sig : nat) (newValue : value) : M world unit :=
  λ w, match signals w !! sig with
       | Some (Writable current equal) =>
           if equal current newValue then Ok tt w
           else Ok tt {| js := js w;
                         signals := <[sig := Writable newValue equal]> (signals w);
                         globalImmutableSignalOptions :=
                           globalImmutableSignalOptions w |}
       | _ => Throw TypeError w
       end.

(** [sig.update(updateFn)]: [sig.set(updateFn(current))]. *)
Definition signalUpdate (sig : nat) (updateFn : value → M state value)
  : M world unit :=
  λ w, match signals w !! sig with
       | Some (Writable current _) =>
           (do newValue <- liftJs (updateFn current);
            signalSet sig newValue) w
       | _ => Throw TypeError w
       end.

End Framework.

Export Framework.

(* ================================================================== *)
(** * immutable-signal.ts                                              *)
(* ================================================================== *)

Module ImmutableSignal.

(** The options of [immutable]: [{ enableDeepFreezing?: boolean }]. *)
Record ImmutableOptions := mkImmutableOptions {
  immutableEnableDeepFreezing : option bool
}.

(** The options of [immutableSignal]:
    [CreateSignalOptions<T> & CreateImmutableSignalOptions<T>]. *)
Record ImmutableSignalOptions := mkImmutableSignalOptions {
  equal : option (value → value → bool);
  immutableOptions : CreateImmutableSignalOptions
}.

(** What the proxy returned by [immutableSignal] answers for [set],
    [update] and [mutate]; every other property, and the call of the
    signal itself, is that of [target]. *)
Record ImmutableWritableSignal := mkImmutableWritableSignal {
  target : nat;
  set : value → M world unit;
  update : (value → M state value) → M world unit;
  mutate : (value → M state unit) → M world unit
}.

(** [immutable(sig, options)] *)
Definition immutable (sig : nat) (options : option ImmutableOptions)
  : M world nat :=
  do global <- gets globalImmutableSignalOptions;
  if orElse (options ≫= immutableEnableDeepFreezing)
            (requiredEnableDeepFreezing global)
  then computed (λ get, do value <- get sig; deepFreeze value)
  else ret sig.

(** [immutableSignal(initialValue, options)] *)
Definition immutableSignal (initialValue : value)
    (options : option ImmutableSignalOptions)
  : M world ImmutableWritableSignal :=
  let strictEqualityFn := orElse (options ≫= equal) strictEquals in
  do sig <- signal initialValue strictEqualityFn;
  do global <- gets globalImmutableSignalOptions;
  let deepFreezeEnabled :=
    orElse (options ≫= λ o, enableDeepFreezing (immutableOptions o))
           (requiredEnableDeepFreezing global) in
  let mutateFn :=
    orElse (options ≫= λ o, mutationProducerFn (immutableOptions o))
           (requiredMutationProducerFn global) in
  ret {| target := sig;
         set :=
           if negb deepFreezeEnabled then signalSet sig
           else λ val,
                  do frozenVal <- liftJs (deepFreeze val);
                  signalSet sig frozenVal;
         update :=
           if negb deepFreezeEnabled then signalUpdate sig
           else λ updateFn,
                  signalUpdate sig
                    (λ val, do newVal <- updateFn val; deepFreeze newVal);
         mutate :=
           λ mutatorFn,
             signalUpdate sig (λ val, mutateFn val mutatorFn) |}.

End ImmutableSignal.

Export ImmutableSignal.


(* ================================================================== *)
(** * Vocabulary for the statements about deepFreeze                   *)
(* ================================================================== *)

(** [frozenAt s l]: the object at [l] reports itself as frozen. *)
Definition frozenAt (s : state) (l : loc) : bool := isFrozen (VRef l) s.

(** [child s l c]: object [c] is the value of an own data property of [l]. *)
Definition child (s : state) (l c : loc) : Prop :=
  ∃ o k, heap s !! l = Some o ∧ ownProp o k = Some (Data (VRef c)).

(** [traversedChild s l c]: as [child], through a property that
    [deepFreeze] looks at: any property of an object or array, and any
    property other than [caller], [callee], [arguments] of a function. *)
Definition traversedChild (s : state) (l c : loc) : Prop :=
  ∃ o k, heap s !! l = Some o ∧ ownProp o k = Some (Data (VRef c)) ∧
         (class o = FunctionObject → reservedKey k = false).

(** [reachable s l c]: [c] is [l] or is reached from it through own data
    properties. *)
Definition reachable (s : state) : loc → loc → Prop := rtc (child s).

(** [traversedPath s l c]: as [reachable], through traversed properties. *)
Definition traversedPath (s : state) : loc → loc → Prop :=
  rtc (traversedChild s).

(** [freshPath s l c]: [c] is reached from [l] through traversed properties
    and every object strictly between the two is not frozen in [s]. *)
Inductive freshPath (s : state) : loc → loc → Prop :=
| freshPath_here l : freshPath s l l
| freshPath_last l c : traversedChild s l c → freshPath s l c
| freshPath_step l m c :
    traversedChild s l m → frozenAt s m = false → freshPath s m c →
    freshPath s l c.

(** [sameButFrozen o o']: [o'] is [o], possibly frozen in between. *)
Definition sameButFrozen (o o' : object) : Prop :=
  class o' = class o ∧ props o' = props o ∧
  (frozen o = true → frozen o' = true).

(** [freezes s s']: the heap of [s'] is the heap of [s] with more objects
    frozen; no object is added, removed or given other properties. *)
Definition freezes (s s' : state) : Prop :=
  Forall2 sameButFrozen (heap s) (heap s').

(** What a run of [deepFreeze] from [s] to [s'] that passed the objects
    [new] to [Object.freeze] has done. *)
Record froze (s s' : state) (new : list loc) : Prop := mkFroze {
  froze_freezes : freezes s s';
  froze_calls : freezeCalls s' = freezeCalls s ++ new;
  froze_only : ∀ x, frozenAt s' x = true → frozenAt s x = true ∨ x ∈ new;
  froze_in_heap : ∀ x, x ∈ new → is_Some (heap s !! x);
  froze_new : ∀ x, x ∈ new → frozenAt s' x = true;
  froze_children :
    ∀ x c, x ∈ new → traversedChild s x c → frozenAt s' c = true;
  froze_once : NoDup new
}.

(** ** JSON-like values *)

(** [keyBefore k k']: [k] comes before [k'] among the own keys of an
    object, and differs from it. *)
Definition keyBefore (k k' : key) : Prop :=
  match k, k' with
  | Index i, Index j => i < j
  | Index _, Name _ => True
  | Name a, Name b => a ≠ b
  | Name _, Index _ => False
  end.

(** The keys of an object, as every object has them: no key twice, the
    array indices first and in ascending order. *)
Fixpoint canonicalKeys (ks : list key) : Prop :=
  match ks with
  | [] => True
  | k :: ks' => Forall (keyBefore k) ks' ∧ canonicalKeys ks'
  end.

(** [represents s v j]: in state [s], the value [v] is the acyclic
    JSON-like value with JSON text [j]: [null], a boolean, a finite number,
    a string, an array without holes of such values, or a plain object
    whose properties are data properties holding such values.  Two values
    that represent the same text are deeply equal. *)
Unset Elimination Schemes.
Inductive represents (s : state) : value → json → Prop :=
| represents_null : represents s VNull JNull
| represents_bool b : represents s (VBool b) (JBool b)
| represents_number z : represents s (VNumber (Finite z)) (JNumber z)
| represents_string str : represents s (VString str) (JString str)
| represents_array l o vs items :
    heap s !! l = Some o → class o = ArrayObject →
    props o = imap (λ i v, (Index i, Data v)) vs →
    Forall2 (represents s) vs items →
    represents s (VRef l) (JArray items)
| represents_object l o kvs members :
    heap s !! l = Some o → class o = PlainObject →
    props o = (λ kv : key * value, (kv.1, Data kv.2)) <$> kvs →
    canonicalKeys kvs.*1 →
    Forall2 (λ (kv : key * value) (m : key * json),
               kv.1 = m.1 ∧ represents s kv.2 m.2) kvs members →
    represents s (VRef l) (JObject members).
Set Elimination Schemes.

(** The size of a JSON text. *)
Fixpoint jsize (j : json) : nat :=
  match j with
  | JArray items => S (foldr (λ j n, jsize j + n) 0 items)
  | JObject members => S (foldr (λ m n, jsize m.2 + n) 0 members)
  | _ => 1
  end.

(** A computation that leaves the state as it is, also when it throws. *)
Definition readOnly {St A} (c : M St A) : Prop :=
  ∀ s, match c s with
       | Ok _ s' | Throw _ s' => s' = s
       | OutOfFuel => True
       end.

(** [reachableFrom s v l]: [v] is a reference, and [l] is its object or an
    object reached from it through own data properties. *)
Definition reachableFrom (s : state) (v : value) (l : loc) : Prop :=
  ∃ l0, v = VRef l0 ∧ reachable s l0 l.

(** [extends s s']: every object of [s] is in [s'], as it was. *)
Definition extends (s s' : state) : Prop :=
  ∀ l o, heap s !! l = Some o → heap s' !! l = Some o.

(** [freshFrom n v]: a reference [v] names an object from location [n] on. *)
Definition freshFrom (n : nat) (v : value) : Prop :=
  ∀ l, v = VRef l → n ≤ l.

(** [grown s s']: [s'] is [s] with new objects at the end of the heap; the
    new objects are not frozen and refer to new objects only. *)
Definition grown (s s' : state) : Prop :=
  freezeCalls s' = freezeCalls s ∧
  ∃ new, heap s' = heap s ++ new ∧
         Forall (λ o, frozen o = false ∧
                      ∀ k c, ownProp o k = Some (Data (VRef c)) →
                             length (heap s) ≤ c) new.

(** The contract of the host's [structuredClone], when [window] has one:
    it terminates; it leaves the objects of the heap as they are, also when
    it throws; the objects of its result are new; and its result for an
    acyclic JSON-like value represents the same JSON text. *)
Record structuredCloneContract (win : window) : Prop := mkContract {
  contract_terminates :
    ∀ hostClone v s, structuredClone win = Some hostClone →
      hostClone v s ≠ OutOfFuel;
  contract_extends :
    ∀ hostClone v s v' s', structuredClone win = Some hostClone →
      hostClone v s = Ok v' s' → extends s s';
  contract_throw_extends :
    ∀ hostClone v s e s', structuredClone win = Some hostClone →
      hostClone v s = Throw e s' → extends s s';
  contract_fresh :
    ∀ hostClone v s v' s', structuredClone win = Some hostClone →
      hostClone v s = Ok v' s' →
      ∀ l, reachableFrom s' v' l → length (heap s) ≤ l;
  contract_json :
    ∀ hostClone v s j, structuredClone win = Some hostClone →
      represents s v j →
      ∃ v' s', hostClone v s = Ok v' s' ∧ represents s' v' j
}.

(** [deepCopy s v j v' s']: in [s'], the value [v'] is deeply equal to the
    JSON-like value [v] of [s], which is as it was, and no object is
    reachable from both. *)
Definition deepCopy (s : state) (v : value) (j : json)
    (v' : value) (s' : state) : Prop :=
  represents s' v' j ∧ represents s' v j ∧ extends s s' ∧
  ∀ l, reachableFrom s' v l → ¬ reachableFrom s' v' l.


(** No object that is frozen has a child, through a traversed property,
    that is not. *)
Definition frozenClosed (s : state) : Prop :=
  ∀ l c, frozenAt s l = true → traversedChild s l c → frozenAt s c = true.

(** Every throwing accessor of the heap is one of the three reserved
    properties of a function. *)
Definition throwingOnlyReserved (s : state) : Prop :=
  ∀ l o k, heap s !! l = Some o → ownProp o k = Some ThrowingAccessor →
           class o = FunctionObject ∧ reservedKey k = true.

(** The key [__proto__].  On an object that has no own property of that
    name, an assignment to it runs the setter inherited from
    [Object.prototype], which this model does not have: statements about
    writes leave this key out. *)
Definition protoKey : key := Name "__proto__".

(** The world [wd] with another value in [globalImmutableSignalOptions]. *)
Definition withGlobal (global : RequiredImmutableSignalOptions) (wd : world)
  : world :=
  {| js := js wd; signals := signals wd;
     globalImmutableSignalOptions := global |}.

(** The world [wd] with another host state. *)
Definition withJs (s : state) (wd : world) : world :=
  {| js := s; signals := signals wd;
     globalImmutableSignalOptions := globalImmutableSignalOptions wd |}.

(* ================================================================== *)
(** * Vocabulary for the further properties                            *)
(* ================================================================== *)

(** [serialEdge s l c]: [JSON.stringify] goes from the object [l] to the
    object [c]: [l] is a plain object and [c] is the value of one of its
    properties, or [l] is an array and [c] is one of its elements. *)
Definition serialEdge (s : state) (l c : loc) : Prop :=
  ∃ o k, heap s !! l = Some o ∧
         lookupProp k (props o) = Some (Data (VRef c)) ∧
         (class o = PlainObject ∨ (class o = ArrayObject ∧ isIndex k = true)).

(** [noCallableToJSON s x]: the object [x] has no own [toJSON] property
    that [JSON.stringify] would call, or whose getter it would run. *)
Definition noCallableToJSON (s : state) (x : loc) : Prop :=
  ∀ o, heap s !! x = Some o →
    match lookupProp (Name "toJSON") (props o) with
    | Some (Data w) => typeOf w s ≠ TFunction
    | Some ThrowingAccessor => False
    | None => True
    end.

(** [toJSONFree s v]: none of the objects that [JSON.stringify(v)] visits
    (the object [v] and what it reaches through properties of plain
    objects and elements of arrays) has such a [toJSON] property.  Calls of
    [toJSON] are outside this model, so statements about the JSON text of
    arbitrary values are made for values that are [toJSONFree]. *)
Definition toJSONFree (s : state) (v : value) : Prop :=
  ∀ l y, v = VRef l → rtc (serialEdge s) l y → noCallableToJSON s y.

(** [entered s l x]: the call [deepFreeze(l)] in state [s] enters the
    object [x]: [x] is [l], or [x] is not frozen and is reached from [l]
    through traversed properties of objects that are not frozen. *)
Definition entered (s : state) (l x : loc) : Prop :=
  x = l ∨ (freshPath s l x ∧ frozenAt s x = false).

(** [readable s x]: the properties of [x] that [deepFreeze] reads are data
    properties. *)
Definition readable (s : state) (x : loc) : Prop :=
  ∀ o k, heap s !! x = Some o → ownProp o k = Some ThrowingAccessor →
         class o = FunctionObject ∧ reservedKey k = true.

(** The outcome [r], with the world it leaves changed by [f]. *)
Definition onWorld {A} (f : world → world) (r : outcome world A)
  : outcome world A :=
  match r with
  | Ok a w => Ok a (f w)
  | Throw e w => Throw e (f w)
  | OutOfFuel => OutOfFuel
  end.

(** The effective [enableDeepFreezing] of [immutableSignal(_, options)]. *)
Definition deepFreezeEnabled (options : option ImmutableSignalOptions)
    (wd : world) : bool :=
  orElse (options ≫= λ o, enableDeepFreezing (immutableOptions o))
         (requiredEnableDeepFreezing (globalImmutableSignalOptions wd)).

(** The effective [mutationProducerFn] of [immutableSignal(_, options)]. *)
Definition mutateFn (options : option ImmutableSignalOptions) (wd : world)
  : MutationProducerFn :=
  orElse (options ≫= λ o, mutationProducerFn (immutableOptions o))
         (requiredMutationProducerFn (globalImmutableSignalOptions wd)).

(** The world [w] after signal [sig] has been given the value [v], under
    the equality function [eq] and with host state [s]. *)
Definition committed (sig : nat) (cur : value) (eq : value → value → bool)
    (v : value) (s : state) (w : world) : world :=
  if eq cur v then withJs s w
  else {| js := s;
          signals := <[sig := Writable v eq]> (signals w);
          globalImmutableSignalOptions := globalImmutableSignalOptions w |}.

(* ================================================================== *)
(** * Example inputs                                                   *)
(* ================================================================== *)

(** An object graph with an interior node that is frozen while its child
    is not: [{ a: { b: { c: 1 } } }] with [Object.freeze] applied to the
    object under [a] only. *)
Definition interiorFrozen : state :=
  {| heap :=
       [ {| class := PlainObject;
            props := [(Name "a", Data (VRef 1))]; frozen := false |};
         {| class := PlainObject;
            props := [(Name "b", Data (VRef 2))]; frozen := true |};
         {| class := PlainObject;
            props := [(Name "c", Data (VNumber (Finite 1)))];
            frozen := false |} ];
     freezeCalls := [] |}.

(** A graph with a self-reference and a shared node:
    [root = { self: root, left: shared, right: [shared] }]. *)
Definition cyclicShared : state :=
  {| heap :=
       [ {| class := PlainObject;
            props := [(Name "self", Data (VRef 0));
                      (Name "left", Data (VRef 1));
                      (Name "right", Data (VRef 2))];
            frozen := false |};
         {| class := PlainObject;
            props := [(Name "n", Data (VNumber (Finite 7)));
                      (Name "back", Data (VRef 0))];
            frozen := false |};
         {| class := ArrayObject;
            props := [(Index 0, Data (VRef 1))]; frozen := false |} ];
     freezeCalls := [] |}.

(** A graph with functions: [root = { fn: f, caller: p }] where the
    function [f] has a throwing [caller], an [arguments] property holding
    the object [q], and an ordinary property [data] holding [r]. *)
Definition withFunction : state :=
  {| heap :=
       [ {| class := PlainObject;
            props := [(Name "fn", Data (VRef 1));
                      (Name "caller", Data (VRef 2))];
            frozen := false |};
         {| class := FunctionObject;
            props := [(Name "caller", ThrowingAccessor);
                      (Name "arguments", Data (VRef 3));
                      (Name "data", Data (VRef 4))];
            frozen := false |};
         {| class := PlainObject; props := []; frozen := false |};
         {| class := PlainObject; props := []; frozen := false |};
         {| class := PlainObject; props := []; frozen := false |} ];
     freezeCalls := [] |}.

(** A plain object whose [caller] property is a throwing accessor. *)
Definition throwingCaller : state :=
  {| heap := [ {| class := PlainObject;
                  props := [(Name "caller", ThrowingAccessor)];
                  frozen := false |} ];
     freezeCalls := [] |}.

(** Values that are not JSON-like: [{ f: function, n: NaN, u: undefined }],
    the function, and an object that refers to itself. *)
Definition notJsonLike : state :=
  {| heap :=
       [ {| class := PlainObject;
            props := [(Name "f", Data (VRef 1));
                      (Name "n", Data (VNumber NaN));
                      (Name "u", Data VUndefined)];
            frozen := false |};
         {| class := FunctionObject; props := []; frozen := false |};
         {| class := PlainObject;
            props := [(Name "self", Data (VRef 2))]; frozen := false |} ];
     freezeCalls := [] |}.

(** A window without [structuredClone]: [deepClone] takes the JSON round
    trip. *)
Definition noStructuredClone : window := mkWindow None.

(** The value [{ a: 1, b: { c: 2 } }] and its JSON text. *)
Definition sampleState : state :=
  {| heap :=
       [ {| class := PlainObject;
            props := [(Name "a", Data (VNumber (Finite 1)));
                      (Name "b", Data (VRef 1))];
            frozen := false |};
         {| class := PlainObject;
            props := [(Name "c", Data (VNumber (Finite 2)))];
            frozen := false |} ];
     freezeCalls := [] |}.

Definition sampleJson : json :=
  JObject [(Name "a", JNumber 1);
           (Name "b", JObject [(Name "c", JNumber 2)])].



(** A program state with the object [{ count: 0 }], no signal, and the
    options as the module initialises them. *)
Definition counterWorld : world :=
  initialWorld noStructuredClone
    {| heap := [ {| class := PlainObject;
                    props := [(Name "count", Data (VNumber (Finite 0)))];
                    frozen := false |} ];
       freezeCalls := [] |}.

(** The options [{ enableDeepFreezing: true }]. *)
Definition deepFreezingOn : ImmutableSignalOptions :=
  {| equal := None;
     immutableOptions := {| mutationProducerFn := None;
                            enableDeepFreezing := Some true |} |}.

(** The mutation [draft => { draft.count = 1; }]. *)
Definition increment (draft : value) : M state unit :=
  Put draft (Name "count") (VNumber (Finite 1)).


(** The update function [() => ({ count: 7 })]. *)
Definition freshCounter (_ : value) : M state value :=
  do l <- alloc {| class := PlainObject;
                   props := [(Name "count", Data (VNumber (Finite 7)))];
                   frozen := false |};
  ret (VRef l).

(** An object with a throwing accessor and an object before it:
    [{ first: {}, bad: <accessor>, last: {} }]. *)
Definition throwingMiddle : state :=
  {| heap :=
       [ {| class := PlainObject;
            props := [(Name "first", Data (VRef 1));
                      (Name "bad", ThrowingAccessor);
                      (Name "last", Data (VRef 2))];
            frozen := false |};
         {| class := PlainObject; props := []; frozen := false |};
         {| class := PlainObject; props := []; frozen := false |} ];
     freezeCalls := [] |}.

(** A throwing accessor behind a frozen object:
    [{ a: frozen{ get bad() { throw } } }]. *)
Definition guardedAccessor : state :=
  {| heap :=
       [ {| class := PlainObject;
            props := [(Name "a", Data (VRef 1))]; frozen := false |};
         {| class := PlainObject;
            props := [(Name "bad", ThrowingAccessor)]; frozen := true |} ];
     freezeCalls := [] |}.

(** The options [{ enableDeepFreezing: true }] of [immutable]. *)
Definition freezingOn : ImmutableOptions :=
  {| immutableEnableDeepFreezing := Some true |}.

(** A mutation producer that ignores the mutation and produces a string. *)
Definition constantProducer : MutationProducerFn :=
  λ _ _, ret (VString "produced").

(** The options [{ mutationProducerFn: constantProducer,
    enableDeepFreezing: true }]. *)
Definition customProducerOn : ImmutableSignalOptions :=
  {| equal := None;
     immutableOptions := {| mutationProducerFn := Some constantProducer;
                            enableDeepFreezing := Some true |} |}.

(** A program state with the cyclic graph of [cyclicShared], no signal, and
    the options as the module initialises them. *)
Definition cyclicWorld : world := initialWorld noStructuredClone cyclicShared.

(** The options [{ enableDeepFreezing: true }] of
    [setGlobalImmutableSignalOptions]. *)
Definition globalFreezingOn : CreateImmutableSignalOptions :=
  {| mutationProducerFn := None; enableDeepFreezing := Some true |}.

(* ================================================================== *)
(** * Lemmas about the host primitives                                 *)
(* ================================================================== *)

Section HostLemmas.

Lemma lookupProp_Some_elem k ps sl :
  lookupProp k ps = Some sl → k ∈ ps.*1.
Proof.
  induction ps as [|[k' sl'] ps IH]; simpl; [done|].
  destruct (decide (k' = k)) as [->|Hne].
  - intros _. apply list_elem_of_here.
  - intros H. apply list_elem_of_further. auto.
Qed.

Lemma ownProp_Some_ownKeys o k sl :
  ownProp o k = Some sl → k ∈ ownKeys o.
Proof.
  unfold ownProp, ownKeys.
  destruct (lookupProp k (props o)) eqn:E.
  - intros _. apply lookupProp_Some_elem in E.
    destruct (class o); try done.
    apply list_elem_of_In in E. rewrite !elem_of_app, !list_elem_of_In.
    rewrite !filter_In. destruct k; simpl; auto.
  - destruct (class o); try done.
    destruct (decide (k = lengthKey)) as [->|]; [|done].
    intros _. apply elem_of_app. right. apply list_elem_of_here.
Qed.

Lemma sameButFrozen_refl o : sameButFrozen o o.
Proof. by repeat split. Qed.

Lemma sameButFrozen_trans o1 o2 o3 :
  sameButFrozen o1 o2 → sameButFrozen o2 o3 → sameButFrozen o1 o3.
Proof.
  intros (?&?&?) (?&?&?). repeat split; [congruence..|auto].
Qed.

Lemma sameButFrozen_ownProp o o' k :
  sameButFrozen o o' → ownProp o' k = ownProp o k.
Proof. intros (Hc&Hp&_). unfold ownProp. by rewrite Hc, Hp. Qed.

Lemma sameButFrozen_ownKeys o o' :
  sameButFrozen o o' → ownKeys o' = ownKeys o.
Proof. intros (Hc&Hp&_). unfold ownKeys. by rewrite Hc, Hp. Qed.

Lemma freezes_refl s : freezes s s.
Proof. apply Forall_Forall2_diag, Forall_forall. auto using sameButFrozen_refl. Qed.

Lemma freezes_trans s1 s2 s3 : freezes s1 s2 → freezes s2 s3 → freezes s1 s3.
Proof.
  unfold freezes. intros H12 H23.
  eapply Forall2_trans; [|exact H12|exact H23].
  intros ???. apply sameButFrozen_trans.
Qed.

Lemma freezes_lookup s s' l o :
  freezes s s' → heap s !! l = Some o →
  ∃ o', heap s' !! l = Some o' ∧ sameButFrozen o o'.
Proof. intros H Hl. eapply Forall2_lookup_l in H as (o'&?&?); eauto. Qed.

Lemma freezes_lookup_r s s' l o' :
  freezes s s' → heap s' !! l = Some o' →
  ∃ o, heap s !! l = Some o ∧ sameButFrozen o o'.
Proof. intros H Hl. eapply Forall2_lookup_r in H as (o&?&?); eauto. Qed.

Lemma freezes_lookup_None s s' l :
  freezes s s' → heap s !! l = None → heap s' !! l = None.
Proof.
  intros H Hl. apply lookup_ge_None. apply lookup_ge_None in Hl.
  apply Forall2_length in H. lia.
Qed.

Lemma freezes_frozenAt s s' l :
  freezes s s' → frozenAt s l = true → frozenAt s' l = true.
Proof.
  intros H. unfold frozenAt, isFrozen.
  destruct (heap s !! l) as [o|] eqn:E.
  - destruct (freezes_lookup _ _ _ _ H E) as (o'&->&_&_&Hf). exact Hf.
  - by rewrite (freezes_lookup_None _ _ _ H E).
Qed.

Lemma freezes_typeOf s s' v : freezes s s' → typeOf v s' = typeOf v s.
Proof.
  intros H. destruct v; try done. simpl.
  destruct (heap s !! l) as [o|] eqn:E.
  - destruct (freezes_lookup _ _ _ _ H E) as (o'&->&Hc&_). by rewrite Hc.
  - by rewrite (freezes_lookup_None _ _ _ H E).
Qed.

Lemma freezes_traversedChild s s' l c :
  freezes s s' → traversedChild s l c ↔ traversedChild s' l c.
Proof.
  intros H. split.
  - intros (o&k&Hl&Hp&Hr).
    destruct (freezes_lookup _ _ _ _ H Hl) as (o'&Hl'&Hs).
    exists o', k. split; [done|]. rewrite (sameButFrozen_ownProp _ _ _ Hs).
    split; [done|]. destruct Hs as (->&_). done.
  - intros (o'&k&Hl'&Hp&Hr).
    destruct (freezes_lookup_r _ _ _ _ H Hl') as (o&Hl&Hs).
    exists o, k. split; [done|]. rewrite <- (sameButFrozen_ownProp _ _ _ Hs).
    split; [done|]. destruct Hs as (<-&_). done.
Qed.

Lemma freezes_throwingOnlyReserved s s' :
  freezes s s' → throwingOnlyReserved s → throwingOnlyReserved s'.
Proof.
  intros H Hs l o' k Hl' Hp.
  destruct (freezes_lookup_r _ _ _ _ H Hl') as (o&Hl&Hsb).
  rewrite (sameButFrozen_ownProp _ _ _ Hsb) in Hp.
  destruct (Hs l o k Hl Hp) as [Hc Hr]. destruct Hsb as (->&_). done.
Qed.

Lemma Object_freeze_ref l s :
  Object_freeze (VRef l) s = Ok tt (markFrozen l s).
Proof. done. Qed.

Lemma Object_freeze_primitive v s :
  (∀ l, v ≠ VRef l) → Object_freeze v s = Ok tt s.
Proof. intros H. destruct v; try done. by destruct (H l). Qed.

Lemma markFrozen_not_in_heap l s : heap s !! l = None → markFrozen l s = s.
Proof. intros H. unfold markFrozen. by rewrite H. Qed.

Lemma markFrozen_lookup l o s :
  heap s !! l = Some o → heap (markFrozen l s) !! l = Some (setFrozen o).
Proof.
  intros H. unfold markFrozen. rewrite H. simpl.
  apply list_lookup_insert_eq. eauto using lookup_lt_Some.
Qed.

Lemma markFrozen_lookup_ne l x s :
  x ≠ l → heap (markFrozen l s) !! x = heap s !! x.
Proof.
  intros H. unfold markFrozen. destruct (heap s !! l); [|done]. simpl.
  by apply list_lookup_insert_ne.
Qed.

Lemma markFrozen_calls l o s :
  heap s !! l = Some o →
  freezeCalls (markFrozen l s) = freezeCalls s ++ [l].
Proof. intros H. unfold markFrozen. by rewrite H. Qed.

Lemma markFrozen_frozenAt l s : frozenAt (markFrozen l s) l = true.
Proof.
  unfold frozenAt, isFrozen. destruct (heap s !! l) as [o|] eqn:E.
  - by rewrite (markFrozen_lookup _ _ _ E).
  - by rewrite markFrozen_not_in_heap, E.
Qed.

Lemma markFrozen_freezes l s : freezes s (markFrozen l s).
Proof.
  unfold markFrozen. destruct (heap s !! l) as [o|] eqn:Hl;
    [|apply freezes_refl].
  apply Forall2_same_length_lookup. simpl. split.
  - by rewrite length_insert.
  - intros i x y Hx Hy. destruct (decide (i = l)) as [->|Hne].
    + rewrite list_lookup_insert_eq in Hy by eauto using lookup_lt_Some.
      simplify_eq. by repeat split.
    + rewrite list_lookup_insert_ne in Hy by done. simplify_eq.
      apply sameButFrozen_refl.
Qed.

End HostLemmas.

(* ================================================================== *)
(** * deepFreeze: what one call does                                   *)
(* ================================================================== *)

Section DeepFreeze.

(** The forEach callback on a heap object, case by case. *)
Lemma visitProp_ref recurse l isFn k s :
  visitProp recurse (VRef l) isFn k s =
  match heap s !! l with
  | None => Ok tt s
  | Some o =>
      match ownProp o k with
      | None => Ok tt s
      | Some sl =>
          if isFn && reservedKey k then Ok tt s
          else match sl with
               | ThrowingAccessor => Throw TypeError s
               | Data (VRef c) =>
                   if frozenAt s c then Ok tt s
                   else match recurse (VRef c) s with
                        | Ok _ s' => Ok tt s'
                        | Throw e s' => Throw e s'
                        | OutOfFuel => OutOfFuel
                        end
               | Data _ => Ok tt s
               end
      end
  end.
Proof.
  unfold visitProp, bind, hasOwnProperty, Get, gets, typeof, Object_isFrozen,
    ret, frozenAt.
  destruct (heap s !! l) as [o|] eqn:Hl; [|done].
  destruct (ownProp o k) as [sl|] eqn:Hp.
  - rewrite bool_decide_true by eauto. simpl.
    destruct isFn, (reservedKey k); simpl; try done.
    all: rewrite Hl, Hp.
    all: destruct sl as [w|]; [|done].
    all: destruct w as [| | | | |c]; simpl; try done.
    all: destruct (heap s !! c) as [oc|] eqn:Hc; simpl; [|done].
    all: destruct (decide (class oc = FunctionObject)); simpl;
      destruct (frozen oc); simpl; done.
  - rewrite bool_decide_false by (intros [? ?]; done). done.
Qed.

(** On a primitive the callback does nothing. *)
Lemma visitProp_primitive recurse obj isFn k s :
  truthy obj = true → (∀ l, obj ≠ VRef l) →
  visitProp recurse obj isFn k s = Ok tt s.
Proof.
  intros Ht Hn. unfold visitProp, bind.
  destruct obj as [| | | |str|l]; try done; simpl; [|by destruct (Hn l)].
  unfold ret. destruct (stringProp str k) as [w|] eqn:Hw.
  - rewrite bool_decide_true by eauto.
    destruct (isFn); simpl; [destruct (reservedKey k); simpl; [done|]|];
      unfold stringProp in Hw; destruct k;
      repeat case_decide; simplify_eq; done.
  - rewrite bool_decide_false by (intros [? ?]; done). done.
Qed.

Lemma forEach_primitive recurse obj isFn names s :
  truthy obj = true → (∀ l, obj ≠ VRef l) →
  forEach names (visitProp recurse obj isFn) s = Ok tt s.
Proof.
  intros Ht Hn. induction names as [|k names IH]; simpl; [done|].
  unfold bind. by rewrite visitProp_primitive.
Qed.

(** On a primitive or on a reference outside the heap, [deepFreeze] returns
    its argument and changes nothing. *)
Lemma deepFreezeN_primitive n obj s :
  (∀ l, obj ≠ VRef l) → deepFreezeN (S n) obj s = Ok obj s.
Proof.
  intros Hn. simpl. destruct (truthy obj) eqn:Ht; [|done].
  unfold bind. rewrite Object_freeze_primitive by done.
  unfold typeof, gets.
  destruct obj as [| |b|m|str|l]; try done; simpl; unfold ret; simpl.
  - by rewrite forEach_primitive.
  - by destruct (Hn l).
Qed.

(** One call on a reference, as a loop over the property names. *)
Lemma deepFreezeN_ref n l s :
  deepFreezeN (S n) (VRef l) s =
  match heap s !! l with
  | None => Ok (VRef l) s
  | Some o =>
      match forEach (ownKeys o)
              (visitProp (deepFreezeN n) (VRef l)
                 (bool_decide (class o = FunctionObject)))
              (markFrozen l s) with
      | Ok _ s' => Ok (VRef l) s'
      | Throw e s' => Throw e s'
      | OutOfFuel => OutOfFuel
      end
  end.
Proof.
  simpl. unfold bind. rewrite Object_freeze_ref.
  unfold typeof, gets, Object_getOwnPropertyNames, ret. simpl.
  destruct (heap s !! l) as [o|] eqn:Hl.
  - rewrite (markFrozen_lookup _ _ _ Hl).
    replace (bool_decide
               ((if decide (class (setFrozen o) = FunctionObject)
                 then TFunction else TObject) = TFunction))
      with (bool_decide (class o = FunctionObject))
      by (apply bool_decide_ext; simpl; case_decide; naive_solver).
    done.
  - rewrite markFrozen_not_in_heap by done. by rewrite Hl.
Qed.

Lemma frozenAt_in_heap s l : frozenAt s l = false → is_Some (heap s !! l).
Proof.
  unfold frozenAt, isFrozen. destruct (heap s !! l); [eauto|done].
Qed.

Lemma freezes_unfrozen s s' l :
  freezes s s' → frozenAt s' l = false → frozenAt s l = false.
Proof.
  intros H Hf. destruct (frozenAt s l) eqn:E; [|done].
  by rewrite (freezes_frozenAt _ _ _ H E) in Hf.
Qed.

Lemma freezes_freshPath s s' l c :
  freezes s s' → freshPath s' l c → freshPath s l c.
Proof.
  intros H. induction 1 as [l|l c Hc|l m c Hm Hf _ IH].
  - constructor.
  - apply freshPath_last. by apply (freezes_traversedChild _ _ _ _ H).
  - eapply freshPath_step; [|by eapply freezes_unfrozen|exact IH].
    by apply (freezes_traversedChild _ _ _ _ H).
Qed.

Lemma froze_nil s : froze s s [].
Proof.
  split.
  - apply freezes_refl.
  - by rewrite app_nil_r.
  - auto.
  - intros x Hx. by apply elem_of_nil in Hx.
  - intros x Hx. by apply elem_of_nil in Hx.
  - intros x c Hx. by apply elem_of_nil in Hx.
  - constructor.
Qed.

(** Two runs in sequence. *)
Lemma froze_seq s1 s2 s3 n1 n2 :
  froze s1 s2 n1 → froze s2 s3 n2 →
  (∀ x, x ∈ n2 → frozenAt s2 x = false) →
  froze s1 s3 (n1 ++ n2).
Proof.
  intros [F1 C1 O1 I1 N1 K1 D1] [F2 C2 O2 I2 N2 K2 D2] Hn2. split.
  - eauto using freezes_trans.
  - by rewrite C2, C1, app_assoc.
  - intros x Hx. destruct (O2 x Hx) as [H|H].
    + destruct (O1 x H) as [?|?]; [by left|right].
      apply elem_of_app. by left.
    + right. apply elem_of_app. by right.
  - intros x [Hx|Hx]%elem_of_app; [auto|].
    destruct (I2 x Hx) as [o' Ho'].
    destruct (freezes_lookup_r _ _ _ _ F1 Ho') as (o&?&_). eauto.
  - intros x [Hx|Hx]%elem_of_app; [|auto].
    eapply freezes_frozenAt; eauto.
  - intros x c [Hx|Hx]%elem_of_app Hc.
    + eapply freezes_frozenAt; eauto.
    + apply (K2 x c Hx). by apply (freezes_traversedChild _ _ _ _ F1).
  - apply NoDup_app. split; [done|]. split; [|done].
    intros x Hx1 Hx2. specialize (N1 x Hx1). specialize (Hn2 x Hx2). congruence.
Qed.

(** A run that starts by freezing [l] and then completes its children. *)
Lemma froze_root s s' l new :
  is_Some (heap s !! l) →
  froze (markFrozen l s) s' new →
  (∀ x, x ∈ new → frozenAt (markFrozen l s) x = false) →
  (∀ c, traversedChild s l c → frozenAt s' c = true) →
  froze s s' (l :: new).
Proof.
  intros [o Hl] [F C O I N K D] Hnew Hch.
  pose proof (markFrozen_freezes l s) as F1.
  pose proof (markFrozen_frozenAt l s) as Hl1.
  split.
  - eauto using freezes_trans.
  - rewrite C, (markFrozen_calls _ _ _ Hl). by rewrite <- app_assoc.
  - intros x Hx. destruct (decide (x = l)) as [->|Hne].
    { right. apply list_elem_of_here. }
    destruct (O x Hx) as [H|H].
    + left. revert H. unfold frozenAt, isFrozen.
      by rewrite markFrozen_lookup_ne.
    + right. by apply list_elem_of_further.
  - intros x [->|Hx]%elem_of_cons; [eauto|].
    destruct (I x Hx) as [o' Ho'].
    destruct (freezes_lookup_r _ _ _ _ F1 Ho') as (o0&?&_). eauto.
  - intros x [->|Hx]%elem_of_cons; [|auto].
    eapply freezes_frozenAt; eauto.
  - intros x c [->|Hx]%elem_of_cons Hc; [auto|].
    apply (K x c Hx). by apply (freezes_traversedChild _ _ _ _ F1).
  - constructor; [|done]. intros Hx. specialize (Hnew l Hx). congruence.
Qed.

(** The loop over the property names of [l], given what the recursive
    calls do. *)
Lemma forEach_visit_froze (recurse : value → M state value) l :
  (∀ c t v t', recurse (VRef c) t = Ok v t' → frozenAt t c = false →
     ∃ rest, froze t t' (c :: rest) ∧
             (∀ x, x ∈ rest → frozenAt t x = false) ∧
             (∀ x, x ∈ rest → freshPath t c x)) →
  ∀ names t t' o,
    forEach names
      (visitProp recurse (VRef l) (bool_decide (class o = FunctionObject))) t
      = Ok tt t' →
    heap t !! l = Some o →
    ∃ new, froze t t' new ∧
           (∀ x, x ∈ new → frozenAt t x = false) ∧
           (∀ x, x ∈ new → freshPath t l x) ∧
           (∀ k c, k ∈ names → ownProp o k = Some (Data (VRef c)) →
                   (class o = FunctionObject → reservedKey k = false) →
                   frozenAt t' c = true) ∧
           (∀ k, k ∈ names → ownProp o k = Some ThrowingAccessor →
                 class o = FunctionObject ∧ reservedKey k = true).
Proof.
  intros Hrec. induction names as [|k names IH]; intros t t' o Hrun Hl.
  { simpl in Hrun. injection Hrun as <-. exists []. split; [apply froze_nil|].
    split; [|split; [|split]].
    - intros ? Hx. by apply elem_of_nil in Hx.
    - intros ? Hx. by apply elem_of_nil in Hx.
    - intros ? ? Hx. by apply elem_of_nil in Hx.
    - intros ? Hx. by apply elem_of_nil in Hx. }
  simpl in Hrun. unfold bind in Hrun.
  destruct (visitProp recurse (VRef l) (bool_decide (class o = FunctionObject))
              k t) as [[] t1|e t1|] eqn:Hv; try done.
  rewrite visitProp_ref, Hl in Hv.
  (* what the first visit did: nothing, or one recursive call *)
  assert (Hread : ownProp o k = Some ThrowingAccessor →
                  class o = FunctionObject ∧ reservedKey k = true).
  { intros Hp. rewrite Hp in Hv.
    destruct (bool_decide (class o = FunctionObject) && reservedKey k) eqn:Hr;
      [|done].
    apply andb_true_iff in Hr as [Hfn Hk]. by apply bool_decide_eq_true in Hfn. }
  assert (Hfirst :
    (t1 = t ∧ ∀ c, ownProp o k = Some (Data (VRef c)) →
                   (class o = FunctionObject → reservedKey k = false) →
                   frozenAt t c = true) ∨
    (∃ c v, ownProp o k = Some (Data (VRef c)) ∧
            (class o = FunctionObject → reservedKey k = false) ∧
            frozenAt t c = false ∧ recurse (VRef c) t = Ok v t1)).
  { destruct (ownProp o k) as [sl|] eqn:Hp; [|left; by simplify_eq].
    destruct (bool_decide (class o = FunctionObject) && reservedKey k) eqn:Hr.
    { left. simplify_eq. split; [done|]. intros c _ Hres.
      apply andb_true_iff in Hr as [Hfn Hk%eq_sym].
      apply bool_decide_eq_true in Hfn. rewrite (Hres Hfn) in Hk. done. }
    destruct sl as [w|]; [|done].
    destruct w as [| | | | |c]; try (left; by simplify_eq).
    destruct (frozenAt t c) eqn:Hfc.
    { left. simplify_eq. split; [done|]. by intros ? [= <-] _. }
    right. destruct (recurse (VRef c) t) as [v t2|e t2|] eqn:Hc; try done.
    simplify_eq. exists c, v. split; [done|]. split; [|done].
    intros Hfn. apply andb_false_iff in Hr as [Hr|Hr]; [|done].
    by apply bool_decide_eq_false in Hr. }
  clear Hv. destruct Hfirst as [[-> Hskip]|(c&v&Hp&Hres&Hfc&Hcall)].
  - destruct (IH t t' o Hrun Hl) as (new&Hfz&Hunf&Hpath&Hall&Hthr).
    exists new. split; [done|]. split; [done|]. split; [done|]. split.
    + intros k' c' [->|Hk']%elem_of_cons Hp' Hres'; [|eauto].
      eapply freezes_frozenAt; [apply Hfz|]. eauto.
    + intros k' [->|Hk']%elem_of_cons; eauto.
  - destruct (Hrec c t v t1 Hcall Hfc) as (rest&Hfz1&Hunf1&Hpath1).
    destruct (freezes_lookup _ _ _ _ (froze_freezes _ _ _ Hfz1) Hl)
      as (o1&Hl1&Hsb).
    assert (Hcls : class o1 = class o) by apply Hsb.
    rewrite <- Hcls in Hrun.
    destruct (IH t1 t' o1 Hrun Hl1) as (new&Hfz2&Hunf2&Hpath2&Hall&Hthr).
    assert (Hedge : traversedChild t l c) by (by exists o, k).
    exists ((c :: rest) ++ new). split; [by apply (froze_seq t t1 t')|].
    split; [|split; [|split]].
    + intros x [[->|Hx]%elem_of_cons|Hx]%elem_of_app; [done|auto|].
      eapply freezes_unfrozen; [apply Hfz1|]. auto.
    + intros x [[->|Hx]%elem_of_cons|Hx]%elem_of_app.
      * by apply freshPath_last.
      * eapply freshPath_step; eauto.
      * eapply freezes_freshPath; [apply Hfz1|]. auto.
    + intros k' c' [->|Hk']%elem_of_cons Hp' Hres'.
      * simplify_eq. eapply freezes_frozenAt; [apply Hfz2|].
        apply (froze_new _ _ _ Hfz1). apply list_elem_of_here.
      * apply (Hall k' c' Hk'); [|by rewrite Hcls].
        by rewrite (sameButFrozen_ownProp _ _ _ Hsb).
    + intros k' [->|Hk']%elem_of_cons Hp'; [auto|].
      rewrite <- Hcls. apply Hthr; [done|].
      by rewrite (sameButFrozen_ownProp _ _ _ Hsb).
Qed.

(** One call of [deepFreeze] on an object of the heap: it returns its
    argument, and the objects passed to [Object.freeze] are [l] followed by
    objects that were not frozen and are reached from [l] through objects
    that were not frozen. *)
Lemma deepFreezeN_froze n :
  ∀ l s v s', deepFreezeN n (VRef l) s = Ok v s' → is_Some (heap s !! l) →
    v = VRef l ∧
    (∀ o k, heap s !! l = Some o → ownProp o k = Some ThrowingAccessor →
            class o = FunctionObject ∧ reservedKey k = true) ∧
    ∃ rest, froze s s' (l :: rest) ∧
            (∀ x, x ∈ rest → frozenAt s x = false) ∧
            (∀ x, x ∈ rest → freshPath s l x).
Proof.
  induction n as [|n IH]; intros l s v s' Hrun [o Hl]; [done|].
  rewrite deepFreezeN_ref, Hl in Hrun.
  pose proof (markFrozen_freezes l s) as F1.
  pose proof (markFrozen_lookup _ _ _ Hl) as Hl1.
  match type of Hrun with
  | match forEach ?names ?f ?s1 with _ => _ end = _ =>
      destruct (forEach names f s1) as [[] t'|e t'|] eqn:Hloop; try done
  end.
  injection Hrun as <- <-. split; [done|].
  change (class o) with (class (setFrozen o)) in Hloop.
  destruct (forEach_visit_froze (deepFreezeN n) l) with (2 := Hloop) (3 := Hl1)
    as (new&Hfz&Hunf&Hpath&Hall&Hthr).
  { intros c t w t2 Hc Hfc.
    destruct (IH c t w t2 Hc (frozenAt_in_heap _ _ Hfc)) as (_&_&rest&?&?&?).
    eauto. }
  split.
  { intros o0 k Hl0 Hp. simplify_eq.
    apply (Hthr k); eauto using ownProp_Some_ownKeys. }
  exists new. split; [|split].
  - eapply froze_root; eauto.
    intros c (o0&k&Hl0&Hp&Hres). simplify_eq.
    apply (Hall k c); [|done|done]. eauto using ownProp_Some_ownKeys.
  - intros x Hx. eapply freezes_unfrozen; [exact F1|]. auto.
  - intros x Hx. eapply freezes_freshPath; [exact F1|]. auto.
Qed.

(** ** Termination *)

Lemma unfrozenCount_freezes s s' :
  freezes s s' → unfrozenCount s' ≤ unfrozenCount s.
Proof.
  unfold freezes, unfrozenCount.
  induction 1 as [|o o' h h' Ho _ IH]; [done|].
  rewrite !filter_cons. destruct Ho as (_&_&Hf).
  repeat case_decide; simpl; try lia.
  destruct (frozen o); [|done]. by rewrite Hf in *.
Qed.

Lemma unfrozenCount_markFrozen s l :
  frozenAt s l = false →
  S (unfrozenCount (markFrozen l s)) = unfrozenCount s.
Proof.
  unfold frozenAt, isFrozen, markFrozen, unfrozenCount.
  destruct (heap s !! l) as [o|] eqn:Hl; [|done]. intros Hf. simpl.
  rewrite insert_take_drop by eauto using lookup_lt_Some.
  rewrite <- (take_drop_middle (heap s) l o Hl) at 3.
  rewrite !filter_app, !filter_cons, !length_app.
  rewrite decide_False by done. rewrite decide_True by done. simpl. lia.
Qed.

(** A recursive call is made on an object that is not frozen, and freezes
    it first; so a budget above the number of objects that are not frozen
    is never used up. *)
Lemma deepFreezeN_terminates n :
  ∀ l s, unfrozenCount (markFrozen l s) ≤ n →
         deepFreezeN (S n) (VRef l) s ≠ OutOfFuel.
Proof.
  induction n as [n IH] using lt_wf_ind. intros l s Hn.
  rewrite deepFreezeN_ref. destruct (heap s !! l) as [o|] eqn:Hl; [|done].
  assert (Hloop : ∀ names t isFn,
    freezes (markFrozen l s) t →
    forEach names (visitProp (deepFreezeN n) (VRef l) isFn) t ≠ OutOfFuel).
  { induction names as [|k names IHn]; intros t isFn Ht; [done|].
    simpl. unfold bind. rewrite visitProp_ref.
    destruct (heap t !! l) as [ot|]; [|by apply IHn].
    destruct (ownProp ot k) as [sl|]; [|by apply IHn].
    destruct (isFn && reservedKey k); [by apply IHn|].
    destruct sl as [w|]; [|done].
    destruct w as [| | | | |c]; try by apply IHn.
    destruct (frozenAt t c) eqn:Hfc; [by apply IHn|].
    pose proof (unfrozenCount_freezes _ _ Ht) as Hle.
    pose proof (unfrozenCount_markFrozen _ _ Hfc) as Hc.
    destruct n as [|n']; [lia|].
    destruct (deepFreezeN (S n') (VRef c) t) as [v t1|e t1|] eqn:Hcall.
    - apply IHn.
      destruct (deepFreezeN_froze _ _ _ _ _ Hcall (frozenAt_in_heap _ _ Hfc))
        as (_&_&rest&Hfz&_).
      eapply freezes_trans; [exact Ht|apply Hfz].
    - done.
    - exfalso. revert Hcall. apply IH; lia. }
  specialize (Hloop (ownKeys o) (markFrozen l s)
                (bool_decide (class o = FunctionObject)) (freezes_refl _)).
  by destruct (forEach _ _ _).
Qed.

(** ** The budget does not matter once it is large enough *)

Lemma visitProp_more recurse1 recurse2 obj isFn k s :
  (∀ v t, recurse1 v t ≠ OutOfFuel → recurse2 v t = recurse1 v t) →
  visitProp recurse1 obj isFn k s ≠ OutOfFuel →
  visitProp recurse2 obj isFn k s = visitProp recurse1 obj isFn k s.
Proof.
  intros Hrec. unfold visitProp, bind.
  destruct (hasOwnProperty obj k s) as [own s1|e s1|]; [|done|done].
  destruct (own && _); [|done].
  destruct (Get obj k s1) as [pv s2|e s2|]; [|done|done].
  destruct (typeof pv s2) as [ty s3|e s3|]; [|done|done].
  destruct (Object_isFrozen pv s3) as [fz s4|e s4|]; [|done|done].
  destruct (_ && _); [|done].
  intros H. rewrite Hrec; [done|]. by destruct (recurse1 pv s4).
Qed.

Lemma forEach_visit_more recurse1 recurse2 obj isFn names s :
  (∀ v t, recurse1 v t ≠ OutOfFuel → recurse2 v t = recurse1 v t) →
  forEach names (visitProp recurse1 obj isFn) s ≠ OutOfFuel →
  forEach names (visitProp recurse2 obj isFn) s
  = forEach names (visitProp recurse1 obj isFn) s.
Proof.
  intros Hrec. revert s. induction names as [|k names IH]; intros s; [done|].
  simpl. unfold bind. intros H.
  rewrite (visitProp_more recurse1 recurse2) by
    (try done; by destruct (visitProp recurse1 obj isFn k s)).
  destruct (visitProp recurse1 obj isFn k s); [|done|done]. by apply IH.
Qed.

Lemma deepFreezeN_S n :
  ∀ obj s, deepFreezeN n obj s ≠ OutOfFuel →
           deepFreezeN (S n) obj s = deepFreezeN n obj s.
Proof.
  induction n as [|n IH]; intros obj s H; [done|].
  change (deepFreezeN (S (S n)) obj s) with
    ((if truthy obj then
        do _ <- Object_freeze obj;
        do ty <- typeof obj;
        do names <- Object_getOwnPropertyNames obj;
        do _ <- forEach names
                  (visitProp (deepFreezeN (S n)) obj
                     (bool_decide (ty = TFunction)));
        ret obj
      else ret obj) s).
  change (deepFreezeN (S n) obj s) with
    ((if truthy obj then
        do _ <- Object_freeze obj;
        do ty <- typeof obj;
        do names <- Object_getOwnPropertyNames obj;
        do _ <- forEach names
                  (visitProp (deepFreezeN n) obj
                     (bool_decide (ty = TFunction)));
        ret obj
      else ret obj) s) in H |- *.
  destruct (truthy obj); [|done]. unfold bind in *.
  destruct (Object_freeze obj s) as [[] s1|e s1|]; [|done|done].
  destruct (typeof obj s1) as [ty s2|e s2|]; [|done|done].
  destruct (Object_getOwnPropertyNames obj s2) as [names s3|e s3|]; [|done|done].
  rewrite (forEach_visit_more (deepFreezeN n) (deepFreezeN (S n))); [done|auto|].
  by destruct (forEach _ _ _).
Qed.

Lemma deepFreezeN_le n m obj s :
  n ≤ m → deepFreezeN n obj s ≠ OutOfFuel →
  deepFreezeN m obj s = deepFreezeN n obj s.
Proof.
  induction 1 as [|m Hle IH]; [done|]. intros H.
  rewrite deepFreezeN_S; rewrite IH; done.
Qed.

Lemma deepFreeze_terminates obj s : deepFreeze obj s ≠ OutOfFuel.
Proof.
  unfold deepFreeze. destruct obj as [| | | | |l];
    try by rewrite deepFreezeN_primitive.
  apply deepFreezeN_terminates, unfrozenCount_freezes, markFrozen_freezes.
Qed.

Lemma deepFreezeN_enough n obj s :
  unfrozenCount s < n → deepFreezeN n obj s = deepFreeze obj s.
Proof.
  intros H. apply deepFreezeN_le; [lia|]. apply deepFreeze_terminates.
Qed.

(** ** Which objects are frozen after a call *)

Lemma froze_freshPath s s' new :
  froze s s' new →
  ∀ x c, freshPath s x c → x ∈ new → frozenAt s' c = true.
Proof.
  intros Hfz. induction 1 as [x|x c Hc|x m c Hm Hf _ IH]; intros Hx.
  - by apply (froze_new _ _ _ Hfz).
  - by apply (froze_children _ _ _ Hfz x).
  - apply IH. pose proof (froze_children _ _ _ Hfz x m Hx Hm) as Hm'.
    destruct (froze_only _ _ _ Hfz m Hm') as [?|?]; [congruence|done].
Qed.

(** After [deepFreeze(l)], the frozen objects are those that were frozen
    before and those on a fresh path from [l]. *)
Lemma deepFreezeN_frozen_iff n l s v s' :
  deepFreezeN n (VRef l) s = Ok v s' → is_Some (heap s !! l) →
  ∀ c, frozenAt s' c = true ↔ frozenAt s c = true ∨ freshPath s l c.
Proof.
  intros Hrun Hl c.
  destruct (deepFreezeN_froze _ _ _ _ _ Hrun Hl) as (_&_&rest&Hfz&Hunf&Hpath).
  split.
  - intros Hc. destruct (froze_only _ _ _ Hfz c Hc) as [?|Hin]; [by left|right].
    apply elem_of_cons in Hin as [->|Hin]; [constructor|auto].
  - intros [Hc|Hc].
    + eapply freezes_frozenAt; [apply Hfz|done].
    + eapply froze_freshPath; [exact Hfz|exact Hc|apply list_elem_of_here].
Qed.

(** ** A second call *)

Lemma forEach_skip {St A} (f : A → M St unit) xs s :
  (∀ x, x ∈ xs → f x s = Ok tt s) → forEach xs f s = Ok tt s.
Proof.
  induction xs as [|x xs IH]; intros H; [done|]. simpl. unfold bind.
  rewrite H by apply list_elem_of_here.
  apply IH. intros y Hy. apply H. by apply list_elem_of_further.
Qed.

Lemma setFrozen_frozen o : frozen o = true → setFrozen o = o.
Proof. destruct o as [c ps f]. simpl. by intros ->. Qed.

Lemma markFrozen_heap_frozen l s :
  frozenAt s l = true → heap (markFrozen l s) = heap s.
Proof.
  unfold frozenAt, isFrozen, markFrozen.
  destruct (heap s !! l) as [o|] eqn:Hl; [|done]. intros Hf. simpl.
  rewrite setFrozen_frozen by done. by apply list_insert_id.
Qed.

(** Calling [deepFreeze] again on the result of a call: [Object.freeze] is
    applied to the argument once more, no property is entered, and the
    heap stays as it is. *)
Lemma deepFreezeN_again n m l s v s' :
  deepFreezeN n (VRef l) s = Ok v s' → is_Some (heap s !! l) →
  deepFreezeN (S m) (VRef l) s' = Ok (VRef l) (markFrozen l s') ∧
  heap (markFrozen l s') = heap s' ∧
  freezeCalls (markFrozen l s') = freezeCalls s' ++ [l].
Proof.
  intros Hrun [o Hl].
  destruct (deepFreezeN_froze _ _ _ _ _ Hrun (ex_intro _ o Hl))
    as (_&Hthr&rest&Hfz&_&_).
  destruct (freezes_lookup _ _ _ _ (froze_freezes _ _ _ Hfz) Hl)
    as (o'&Hl'&Hsb).
  assert (Hfl : frozenAt s' l = true).
  { apply (froze_new _ _ _ Hfz). apply list_elem_of_here. }
  split; [|split].
  - rewrite deepFreezeN_ref, Hl'. rewrite forEach_skip; [done|].
    intros k _. rewrite visitProp_ref.
    rewrite (markFrozen_lookup _ _ _ Hl').
    change (ownProp (setFrozen o') k) with (ownProp o' k).
    rewrite (sameButFrozen_ownProp _ _ _ Hsb).
    destruct (ownProp o k) as [sl|] eqn:Hp; [|done].
    destruct (bool_decide (class o' = FunctionObject) && reservedKey k) eqn:Hr;
      [done|].
    assert (Hres : class o = FunctionObject → reservedKey k = false).
    { intros Hfn. apply andb_false_iff in Hr as [Hr|Hr]; [|done].
      apply bool_decide_eq_false in Hr. destruct Hsb as (Hc&_). congruence. }
    destruct sl as [w|].
    + destruct w as [| | | | |c]; try done.
      assert (Hc : frozenAt s' c = true).
      { apply (froze_children _ _ _ Hfz l c); [apply list_elem_of_here|].
        by exists o, k. }
      by rewrite (freezes_frozenAt _ _ _ (markFrozen_freezes l s') Hc).
    + destruct (Hthr o k Hl Hp) as [Hfn Hk]. rewrite (Hres Hfn) in Hk. done.
  - by apply markFrozen_heap_frozen.
  - by apply (markFrozen_calls _ o').
Qed.

(** ** No exception from the reserved properties *)

Lemma deepFreezeN_no_throw n :
  ∀ l s e s', throwingOnlyReserved s →
              deepFreezeN n (VRef l) s ≠ Throw e s'.
Proof.
  induction n as [|n IH]; intros l s e s' Hs; [done|].
  rewrite deepFreezeN_ref. destruct (heap s !! l) as [o|] eqn:Hl; [|done].
  assert (Hloop : ∀ names t isFn,
    (∀ ot, heap t !! l = Some ot →
           isFn = bool_decide (class ot = FunctionObject)) →
    throwingOnlyReserved t →
    forEach names (visitProp (deepFreezeN n) (VRef l) isFn) t ≠ Throw e s').
  { induction names as [|k names IHn]; intros t isFn HisFn Ht; [done|].
    simpl. unfold bind. rewrite visitProp_ref.
    pose proof (IHn t isFn HisFn Ht) as Hnext.
    destruct (heap t !! l) as [ot|] eqn:Hlt; [|done].
    destruct (ownProp ot k) as [sl|] eqn:Hp; [|done].
    destruct (isFn && reservedKey k) eqn:Hr; [done|].
    destruct sl as [w|].
    - destruct w as [| | | | |c]; try done.
      destruct (frozenAt t c) eqn:Hfc; [done|].
      destruct (deepFreezeN n (VRef c) t) as [v t1|e1 t1|] eqn:Hcall.
      + destruct (deepFreezeN_froze _ _ _ _ _ Hcall (frozenAt_in_heap _ _ Hfc))
          as (_&_&rest&Hfz&_).
        pose proof (froze_freezes _ _ _ Hfz) as F.
        apply IHn; [|by eapply freezes_throwingOnlyReserved].
        intros ot1 Hlt1.
        destruct (freezes_lookup _ _ _ _ F Hlt) as (ot1'&?&Hsb). simplify_eq.
        rewrite (HisFn ot eq_refl). destruct Hsb as (->&_). done.
      + exfalso. by apply (IH c t e1 t1 Ht).
      + done.
    - destruct (Ht l ot k Hlt Hp) as [Hfn Hk].
      rewrite (HisFn ot eq_refl), Hk in Hr.
      rewrite bool_decide_true in Hr by done. done. }
  assert (Hne : forEach (ownKeys o)
                  (visitProp (deepFreezeN n) (VRef l)
                     (bool_decide (class o = FunctionObject)))
                  (markFrozen l s) ≠ Throw e s').
  { apply Hloop.
    - intros ot. rewrite (markFrozen_lookup _ _ _ Hl). by intros [= <-].
    - eapply freezes_throwingOnlyReserved; [apply markFrozen_freezes|done]. }
  destruct (forEach _ _ _) as [[] t|e1 t|]; [done| |done].
  intros [= -> ->]. by apply Hne.
Qed.

Lemma deepFreeze_primitive obj s :
  (∀ l, obj ≠ VRef l) → deepFreeze obj s = Ok obj s.
Proof. intros H. unfold deepFreeze. by apply deepFreezeN_primitive. Qed.

Lemma deepFreeze_not_in_heap l s :
  heap s !! l = None → deepFreeze (VRef l) s = Ok (VRef l) s.
Proof. intros H. unfold deepFreeze. by rewrite deepFreezeN_ref, H. Qed.

(** [deepFreeze] returns the reference it was given. *)
Lemma deepFreeze_returns_argument obj s v s' :
  deepFreeze obj s = Ok v s' → v = obj.
Proof.
  destruct obj as [| | | | |l];
    try (rewrite deepFreeze_primitive by done; congruence).
  destruct (heap s !! l) as [o|] eqn:Hl.
  - intros H. by apply (deepFreezeN_froze _ _ _ _ _ H).
  - rewrite deepFreeze_not_in_heap by done. congruence.
Qed.

(** A write to a frozen object is rejected and leaves the state as it is. *)
Lemma Put_frozen l k w s :
  frozenAt s l = true → Put (VRef l) k w s = Throw TypeError s.
Proof.
  unfold frozenAt, isFrozen, Put.
  destruct (heap s !! l) as [o|]; [|done]. by intros ->.
Qed.

End DeepFreeze.

(* ================================================================== *)
(** * deepFreeze: the claims                                           *)
(* ================================================================== *)

Section DeepFreezeClaims.

Lemma freshPath_snoc s l x c :
  freshPath s l x → x = l ∨ frozenAt s x = false → traversedChild s x c →
  freshPath s l c.
Proof.
  induction 1 as [l|l x Hx|l m x Hm Hf _ IH]; intros Hfx Hc.
  - by apply freshPath_last.
  - destruct Hfx as [->|Hfx]; [by apply freshPath_last|].
    eapply freshPath_step; [exact Hx|exact Hfx|by apply freshPath_last].
  - destruct Hfx as [->|Hfx]; [by apply freshPath_last|].
    eapply freshPath_step; [exact Hm|exact Hf|]. apply IH; [by right|done].
Qed.

(** When every object that is frozen beforehand has only frozen children,
    a fresh path exists wherever a traversed path does, or its end is
    frozen already. *)
Lemma frozenClosed_path s l c :
  frozenClosed s → traversedPath s l c →
  frozenAt s c = true ∨ freshPath s l c.
Proof.
  intros Hcl Hp. unfold traversedPath in Hp. revert c Hp.
  apply (rtc_ind_r (λ c, frozenAt s c = true ∨ freshPath s l c)).
  - right. constructor.
  - intros x c Hlx Hxc IH. destruct IH as [Hx|Hx].
    + left. by apply (Hcl x).
    + destruct (frozenAt s x) eqn:Hfx.
      * left. by apply (Hcl x).
      * right. eapply freshPath_snoc; eauto.
Qed.

(** ** C2 *)

(** C2, as stated, fails: the object [{ c: 1 }] is reachable from the
    argument, under an interior node that was frozen before the call;
    after [deepFreeze] it is still not frozen, and a write to its property
    [c] is observed. *)
Lemma deepFreeze_interior_frozen_counterexample :
  frozenAt interiorFrozen 1 = true ∧ frozenAt interiorFrozen 2 = false ∧
  ∃ s' s'',
    deepFreeze (VRef 0) interiorFrozen = Ok (VRef 0) s' ∧
    reachable s' 0 2 ∧
    frozenAt s' 2 = false ∧
    Put (VRef 2) (Name "c") (VNumber (Finite 5)) s' = Ok tt s'' ∧
    Get (VRef 2) (Name "c") s'' = Ok (VNumber (Finite 5)) s''.
Proof.
  split; [done|]. split; [done|]. eexists _, _.
  split; [vm_compute; reflexivity|].
  split.
  { eapply rtc_l; [eexists _, (Name "a"); split; reflexivity|].
    eapply rtc_l; [|apply rtc_refl].
    eexists _, (Name "b"); split; reflexivity. }
  split; [done|]. split; [vm_compute; reflexivity|]. done.
Qed.

(** C2 (amended): after [deepFreeze(v)] has returned, it has returned [v].
    The heap has changed in frozen flags only.  An object is frozen
    afterwards exactly when it was frozen before the call, or is [v], or is
    reached from [v] by a path of own properties that [deepFreeze] follows
    (the string-keyed properties, other than [caller], [callee] and
    [arguments] of a function) on which every object strictly between [v]
    and it was not frozen before the call; so an object that was not frozen
    and has no such path is still not frozen, also when it is reachable from
    [v] through an object that was frozen before.  An assignment to a
    property other than [__proto__] of [v], or of an object on such a path,
    throws a [TypeError] and changes nothing.  When no object that was
    frozen before the call has a child that is not, every object reached
    from [v] through such properties is frozen. *)
Theorem deepFreeze_freezes_fresh_paths v s v' s' :
  deepFreeze v s = Ok v' s' →
  v' = v ∧ freezes s s' ∧
  ∀ l, v = VRef l → is_Some (heap s !! l) →
    (∀ c, frozenAt s' c = true ↔ frozenAt s c = true ∨ freshPath s l c) ∧
    (∀ c, frozenAt s c = false → ¬ freshPath s l c → frozenAt s' c = false) ∧
    (∀ c k w, freshPath s l c → k ≠ protoKey →
              Put (VRef c) k w s' = Throw TypeError s') ∧
    (frozenClosed s → ∀ c, traversedPath s l c → frozenAt s' c = true).
Proof.
  intros Hrun. split; [by eapply deepFreeze_returns_argument|]. split.
  { destruct v as [| | | | |l];
      try (rewrite deepFreeze_primitive in Hrun by done;
           injection Hrun as <- <-; apply freezes_refl).
    destruct (heap s !! l) as [o|] eqn:Hl.
    - destruct (deepFreezeN_froze _ _ _ _ _ Hrun (ex_intro _ o Hl))
        as (_&_&rest&Hfz&_). apply Hfz.
    - rewrite deepFreeze_not_in_heap in Hrun by done.
      injection Hrun as <- <-. apply freezes_refl. }
  intros l -> Hl.
  pose proof (deepFreezeN_frozen_iff _ _ _ _ _ Hrun Hl) as Hiff.
  split; [done|]. split; [|split].
  - intros c Hc Hno. destruct (frozenAt s' c) eqn:Hc'; [|done].
    apply Hiff in Hc' as [Hold|Hpath]; [congruence|done].
  - intros c k w Hc _. apply Put_frozen. apply Hiff. by right.
  - intros Hcl c Hc. apply Hiff. by apply frozenClosed_path.
Qed.

Lemma deepFreeze_freezes_fresh_paths_witness :
  ∃ s', deepFreeze (VRef 0) cyclicShared = Ok (VRef 0) s' ∧
        (frozenAt s' 1 = true ↔
         frozenAt cyclicShared 1 = true ∨ freshPath cyclicShared 0 1).
Proof.
  eexists. split; [vm_compute; reflexivity|].
  refine (proj1 (proj2 (proj2 (deepFreeze_freezes_fresh_paths
                                 (VRef 0) cyclicShared (VRef 0) _ _))
                   0 eq_refl _) 1).
  - vm_compute; reflexivity.
  - vm_compute. eauto.
Defined.

(** ** C6 *)

(** C6: [deepFreeze] terminates on every value and every heap, whatever
    cycles and shared objects the heap has, and a recursion budget above
    the number of objects that are not frozen gives the same outcome; when
    it returns, it returns its argument; a second call on the result
    returns the same reference again, does not throw, and leaves the heap
    as it is, applying [Object.freeze] to the argument and entering
    nothing; and in the first call no object is passed to [Object.freeze]
    twice, and none but the argument that was frozen before. *)
Theorem deepFreeze_idempotent v s :
  deepFreeze v s ≠ OutOfFuel ∧
  (∀ n, unfrozenCount s < n → deepFreezeN n v s = deepFreeze v s) ∧
  ∀ v' s', deepFreeze v s = Ok v' s' →
    v' = v ∧
    (∃ s'', deepFreeze v' s' = Ok v' s'' ∧ heap s'' = heap s' ∧
            ∀ l, v = VRef l → is_Some (heap s !! l) →
                 freezeCalls s'' = freezeCalls s' ++ [l]) ∧
    (∀ l, v = VRef l → is_Some (heap s !! l) →
          ∃ rest, freezeCalls s' = freezeCalls s ++ l :: rest ∧
                  NoDup (l :: rest) ∧
                  ∀ x, x ∈ rest → frozenAt s x = false).
Proof.
  split; [apply deepFreeze_terminates|].
  split; [intros n Hn; by apply deepFreezeN_enough|].
  intros v' s' Hrun.
  pose proof (deepFreeze_returns_argument _ _ _ _ Hrun) as ->.
  split; [done|].
  destruct v as [| | | | |l].
  1-5: rewrite deepFreeze_primitive in Hrun by done; injection Hrun as <-;
       (split; [exists s; by rewrite deepFreeze_primitive|done]).
  destruct (heap s !! l) as [o|] eqn:Hl.
  - assert (Hin : is_Some (heap s !! l)) by eauto.
    destruct (deepFreezeN_again _ (unfrozenCount s') _ _ _ _ Hrun Hin)
      as (Hagain&Hheap&Hcalls).
    split.
    + exists (markFrozen l s'). split; [exact Hagain|]. split; [done|].
      by intros ? [= <-] _.
    + intros ? [= <-] _.
      destruct (deepFreezeN_froze _ _ _ _ _ Hrun Hin) as (_&_&rest&Hfz&Hunf&_).
      exists rest. split; [apply Hfz|]. split; [apply Hfz|done].
  - rewrite deepFreeze_not_in_heap in Hrun by done. injection Hrun as <-.
    split.
    + exists s. rewrite deepFreeze_not_in_heap by done.
      split; [done|]. split; [done|].
      intros ? [= <-] [? ?]. congruence.
    + intros ? [= <-] [? ?]. congruence.
Qed.

Lemma deepFreeze_idempotent_witness :
  ∃ s' s'',
    deepFreeze (VRef 0) cyclicShared = Ok (VRef 0) s' ∧
    deepFreeze (VRef 0) s' = Ok (VRef 0) s'' ∧
    heap s'' = heap s' ∧
    freezeCalls s' = [0; 1; 2] ∧ freezeCalls s'' = [0; 1; 2; 0].
Proof.
  destruct (deepFreeze_idempotent (VRef 0) cyclicShared) as (_&_&H).
  destruct (H (VRef 0) _ ltac:(vm_compute; reflexivity))
    as (_&(s''&Hagain&Hheap&_)&_).
  eexists _, s''. split; [vm_compute; reflexivity|].
  split; [exact Hagain|]. split; [exact Hheap|]. split; [reflexivity|].
  revert Hagain. vm_compute. by intros [= <-].
Defined.

(** ** C7 *)

(** C7: when the throwing accessors of the heap are [caller], [callee] and
    [arguments] properties of functions, [deepFreeze] returns normally.
    The callback does nothing on these three properties of a function,
    whatever they hold, so an object is frozen by the call only if there is
    a path to it that does not go through them; and every data property of
    an entered object that is not a function, and every data property of
    an entered function other than these three, has its object frozen. *)
Theorem deepFreeze_skips_reserved v s :
  throwingOnlyReserved s →
  ∃ s', deepFreeze v s = Ok v s' ∧
    (∀ recurse f o k t,
       heap t !! f = Some o → class o = FunctionObject →
       reservedKey k = true →
       visitProp recurse (VRef f) true k t = Ok tt t) ∧
    ∀ l, v = VRef l → is_Some (heap s !! l) →
      (∀ c, frozenAt s' c = true → frozenAt s c = true ∨ freshPath s l c) ∧
      (∀ x o k c,
         freshPath s l x → x = l ∨ frozenAt s x = false →
         heap s !! x = Some o → ownProp o k = Some (Data (VRef c)) →
         class o ≠ FunctionObject ∨ reservedKey k = false →
         frozenAt s' c = true).
Proof.
  intros Hs.
  assert (Hok : ∃ s', deepFreeze v s = Ok v s').
  { destruct (deepFreeze v s) as [v' s'|e s'|] eqn:Hrun.
    - rewrite (deepFreeze_returns_argument _ _ _ _ Hrun). eauto.
    - exfalso. destruct v as [| | | | |l];
        try (rewrite deepFreeze_primitive in Hrun by done; done).
      revert Hrun. by apply deepFreezeN_no_throw.
    - exfalso. revert Hrun. apply deepFreeze_terminates. }
  destruct Hok as [s' Hrun]. exists s'. split; [done|]. split.
  { intros recurse f o k t Hf Hfn Hk. rewrite visitProp_ref, Hf.
    destruct (ownProp o k); [|done]. by rewrite Hk. }
  intros l -> Hl.
  pose proof (deepFreezeN_frozen_iff _ _ _ _ _ Hrun Hl) as Hiff.
  split; [intros c; apply Hiff|].
  intros x o k c Hx Hfx Hlx Hp Hres. apply Hiff. right.
  eapply freshPath_snoc; [exact Hx|exact Hfx|].
  exists o, k. split; [done|]. split; [done|].
  intros Hfn. by destruct Hres.
Qed.

Lemma deepFreeze_skips_reserved_witness :
  ∃ s', deepFreeze (VRef 0) withFunction = Ok (VRef 0) s' ∧
        frozen <$> heap s' = [true; true; true; false; true].
Proof.
  destruct (deepFreeze_skips_reserved (VRef 0) withFunction) as (s'&Hrun&_).
  - intros l o k Hl Hp.
    destruct l as [|[|[|[|[|l]]]]]; simpl in Hl; simplify_eq;
      unfold ownProp in Hp; simpl in Hp;
      repeat (case_decide; simplify_eq; try done).
  - exists s'. split; [exact Hrun|].
    revert Hrun. vm_compute. by intros [= <-].
Defined.

(** On an object that is not a function, [caller] is read like any other
    property: a throwing accessor there makes [deepFreeze] throw. *)
Example deepFreeze_reads_caller_of_object :
  ∃ s', deepFreeze (VRef 0) throwingCaller = Throw TypeError s'.
Proof. eexists. vm_compute. reflexivity. Qed.

End DeepFreezeClaims.

(* ================================================================== *)
(** * JSON: what stringify and parse do                                *)
(* ================================================================== *)

Section Json.

Lemma json_induction (P : json → Prop) :
  P JNull → (∀ b, P (JBool b)) → (∀ z, P (JNumber z)) →
  (∀ str, P (JString str)) →
  (∀ items, Forall P items → P (JArray items)) →
  (∀ members, Forall (λ m, P m.2) members → P (JObject members)) →
  ∀ j, P j.
Proof.
  intros Hnull Hbool Hnum Hstr Harr Hobj. fix IH 1.
  intros [|b|z|str|items|members];
    [exact Hnull|apply Hbool|apply Hnum|apply Hstr| |].
  - apply Harr.
    exact ((fix all (js : list json) : Forall P js :=
              match js with
              | [] => @List.Forall_nil _ P
              | j :: js' => @List.Forall_cons _ P j js' (IH j) (all js')
              end) items).
  - apply Hobj.
    exact ((fix all (ms : list (key * json)) : Forall (λ m, P m.2) ms :=
              match ms with
              | [] => @List.Forall_nil _ (λ m, P m.2)
              | m :: ms' =>
                  @List.Forall_cons _ (λ m, P m.2) m ms' (IH m.2) (all ms')
              end) members).
Qed.

(** ** Property lists *)

Lemma keyBefore_ne k k' : keyBefore k k' → k ≠ k'.
Proof. destruct k, k'; simpl; intros H [= ->]; [lia|done]. Qed.

Lemma keyBefore_precedes k k' : keyBefore k' k → precedes k k' = false.
Proof.
  destruct k, k'; simpl; try done. intros H.
  apply bool_decide_eq_false. lia.
Qed.

Lemma defineProp_append k sl ps :
  Forall (λ k', keyBefore k' k) ps.*1 →
  defineProp k sl ps = ps ++ [(k, sl)].
Proof.
  induction ps as [|[k' sl'] ps IH]; simpl; [done|].
  intros [Hk Hps]%Forall_cons.
  rewrite decide_False by (by apply keyBefore_ne).
  rewrite (keyBefore_precedes _ _ Hk). by rewrite IH.
Qed.

Lemma lookupProp_defineProp k k' sl ps :
  lookupProp k (defineProp k' sl ps) =
  if decide (k' = k) then Some sl else lookupProp k ps.
Proof.
  induction ps as [|[k0 sl0] ps IH]; simpl.
  - by destruct (decide (k' = k)).
  - destruct (decide (k0 = k')) as [->|Hne]; simpl.
    + by destruct (decide (k' = k)).
    + destruct (precedes k' k0); simpl.
      * by destruct (decide (k' = k)).
      * rewrite IH. destruct (decide (k0 = k)) as [->|]; [|done].
        by rewrite decide_False.
Qed.

(** The properties built for members in canonical order are the members. *)
Lemma propsOfMembers_canonical kvs :
  canonicalKeys kvs.*1 →
  propsOfMembers kvs = (λ kv, (kv.1, Data kv.2)) <$> kvs.
Proof.
  unfold propsOfMembers.
  enough (H : ∀ acc,
    Forall (λ k', Forall (keyBefore k') kvs.*1) acc.*1 →
    canonicalKeys kvs.*1 →
    foldl (λ ps kv, defineProp kv.1 (Data kv.2) ps) acc kvs
    = acc ++ ((λ kv, (kv.1, Data kv.2)) <$> kvs)).
  { intros Hc. by rewrite H. }
  induction kvs as [|[k v] kvs IH]; intros acc Hacc Hc; simpl.
  { by rewrite app_nil_r. }
  destruct Hc as [Hk Hc]. simpl in Hacc.
  rewrite defineProp_append.
  - rewrite IH; [by rewrite <- app_assoc| |done].
    rewrite map_app. apply Forall_app. split.
    + eapply Forall_impl; [exact Hacc|]. simpl. by intros ? [? ?]%Forall_cons.
    + by repeat constructor.
  - eapply Forall_impl; [exact Hacc|]. simpl. by intros ? [? ?]%Forall_cons.
Qed.

(** Whatever the order of the members, a property of the object that is
    built for them holds the value of one of them. *)
Lemma lookupProp_propsOfMembers k kvs sl :
  lookupProp k (propsOfMembers kvs) = Some sl →
  ∃ v, sl = Data v ∧ (k, v) ∈ kvs.
Proof.
  unfold propsOfMembers.
  enough (H : ∀ acc,
    lookupProp k (foldl (λ ps kv, defineProp kv.1 (Data kv.2) ps) acc kvs)
      = Some sl →
    lookupProp k acc = Some sl ∨ ∃ v, sl = Data v ∧ (k, v) ∈ kvs).
  { intros Hl. by destruct (H [] Hl). }
  induction kvs as [|[k' v'] kvs IH]; intros acc; simpl; [by left|].
  intros Hl. destruct (IH _ Hl) as [Hacc|(v&->&Hin)].
  - rewrite lookupProp_defineProp in Hacc.
    destruct (decide (k' = k)) as [->|]; [|by left].
    injection Hacc as <-. right. exists v'. split; [done|].
    apply list_elem_of_here.
  - right. exists v. split; [done|]. by apply list_elem_of_further.
Qed.

Lemma canonicalKeys_indices n m :
  canonicalKeys (Index <$> seq n m).
Proof.
  revert n. induction m as [|m IH]; intros n; simpl; [done|].
  split; [|apply IH]. apply Forall_forall. intros k Hk.
  apply list_elem_of_fmap in Hk as (i&->&Hi). apply elem_of_seq in Hi.
  simpl. lia.
Qed.

Lemma imap_indices_fst {A B} (g : nat → A → key * B) (vs : list A) n :
  (∀ i v, (g i v).1 = Index (n + i)) →
  (imap g vs).*1 = Index <$> seq n (length vs).
Proof.
  revert n g. induction vs as [|v vs IH]; intros n g Hg; [done|].
  rewrite imap_cons. simpl. rewrite Hg, Nat.add_0_r. f_equal.
  apply IH. intros i x. simpl. rewrite Hg. f_equal. lia.
Qed.

(** The properties that [JSON.parse] builds for an array. *)
Lemma propsOfMembers_array vs :
  propsOfMembers (imap (λ i v, (Index i, v)) vs)
  = imap (λ i v, (Index i, Data v)) vs.
Proof.
  rewrite propsOfMembers_canonical.
  - by rewrite fmap_imap.
  - rewrite (imap_indices_fst _ vs 0) by done. apply canonicalKeys_indices.
Qed.

(** ** Heaps that grow *)

Lemma extends_refl s : extends s s.
Proof. by intros l o. Qed.

Lemma extends_trans s1 s2 s3 : extends s1 s2 → extends s2 s3 → extends s1 s3.
Proof. intros H12 H23 l o Hl. auto. Qed.

Lemma grown_refl s : grown s s.
Proof. split; [done|]. exists []. by rewrite app_nil_r. Qed.

Lemma grown_length s s' : grown s s' → length (heap s) ≤ length (heap s').
Proof. intros (_&new&->&_). rewrite length_app. lia. Qed.

Lemma grown_extends s s' : grown s s' → extends s s'.
Proof. intros (_&new&H&_) l o Hl. rewrite H. by apply lookup_app_l_Some. Qed.

Lemma grown_trans s1 s2 s3 : grown s1 s2 → grown s2 s3 → grown s1 s3.
Proof.
  intros (C1&new1&H1&F1) (C2&new2&H2&F2). split; [congruence|].
  exists (new1 ++ new2). split; [by rewrite H2, H1, app_assoc|].
  apply Forall_app. split; [done|].
  eapply Forall_impl; [exact F2|]. simpl. intros o [Hf Hc]. split; [done|].
  intros k c Hp. specialize (Hc k c Hp). rewrite H1, length_app in Hc. lia.
Qed.

(** Allocating an object that refers to objects from [s] on. *)
Lemma grown_alloc s s2 o :
  grown s s2 → frozen o = false →
  (∀ k c, ownProp o k = Some (Data (VRef c)) → length (heap s) ≤ c) →
  grown s {| heap := heap s2 ++ [o]; freezeCalls := freezeCalls s2 |}.
Proof.
  intros (C&new&H&F) Hf Hc. split; [done|].
  exists (new ++ [o]). simpl. split; [by rewrite H, app_assoc|].
  apply Forall_app. split; [done|]. by repeat constructor.
Qed.

Lemma represents_extends s s' :
  extends s s' → ∀ j v, represents s v j → represents s' v j.
Proof.
  intros Hext. induction j as [|b|z|str|items IH|members IH]
    using json_induction; intros v Hv; inversion Hv; subst; try by constructor.
  - eapply represents_array; eauto.
    match goal with H : Forall2 _ vs items |- _ => revert H end.
    clear -IH. revert vs. induction IH as [|j items Hj _ IHitems];
      intros vs Hvs; inversion Hvs; subst; constructor; auto.
  - eapply represents_object; eauto.
    match goal with H : Forall2 _ kvs members |- _ => revert H end.
    clear -IH. revert kvs. induction IH as [|m members Hm _ IHmembers];
      intros kvs Hkvs; inversion Hkvs as [|kv m' kvs' ms' [Hk Hr]]; subst;
      constructor; auto.
Qed.

(** ** JSON.parse *)

Lemma ownProp_propsOfMembers_ref cls kvs k c n :
  Forall (freshFrom n) kvs.*2 →
  ownProp {| class := cls; props := propsOfMembers kvs; frozen := false |} k
    = Some (Data (VRef c)) →
  n ≤ c.
Proof.
  intros Hfresh. unfold ownProp. simpl.
  destruct (lookupProp k (propsOfMembers kvs)) as [sl|] eqn:Hl.
  - intros [= ->]. apply lookupProp_propsOfMembers in Hl as (v&[= <-]&Hin).
    rewrite Forall_forall in Hfresh. apply (Hfresh (VRef c)); [|done].
    apply list_elem_of_fmap. by exists (k, VRef c).
  - destruct cls; try done. by case_decide.
Qed.

(** [JSON.parse] always returns; what it builds is new; and for a text that
    some value represents, the value it builds represents the text. *)
Lemma internalize_spec j :
  ∀ s, ∃ v s',
    internalize j s = Ok v s' ∧ grown s s' ∧
    freshFrom (length (heap s)) v ∧
    (∀ s0 v0, represents s0 v0 j → represents s' v j).
Proof.
  induction j as [|b|z|str|items IH|members IH] using json_induction;
    intros s.
  1-4: eexists _, s; (split; [reflexivity|]); (split; [apply grown_refl|]);
       (split; [by intros ? [=]|]); intros s0 v0 H; inversion H; constructor.
  - (* arrays *)
    assert (Helems : ∀ s, ∃ vs s',
      (fix elements (items : list json) : M state (list value) :=
         match items with
         | [] => ret []
         | j :: items' =>
             do v <- internalize j;
             do vs <- elements items';
             ret (v :: vs)
         end) items s = Ok vs s' ∧
      grown s s' ∧ Forall (freshFrom (length (heap s))) vs ∧
      (∀ s0 vs0, Forall2 (represents s0) vs0 items →
                 Forall2 (represents s') vs items)).
    { clear s. induction IH as [|j items Hj _ IHitems]; intros s.
      - exists [], s. split; [done|]. split; [apply grown_refl|].
        split; [constructor|]. intros s0 vs0 H. inversion H. constructor.
      - destruct (Hj s) as (v&s1&Hv&G1&F1&R1).
        destruct (IHitems s1) as (vs&s2&Hvs&G2&F2&R2).
        exists (v :: vs), s2.
        split; [simpl; unfold bind at 1; rewrite Hv; unfold bind at 1;
                by rewrite Hvs|].
        split; [by eapply grown_trans|]. split.
        + constructor; [done|]. eapply Forall_impl; [exact F2|].
          intros w Hw l ->. pose proof (grown_length _ _ G1).
          specialize (Hw l eq_refl). lia.
        + intros s0 vs0 H. inversion H; subst. constructor; [|eauto].
          eapply represents_extends; [by apply grown_extends|]. eauto. }
    destruct (Helems s) as (vs&s2&Hvs&G&F&R).
    eexists (VRef (length (heap s2))), _.
    split; [simpl; unfold bind at 1; rewrite Hvs; reflexivity|].
    simpl. split; [|split].
    + apply grown_alloc; [done|done|].
      intros k c. apply ownProp_propsOfMembers_ref.
      rewrite fmap_imap. simpl.
      replace (imap (λ _ : nat, snd ∘ pair _) vs) with vs; [done|].
      clear. induction vs as [|v vs IHvs] using rev_ind; [done|].
      by rewrite imap_app, <- IHvs.
    + intros l [= <-]. by apply grown_length.
    + intros s0 v0 H. inversion H; subst.
      eapply represents_array.
      * apply list_lookup_middle. done.
      * done.
      * simpl. apply propsOfMembers_array.
      * eapply Forall2_impl; [eauto|]. intros w j.
        apply represents_extends. intros l' o' Hl'. by apply lookup_app_l_Some.
  - (* objects *)
    assert (Hfields : ∀ s, ∃ kvs s',
      (fix fields (members : list (key * json))
         : M state (list (key * value)) :=
         match members with
         | [] => ret []
         | (k, j) :: members' =>
             do v <- internalize j;
             do kvs <- fields members';
             ret ((k, v) :: kvs)
         end) members s = Ok kvs s' ∧
      grown s s' ∧ Forall (freshFrom (length (heap s))) kvs.*2 ∧
      kvs.*1 = members.*1 ∧
      (∀ s0 kvs0,
         Forall2 (λ (kv : key * value) (m : key * json),
                    kv.1 = m.1 ∧ represents s0 kv.2 m.2) kvs0 members →
         Forall2 (λ (kv : key * value) (m : key * json),
                    kv.1 = m.1 ∧ represents s' kv.2 m.2) kvs members)).
    { clear s. induction IH as [|[k j] members Hj _ IHmembers]; intros s.
      - exists [], s. split; [done|]. split; [apply grown_refl|].
        split; [constructor|]. split; [done|].
        intros s0 kvs0 H. inversion H. constructor.
      - destruct (Hj s) as (v&s1&Hv&G1&F1&R1).
        destruct (IHmembers s1) as (kvs&s2&Hkvs&G2&F2&K2&R2).
        exists ((k, v) :: kvs), s2. simpl in Hv.
        split; [simpl; unfold bind at 1; rewrite Hv; unfold bind at 1;
                by rewrite Hkvs|].
        split; [by eapply grown_trans|]. split; [|split].
        + constructor; [done|]. eapply Forall_impl; [exact F2|].
          intros w Hw l ->. pose proof (grown_length _ _ G1).
          specialize (Hw l eq_refl). lia.
        + rewrite !fmap_cons. simpl. by f_equal.
        + intros s0 kvs0 H. inversion H as [|kv ? ? ? [Hk Hr]]; subst.
          constructor; [|eauto]. split; [done|]. simpl.
          eapply represents_extends; [by apply grown_extends|]. eauto. }
    destruct (Hfields s) as (kvs&s2&Hkvs&G&F&K&R).
    eexists (VRef (length (heap s2))), _.
    split; [simpl; unfold bind at 1; rewrite Hkvs; reflexivity|].
    simpl. split; [|split].
    + apply grown_alloc; [done|done|].
      intros k c. by apply ownProp_propsOfMembers_ref.
    + intros l [= <-]. by apply grown_length.
    + intros s0 v0 H. inversion H as [| | | | |l o kvs0 ? Hl Hc Hp Hcan Hall];
        subst.
      assert (Hcanon : canonicalKeys kvs.*1).
      { rewrite K. replace (members.*1) with (kvs0.*1); [done|].
        clear -Hall. induction Hall as [|? ? ? ? [Hk _]]; [done|].
        rewrite !fmap_cons. congruence. }
      eapply represents_object.
      * apply list_lookup_middle. done.
      * done.
      * simpl. by apply propsOfMembers_canonical.
      * done.
      * eapply Forall2_impl; [eauto|]. intros kv m [? ?]. split; [done|].
        eapply represents_extends; [|done].
        intros l' o' Hl'. by apply lookup_app_l_Some.
Qed.

(** ** JSON.stringify *)

Lemma readOnly_ret {St A} (a : A) : readOnly (ret (St:=St) a).
Proof. by intros s. Qed.

Lemma readOnly_throw {St A} e : readOnly (throw (St:=St) (A:=A) e).
Proof. by intros s. Qed.

Lemma readOnly_gets {St A} (f : St → A) : readOnly (gets f).
Proof. by intros s. Qed.

Lemma readOnly_bind {St A B} (c : M St A) (k : A → M St B) :
  readOnly c → (∀ a, readOnly (k a)) → readOnly (bind c k).
Proof.
  intros Hc Hk s. unfold bind. specialize (Hc s).
  destruct (c s) as [a s1|e s1|]; subst; [apply Hk|done|done].
Qed.

Lemma readOnly_mapM {St A B} (f : A → M St B) xs :
  (∀ x, readOnly (f x)) → readOnly (mapM f xs).
Proof.
  intros Hf. induction xs as [|x xs IH]; simpl; [apply readOnly_ret|].
  apply readOnly_bind; [done|]. intros y.
  apply readOnly_bind; [done|]. intros ys. apply readOnly_ret.
Qed.

Lemma readOnly_Get v k : readOnly (Get v k).
Proof.
  intros s. unfold Get. destruct v as [| | | | |l]; simpl; try done.
  destruct (heap s !! l) as [o|]; [|done].
  by destruct (ownProp o k) as [[w|]|].
Qed.

Lemma readOnly_serialize fuel :
  ∀ stack v, readOnly (serializeJSONProperty fuel stack v).
Proof.
  induction fuel as [|fuel IH]; intros stack v; [by intros s|]. simpl.
  destruct v as [| | |[z| |neg]| |l]; try apply readOnly_ret.
  apply readOnly_bind; [apply readOnly_gets|]. intros [o|];
    [|apply readOnly_ret].
  destruct (class o); [| |apply readOnly_ret].
  - case_bool_decide; [apply readOnly_throw|].
    apply readOnly_bind; [|intros; apply readOnly_ret].
    apply readOnly_mapM. intros k.
    apply readOnly_bind; [apply readOnly_Get|]. intros w.
    apply readOnly_bind; [apply IH|]. intros j. apply readOnly_ret.
  - case_bool_decide; [apply readOnly_throw|].
    apply readOnly_bind; [|intros; apply readOnly_ret].
    apply readOnly_mapM. intros i.
    apply readOnly_bind; [apply readOnly_Get|]. intros w.
    apply readOnly_bind; [apply IH|]. intros j. apply readOnly_ret.
Qed.

Lemma mapM_terminates {St A B} (f : A → M St B) xs s :
  (∀ x, readOnly (f x)) → (∀ x, x ∈ xs → f x s ≠ OutOfFuel) →
  mapM f xs s ≠ OutOfFuel.
Proof.
  intros Hro. induction xs as [|x xs IH]; intros Hf; [done|].
  simpl. unfold bind.
  pose proof (Hro x s) as Hx. pose proof (Hf x (list_elem_of_here _ _)) as Hx'.
  destruct (f x s) as [y s1|e s1|]; [subst|done|done].
  assert (Hxs : mapM f xs s ≠ OutOfFuel).
  { apply IH. intros z Hz. apply Hf. by apply list_elem_of_further. }
  by destruct (mapM f xs s).
Qed.

Lemma mapM_ok {St A B} (f : A → M St B) xs ys s :
  Forall2 (λ x y, f x s = Ok y s) xs ys → mapM f xs s = Ok ys s.
Proof.
  induction 1 as [|x y xs ys Hx _ IH]; [done|].
  simpl. unfold bind. by rewrite Hx, IH.
Qed.

(** A stack without repetition of objects of the heap is no longer than
    the heap. *)
Lemma stack_bound (stack : list nat) n :
  NoDup stack → (∀ l, l ∈ stack → l < n) → length stack ≤ n.
Proof.
  intros Hnd Hin. rewrite <- (length_seq n 0).
  apply submseteq_length, NoDup_submseteq; [done|].
  intros l Hl. apply elem_of_seq. specialize (Hin l Hl). lia.
Qed.

(** [JSON.stringify] terminates: on every value and heap, with a budget
    above the number of objects. *)
Lemma serialize_terminates fuel :
  ∀ stack v s,
    NoDup stack → (∀ l, l ∈ stack → l < length (heap s)) →
    length (heap s) < fuel + length stack →
    serializeJSONProperty fuel stack v s ≠ OutOfFuel.
Proof.
  induction fuel as [|fuel IH]; intros stack v s Hnd Hin Hfuel.
  { pose proof (stack_bound _ _ Hnd Hin). lia. }
  simpl. destruct v as [| | |[z| |neg]| |l]; try done.
  unfold bind, gets. destruct (heap s !! l) as [o|] eqn:Hl; [|done].
  assert (Hrec : ∀ w, l ∉ stack →
            serializeJSONProperty fuel (l :: stack) w s ≠ OutOfFuel).
  { intros w Hnotin. apply IH.
    - by constructor.
    - intros l' [->|?]%elem_of_cons; [eauto using lookup_lt_Some|auto].
    - simpl. lia. }
  destruct (class o); [| |done].
  - case_bool_decide; [done|].
    match goal with |- context [mapM ?f ?xs s] =>
      assert (Hm : mapM f xs s ≠ OutOfFuel) end.
    { apply mapM_terminates.
      - intros k. apply readOnly_bind; [apply readOnly_Get|]. intros w.
        apply readOnly_bind; [apply readOnly_serialize|]. intros j.
        apply readOnly_ret.
      - intros k _. unfold bind.
        pose proof (readOnly_Get (VRef l) k s) as Hg.
        destruct (Get (VRef l) k s) as [w s1|e s1|] eqn:HG; [subst|done|].
        + specialize (Hrec w ltac:(done)).
          by destruct (serializeJSONProperty fuel (l :: stack) w s).
        + unfold Get in HG. rewrite Hl in HG.
          by destruct (ownProp o k) as [[?|]|]. }
    by destruct (mapM _ _ s).
  - case_bool_decide; [done|].
    match goal with |- context [mapM ?f ?xs s] =>
      assert (Hm : mapM f xs s ≠ OutOfFuel) end.
    { apply mapM_terminates.
      - intros k. apply readOnly_bind; [apply readOnly_Get|]. intros w.
        apply readOnly_bind; [apply readOnly_serialize|]. intros j.
        apply readOnly_ret.
      - intros k _. unfold bind.
        pose proof (readOnly_Get (VRef l) (Index k) s) as Hg.
        destruct (Get (VRef l) (Index k) s) as [w s1|e s1|] eqn:HG;
          [subst|done|].
        + specialize (Hrec w ltac:(done)).
          by destruct (serializeJSONProperty fuel (l :: stack) w s).
        + unfold Get in HG. rewrite Hl in HG.
          by destruct (ownProp o (Index k)) as [[?|]|]. }
    by destruct (mapM _ _ s).
Qed.

Lemma JSON_stringify_terminates v s : JSON_stringify v s ≠ OutOfFuel.
Proof.
  unfold JSON_stringify. apply serialize_terminates.
  - constructor.
  - intros l Hl. by apply elem_of_nil in Hl.
  - simpl. lia.
Qed.

(** ** The JSON text of a JSON-like value *)

Lemma jsize_item j items : j ∈ items → jsize j < jsize (JArray items).
Proof.
  simpl. induction 1 as [j items|j j' items _ IH]; simpl; lia.
Qed.

Lemma jsize_member (m : key * json) members :
  m ∈ members → jsize m.2 < jsize (JObject members).
Proof.
  simpl. induction 1 as [m members|m m' members _ IH]; simpl; lia.
Qed.

Lemma arrayProps_fmap (vs : list value) :
  imap (λ i v, (Index i, Data v)) vs
  = (λ kv : key * value, (kv.1, Data kv.2)) <$> imap (λ i v, (Index i, v)) vs.
Proof. by rewrite fmap_imap. Qed.

Lemma arrayProps_values (vs : list value) :
  (imap (λ i v, (Index i, v)) vs).*2 = vs.
Proof.
  rewrite fmap_imap. simpl.
  induction vs as [|v vs IH] using rev_ind; [done|].
  by rewrite imap_app, IH.
Qed.

Lemma canonicalKeys_array (vs : list value) :
  canonicalKeys (imap (λ i v, (Index i, v)) vs).*1.
Proof.
  rewrite (imap_indices_fst _ vs 0) by done. apply canonicalKeys_indices.
Qed.

Lemma keyBefore_irrefl k : ¬ keyBefore k k.
Proof. intros H. by apply keyBefore_ne in H. Qed.

(** With canonical keys, the property under the key of a member is that
    member. *)
Lemma lookupProp_canonical (kvs : list (key * value)) k v :
  canonicalKeys kvs.*1 → (k, v) ∈ kvs →
  lookupProp k ((λ kv : key * value, (kv.1, Data kv.2)) <$> kvs)
  = Some (Data v).
Proof.
  induction kvs as [|[k0 v0] kvs IH]; intros Hc Hin.
  { by apply elem_of_nil in Hin. }
  destruct Hc as [Hk0 Hc]. simpl.
  apply elem_of_cons in Hin as [[= -> ->]|Hin].
  - by rewrite decide_True.
  - rewrite decide_False; [by apply IH|]. intros ->.
    rewrite Forall_forall in Hk0. apply (keyBefore_irrefl k), Hk0.
    apply list_elem_of_fmap. by exists (k, v).
Qed.

Lemma arrayLength_app ps qs :
  arrayLength (ps ++ qs) = arrayLength ps `max` arrayLength qs.
Proof.
  induction ps as [|[[i|x] sl] ps IH]; simpl; [done| |done]. rewrite IH. lia.
Qed.

Lemma arrayLength_array (vs : list value) :
  arrayLength (imap (λ i v, (Index i, Data v)) vs) = length vs.
Proof.
  induction vs as [|v vs IH] using rev_ind; [done|].
  rewrite imap_app, arrayLength_app, IH, length_app. simpl. lia.
Qed.

Lemma represents_array_inv s v items :
  represents s v (JArray items) →
  ∃ l o vs, v = VRef l ∧ heap s !! l = Some o ∧ class o = ArrayObject ∧
            props o = imap (λ i v, (Index i, Data v)) vs ∧
            Forall2 (represents s) vs items.
Proof. inversion 1; subst. eauto 10. Qed.

Lemma represents_object_inv s v members :
  represents s v (JObject members) →
  ∃ l o kvs, v = VRef l ∧ heap s !! l = Some o ∧ class o = PlainObject ∧
             props o = (λ kv : key * value, (kv.1, Data kv.2)) <$> kvs ∧
             canonicalKeys kvs.*1 ∧
             Forall2 (λ (kv : key * value) (m : key * json),
                        kv.1 = m.1 ∧ represents s kv.2 m.2) kvs members.
Proof. inversion 1; subst. eauto 10. Qed.

Lemma arrayProps_inj (vs vs' : list value) :
  imap (λ i v, (Index i, Data v)) vs = imap (λ i v, (Index i, Data v)) vs' →
  vs = vs'.
Proof.
  intros H. apply (f_equal (fmap snd)) in H.
  rewrite !fmap_imap in H. simpl in H.
  assert (Hc : ∀ l : list value, imap (λ _ : nat, snd ∘ λ v, (Index 0, Data v)) l
                                 = Data <$> l).
  { intros l. induction l as [|x l IHl] using rev_ind; [done|].
    by rewrite imap_app, fmap_app, IHl. }
  assert (He : ∀ l : list value,
            imap (λ n : nat, snd ∘ λ v : value, (Index n, Data v)) l
            = Data <$> l).
  { intros l. rewrite <- Hc. by apply imap_ext. }
  rewrite !He in H. revert H.
  assert (Inj (=) (=) Data) by (by intros ?? [=]).
  apply (inj (fmap Data)).
Qed.

Lemma objectProps_inj (kvs kvs' : list (key * value)) :
  (λ kv : key * value, (kv.1, Data kv.2)) <$> kvs
  = (λ kv : key * value, (kv.1, Data kv.2)) <$> kvs' →
  kvs = kvs'.
Proof.
  assert (Inj (=) (=) (λ kv : key * value, (kv.1, Data kv.2)))
    by (by intros [??] [??] [= -> ->]).
  apply (inj (fmap _)).
Qed.

Lemma represents_deterministic s j1 :
  ∀ v j2, represents s v j1 → represents s v j2 → j1 = j2.
Proof.
  induction j1 as [|b|z|str|items IH|members IH] using json_induction;
    intros v j2 H1 H2.
  1-4: inversion H1; subst; inversion H2; subst; done.
  - (* arrays *)
    apply represents_array_inv in H1 as (l&o&vs&->&Hl&Hc&Hp&Hall).
    inversion H2 as [| | | |l' o' vs' items' Hl' Hc' Hp' Hall'
                     |l' o' kvs' members' Hl' Hc' Hp' Hcan' Hall']; subst;
      simplify_eq; [|congruence].
    rewrite Hp in Hp'. apply arrayProps_inj in Hp' as <-. f_equal.
    clear H2 Hp. revert items' Hall'. revert vs Hall. clear -IH.
    induction IH as [|j items Hj _ IHitems];
      intros vs Ha items2 Hb; inversion Ha; subst; inversion Hb; subst;
      [done|]. f_equal; eauto.
  - (* objects *)
    apply represents_object_inv in H1 as (l&o&kvs&->&Hl&Hc&Hp&Hcan&Hall).
    inversion H2 as [| | | |l' o' vs' items' Hl' Hc' Hp' Hall'
                     |l' o' kvs' members' Hl' Hc' Hp' Hcan' Hall']; subst;
      simplify_eq; [congruence|].
    rewrite Hp in Hp'. apply objectProps_inj in Hp' as <-. f_equal.
    clear H2 Hcan Hcan' Hp. revert members' Hall'. revert kvs Hall. clear -IH.
    induction IH as [|m members Hm _ IHmembers];
      intros kvs Ha members2 Hb;
      inversion Ha as [|? ? ? ? [Hk1 Hr1]]; subst;
      inversion Hb as [|? m2 ? ? [Hk2 Hr2]]; subst; [done|].
    f_equal; [|eauto]. destruct m as [k j], m2 as [k2 j2]. simpl in *.
    f_equal; [congruence|eauto].
Qed.

Lemma omap_id_Some {A} (xs : list A) : omap id (Some <$> xs) = xs.
Proof. induction xs as [|x xs IH]; [done|]. csimpl. by f_equal. Qed.

(** [JSON.stringify] of a JSON-like value returns the text it represents. *)
Lemma serialize_represents s j :
  ∀ v fuel stack,
    represents s v j →
    NoDup stack → (∀ l, l ∈ stack → l < length (heap s)) →
    length (heap s) < fuel + length stack →
    (∀ l0, l0 ∈ stack →
           ∃ j0, represents s (VRef l0) j0 ∧ jsize j < jsize j0) →
    serializeJSONProperty fuel stack v s = Ok (Some j) s.
Proof.
  induction j as [|b|z|str|items IH|members IH] using json_induction;
    intros v fuel stack Hv Hnd Hin Hfuel Hstack;
    (destruct fuel as [|fuel];
     [pose proof (stack_bound _ _ Hnd Hin); lia|]).
  1-4: by inversion Hv.
  - (* arrays *)
    pose proof Hv as Hv'.
    apply represents_array_inv in Hv' as (l&o&vs&->&Hl&Hc&Hp&Hall).
    simpl. unfold bind, gets. rewrite Hl, Hc.
    rewrite bool_decide_false.
    2:{ intros Hls. destruct (Hstack l Hls) as (j0&Hj0&Hsz).
        rewrite (represents_deterministic _ _ _ _ Hj0 Hv) in Hsz. lia. }
    rewrite (mapM_ok _ _ items); [done|].
    rewrite Hp, arrayLength_array.
    apply Forall2_same_length_lookup. split.
    { rewrite length_seq. by apply Forall2_length in Hall. }
    intros i x ji Hx Hji. apply lookup_seq in Hx as [-> Hi]. simpl.
    destruct (Forall2_lookup_r _ _ _ _ _ Hall Hji) as (vi&Hvi&Hrep).
    assert (HG : Get (VRef l) (Index i) s = Ok vi s).
    { unfold Get. rewrite Hl. unfold ownProp. rewrite Hp, arrayProps_fmap.
      rewrite (lookupProp_canonical _ (Index i) vi); [done| |].
      - apply canonicalKeys_array.
      - by apply (elem_of_lookup_imap_2 (λ i v, (Index i, v)) vs vi i). }
    rewrite HG.
    rewrite Forall_forall in IH.
    rewrite (IH ji); [done| |done| | | |].
    + by eapply list_elem_of_lookup_2.
    + constructor; [|done]. intros Hls.
      destruct (Hstack l Hls) as (j0&Hj0&Hsz).
      rewrite (represents_deterministic _ _ _ _ Hj0 Hv) in Hsz. lia.
    + intros l' [->|?]%elem_of_cons; [eauto using lookup_lt_Some|auto].
    + simpl. lia.
    + assert (Hlt : jsize ji < jsize (JArray items)).
      { apply jsize_item. by eapply list_elem_of_lookup_2. }
      intros l0 [->|Hl0]%elem_of_cons; [eauto|].
      destruct (Hstack l0 Hl0) as (j0&?&?). exists j0. split; [done|lia].
  - (* objects *)
    pose proof Hv as Hv'.
    apply represents_object_inv in Hv' as (l&o&kvs&->&Hl&Hc&Hp&Hcan&Hall).
    simpl. unfold bind, gets. rewrite Hl, Hc.
    rewrite bool_decide_false.
    2:{ intros Hls. destruct (Hstack l Hls) as (j0&Hj0&Hsz).
        rewrite (represents_deterministic _ _ _ _ Hj0 Hv) in Hsz. lia. }
    rewrite (mapM_ok _ _ (Some <$> members)); [by rewrite omap_id_Some|].
    rewrite Hp, <- list_fmap_compose.
    apply Forall2_fmap. apply Forall2_same_length_lookup. split.
    { by apply Forall2_length in Hall. }
    intros i [k vi] [k' ji] Hkv Hm. simpl.
    destruct (Forall2_lookup_lr _ _ _ _ _ _ Hall Hkv Hm) as [Hk Hrep].
    simpl in Hk, Hrep. subst k'.
    assert (HG : Get (VRef l) k s = Ok vi s).
    { unfold Get. rewrite Hl. unfold ownProp. rewrite Hp.
      rewrite (lookupProp_canonical _ k vi); [done|done|].
      by eapply list_elem_of_lookup_2. }
    rewrite HG.
    rewrite Forall_forall in IH.
    rewrite (IH (k, ji)); [done| |done| | | |].
    + by eapply list_elem_of_lookup_2.
    + constructor; [|done]. intros Hls.
      destruct (Hstack l Hls) as (j0&Hj0&Hsz).
      rewrite (represents_deterministic _ _ _ _ Hj0 Hv) in Hsz. lia.
    + intros l' [->|?]%elem_of_cons; [eauto using lookup_lt_Some|auto].
    + simpl. lia.
    + assert (Hlt : jsize ji < jsize (JObject members)).
      { apply (jsize_member (k, ji)). by eapply list_elem_of_lookup_2. }
      simpl snd. intros l0 [->|Hl0]%elem_of_cons; [eauto|].
      destruct (Hstack l0 Hl0) as (j0&?&?). exists j0. split; [done|lia].
Qed.

Lemma JSON_stringify_represents s v j :
  represents s v j → JSON_stringify v s = Ok (Some j) s.
Proof.
  intros Hv. unfold JSON_stringify. apply serialize_represents; try done.
  - constructor.
  - intros l Hl. by apply elem_of_nil in Hl.
  - simpl. lia.
  - intros l Hl. by apply elem_of_nil in Hl.
Qed.

End Json.

(* ================================================================== *)
(** * The structural cloner and the mutation applier                   *)
(* ================================================================== *)

Section CloneLemmas.

Lemma lookupProp_elem k ps sl : lookupProp k ps = Some sl → (k, sl) ∈ ps.
Proof.
  induction ps as [|[k' sl'] ps IH]; simpl; [done|].
  destruct (decide (k' = k)) as [->|].
  - intros [= ->]. apply list_elem_of_here.
  - intros H. apply list_elem_of_further. auto.
Qed.

(** The objects reachable from what was built on top of [s] are new. *)
Lemma reachable_fresh s s' v :
  grown s s' → freshFrom (length (heap s)) v →
  ∀ l, reachableFrom s' v l → length (heap s) ≤ l.
Proof.
  intros (_&new&Hh&Hnew) Hv l (l0&->&Hreach).
  specialize (Hv l0 eq_refl). revert Hv. unfold reachable in Hreach.
  induction Hreach as [x|x y z (o&k&Hx&Hp) _ IH]; intros Hx0; [done|].
  apply IH. rewrite Hh in Hx.
  rewrite lookup_app_r in Hx by done.
  rewrite Forall_forall in Hnew.
  destruct (Hnew o) as [_ Hch]; [by eapply list_elem_of_lookup_2|].
  by apply (Hch k).
Qed.

(** The objects reachable from a JSON-like value of [s] are objects of
    [s], also after the heap has been extended. *)
Lemma represents_reachable s s' j :
  extends s s' →
  ∀ v l, represents s v j → reachableFrom s' v l → l < length (heap s).
Proof.
  intros Hext.
  induction j as [|b|z|str|items IH|members IH] using json_induction;
    intros v l Hv (l0&->&Hreach).
  1-4: by inversion Hv.
  - apply represents_array_inv in Hv as (?&o&vs&[= <-]&Hl&Hc&Hp&Hall).
    apply rtc_inv in Hreach as [<-|(c&(o'&k&Hl'&Hk)&Hreach)];
      [eauto using lookup_lt_Some|].
    rewrite (Hext _ _ Hl) in Hl'. injection Hl' as <-.
    unfold ownProp in Hk. rewrite Hc in Hk.
    destruct (lookupProp k (props o)) as [sl|] eqn:Hlk;
      [|by case_decide].
    simplify_eq. apply lookupProp_elem in Hlk. rewrite Hp in Hlk.
    apply elem_of_lookup_imap_1 in Hlk as (i&w&Heq&Hi). simplify_eq.
    destruct (Forall2_lookup_l _ _ _ _ _ Hall Hi) as (ji&Hji&Hrep).
    rewrite Forall_forall in IH.
    apply (IH ji) with (v := VRef c); [by eapply list_elem_of_lookup_2|done|].
    by exists c.
  - apply represents_object_inv in Hv as (?&o&kvs&[= <-]&Hl&Hc&Hp&_&Hall).
    apply rtc_inv in Hreach as [<-|(c&(o'&k&Hl'&Hk)&Hreach)];
      [eauto using lookup_lt_Some|].
    rewrite (Hext _ _ Hl) in Hl'. injection Hl' as <-.
    unfold ownProp in Hk. rewrite Hc in Hk.
    destruct (lookupProp k (props o)) as [sl|] eqn:Hlk; [|done].
    simplify_eq. apply lookupProp_elem in Hlk. rewrite Hp in Hlk.
    apply list_elem_of_fmap in Hlk as ([k' w]&Heq&Hin). simpl in Heq.
    simplify_eq.
    apply list_elem_of_lookup in Hin as (i&Hi).
    destruct (Forall2_lookup_l _ _ _ _ _ Hall Hi) as ([ki ji]&Hji&_&Hrep).
    rewrite Forall_forall in IH.
    apply (IH (ki, ji)) with (v := VRef c);
      [by eapply list_elem_of_lookup_2|done|].
    by exists c.
Qed.

(** ** naiveDeepClone *)

Lemma naiveDeepClone_frame v s :
  match naiveDeepClone v s with
  | Ok v' s' => grown s s' ∧ freshFrom (length (heap s)) v'
  | Throw _ s' => s' = s
  | OutOfFuel => False
  end.
Proof.
  unfold naiveDeepClone, bind.
  pose proof (readOnly_serialize (S (length (heap s))) [] v s) as Hro.
  pose proof (JSON_stringify_terminates v s) as Hterm.
  unfold JSON_stringify in *.
  destruct (serializeJSONProperty _ _ _ _) as [[j|] s1|e s1|];
    simpl; try subst s1; try done.
  destruct (internalize_spec j s) as (v'&s'&->&?&?&_). done.
Qed.

Lemma naiveDeepClone_represents s v j :
  represents s v j →
  ∃ v' s', naiveDeepClone v s = Ok v' s' ∧ represents s' v' j ∧
           grown s s' ∧ freshFrom (length (heap s)) v'.
Proof.
  intros Hv. unfold naiveDeepClone, bind.
  rewrite (JSON_stringify_represents _ _ _ Hv). simpl.
  destruct (internalize_spec j s) as (v'&s'&->&?&?&Hrep). eauto 10.
Qed.

(** Outside the JSON-like values the round trip loses information or
    fails, as the text of the value does: a function property and an
    [undefined] property are left out and [NaN] becomes [null]; a function
    and [undefined] have no text, and parsing fails; a cycle makes
    [JSON.stringify] throw. *)
Example naiveDeepClone_not_json_like :
  (∃ s', naiveDeepClone (VRef 0) notJsonLike = Ok (VRef 3) s' ∧
         heap s' !! 3 = Some {| class := PlainObject;
                                props := [(Name "n", Data VNull)];
                                frozen := false |}) ∧
  naiveDeepClone (VRef 1) notJsonLike = Throw SyntaxError notJsonLike ∧
  naiveDeepClone VUndefined notJsonLike = Throw SyntaxError notJsonLike ∧
  naiveDeepClone (VRef 2) notJsonLike = Throw TypeError notJsonLike.
Proof.
  split; [eexists; split; vm_compute; reflexivity|].
  repeat split; vm_compute; reflexivity.
Qed.

(** The JSON round trip is a [structuredClone] as far as the contract goes. *)
Lemma structuredCloneContract_naive :
  structuredCloneContract (mkWindow (Some naiveDeepClone)).
Proof.
  split; simpl; intros hostClone v s.
  - intros [= <-] H. pose proof (naiveDeepClone_frame v s) as Hf.
    by rewrite H in Hf.
  - intros v' s' [= <-] H. pose proof (naiveDeepClone_frame v s) as Hf.
    rewrite H in Hf. destruct Hf. by apply grown_extends.
  - intros e s' [= <-] H. pose proof (naiveDeepClone_frame v s) as Hf.
    rewrite H in Hf. subst. apply extends_refl.
  - intros v' s' [= <-] H. pose proof (naiveDeepClone_frame v s) as Hf.
    rewrite H in Hf. destruct Hf. by apply reachable_fresh.
  - intros j [= <-] Hv.
    destruct (naiveDeepClone_represents _ _ _ Hv) as (v'&s'&?&?&_). eauto.
Qed.

Lemma structuredCloneContract_absent :
  structuredCloneContract (mkWindow None).
Proof. by split. Qed.

(** ** deepClone *)

Lemma deepClone_frame win v s :
  structuredCloneContract win →
  match deepClone win v s with
  | Ok v' s' =>
      extends s s' ∧ ∀ l, reachableFrom s' v' l → length (heap s) ≤ l
  | Throw _ s' => extends s s'
  | OutOfFuel => False
  end.
Proof.
  intros Hwin. unfold deepClone.
  destruct (structuredClone win) as [hostClone|] eqn:Hhost.
  - destruct (hostClone v s) as [v' s'|e s'|] eqn:Hrun.
    + split; [by eapply contract_extends|by eapply contract_fresh].
    + by eapply contract_throw_extends.
    + by eapply contract_terminates.
  - pose proof (naiveDeepClone_frame v s) as Hf.
    destruct (naiveDeepClone v s) as [v' s'|e s'|]; [|subst|done].
    + destruct Hf. split; [by apply grown_extends|by apply reachable_fresh].
    + apply extends_refl.
Qed.

Lemma deepClone_represents win s v j :
  structuredCloneContract win → represents s v j →
  ∃ v' s', deepClone win v s = Ok v' s' ∧ represents s' v' j.
Proof.
  intros Hwin Hv. unfold deepClone.
  destruct (structuredClone win) as [hostClone|] eqn:Hhost.
  - by eapply contract_json.
  - destruct (naiveDeepClone_represents _ _ _ Hv) as (v'&s'&?&?&_). eauto.
Qed.

Lemma deepCopy_intro s v j v' s' :
  represents s v j → represents s' v' j → extends s s' →
  (∀ l, reachableFrom s' v' l → length (heap s) ≤ l) →
  deepCopy s v j v' s'.
Proof.
  intros Hv Hv' Hext Hfresh. split; [done|].
  split; [by eapply represents_extends|]. split; [done|].
  intros l Hl Hl'. apply Hfresh in Hl'.
  pose proof (represents_reachable _ _ _ Hext _ _ Hv Hl). lia.
Qed.

(** ** C5 *)

(** C5: for every acyclic JSON-like value, [naiveDeepClone] and
    [deepClone] return a value that is deeply equal to it (it represents
    the same JSON text) and shares no object with it, and the value itself
    is as it was. *)
Theorem clone_deep_copy win s v j :
  structuredCloneContract win → represents s v j →
  (∃ v' s', naiveDeepClone v s = Ok v' s' ∧ deepCopy s v j v' s') ∧
  (∃ v' s', deepClone win v s = Ok v' s' ∧ deepCopy s v j v' s').
Proof.
  intros Hwin Hv. split.
  - destruct (naiveDeepClone_represents _ _ _ Hv) as (v'&s'&Hrun&Hv'&Hg&Hf).
    exists v', s'. split; [done|].
    apply deepCopy_intro; [done|done|by apply grown_extends|].
    by apply reachable_fresh.
  - destruct (deepClone_represents win _ _ _ Hwin Hv) as (v'&s'&Hrun&Hv').
    exists v', s'. split; [done|].
    pose proof (deepClone_frame win v s Hwin) as Hf. rewrite Hrun in Hf.
    destruct Hf. by apply deepCopy_intro.
Qed.

(** ** C1 and C4 *)

Lemma sampleState_represents : represents sampleState (VRef 0) sampleJson.
Proof.
  eapply (represents_object _ 0 _
            [(Name "a", VNumber (Finite 1)); (Name "b", VRef 1)]);
    [reflexivity|reflexivity|reflexivity| |].
  { simpl. repeat split; repeat constructor; done. }
  repeat constructor; simpl.
  eapply (represents_object _ 1 _ [(Name "c", VNumber (Finite 2))]);
    [reflexivity|reflexivity|reflexivity| |].
  { simpl. repeat split; repeat constructor; done. }
  repeat constructor.
Qed.

Lemma clone_deep_copy_witness :
  ∃ v' s', deepClone noStructuredClone (VRef 0) sampleState = Ok v' s' ∧
           deepCopy sampleState (VRef 0) sampleJson v' s'.
Proof.
  apply (clone_deep_copy noStructuredClone sampleState (VRef 0) sampleJson).
  - apply structuredCloneContract_absent.
  - apply sampleState_represents.
Defined.









Lemma toJSONFree_cyclicShared v : toJSONFree cyclicShared v.
Proof.
  intros l y _ _ o Hl.
  destruct y as [|[|[|y]]]; vm_compute in Hl; simplify_eq; done.
Qed.

Lemma toJSONFree_notJsonLike v : toJSONFree notJsonLike v.
Proof.
  intros l y _ _ o Hl.
  destruct y as [|[|[|y]]]; vm_compute in Hl; simplify_eq; done.
Qed.






End CloneLemmas.

(* ================================================================== *)
(** * Options and signals                                              *)
(* ================================================================== *)

Section Signals.

(** ** C3 *)

(** The three methods of an immutable signal when deep freezing is
    enabled: [set] and [update] pass the value through [deepFreeze];
    [mutate] hands the result of the mutation producer to [update] of the
    underlying signal as it is. *)
Lemma immutableSignal_methods value options wd sig wd1 :
  orElse (options ≫= λ o, enableDeepFreezing (immutableOptions o))
         (requiredEnableDeepFreezing (globalImmutableSignalOptions wd))
  = true →
  immutableSignal value options wd = Ok sig wd1 →
  set sig
  = (λ val, do frozenVal <- liftJs (deepFreeze val);
            signalSet (target sig) frozenVal) ∧
  update sig
  = (λ updateFn,
       signalUpdate (target sig)
         (λ val, do newVal <- updateFn val; deepFreeze newVal)) ∧
  mutate sig
  = (λ mutatorFn,
       signalUpdate (target sig)
         (λ val,
            orElse (options ≫= λ o, mutationProducerFn (immutableOptions o))
                   (requiredMutationProducerFn
                      (globalImmutableSignalOptions wd))
                   val mutatorFn)).
Proof.
  intros Hflag Hsig.
  unfold immutableSignal, bind, signal, newNode, gets, ret in Hsig.
  simpl in Hsig. rewrite Hflag in Hsig. by injection Hsig as <- <-.
Qed.

(** C3 fails on the code for [mutate]: on a signal created with
    [enableDeepFreezing: true], the value committed by
    [mutate(draft => { draft.count = 1 })] is a new object that is not
    frozen; [Object.freeze] has not been called at all, and a later write
    to the committed value succeeds.  On the same signal, the value
    committed by [update] is frozen.  The same holds when deep freezing is
    enabled through [setGlobalImmutableSignalOptions]. *)
Theorem mutate_commits_unfrozen_value :
  (∃ sig w1 w2 v w3 v',
     immutableSignal (VRef 0) (Some deepFreezingOn) counterWorld = Ok sig w1 ∧
     mutate sig increment w1 = Ok tt w2 ∧
     readSignal (target sig) w2 = Ok v w2 ∧
     v = VRef 1 ∧
     isFrozen v (js w2) = false ∧
     freezeCalls (js w2) = [] ∧
     (∃ s', Put v (Name "count") (VNumber (Finite 5)) (js w2) = Ok tt s') ∧
     update sig freshCounter w2 = Ok tt w3 ∧
     readSignal (target sig) w3 = Ok v' w3 ∧
     isFrozen v' (js w3) = true) ∧
  (∃ w0 sig w1 w2 v,
     setGlobalImmutableSignalOptions noStructuredClone
       (Some (immutableOptions deepFreezingOn)) counterWorld = Ok tt w0 ∧
     immutableSignal (VRef 0) None w0 = Ok sig w1 ∧
     mutate sig increment w1 = Ok tt w2 ∧
     readSignal (target sig) w2 = Ok v w2 ∧
     isFrozen v (js w2) = false).
Proof.
  split.
  - eexists _, _, _, _, _, _.
    split; [vm_compute; reflexivity|].
    split; [vm_compute; reflexivity|].
    split; [vm_compute; reflexivity|].
    split; [reflexivity|]. split; [reflexivity|]. split; [reflexivity|].
    split; [eexists; vm_compute; reflexivity|].
    split; [vm_compute; reflexivity|].
    split; [vm_compute; reflexivity|]. reflexivity.
  - eexists _, _, _, _, _.
    split; [vm_compute; reflexivity|].
    split; [vm_compute; reflexivity|].
    split; [vm_compute; reflexivity|].
    split; [vm_compute; reflexivity|]. reflexivity.
Qed.

(** ** C8 *)

(** C8: the defaults are [naiveCloneAndMutate] and [false], and the module
    variable starts with them.  [immutable] with a per-call
    [enableDeepFreezing] does what that value says, whatever the module
    variable holds: with [true] it creates the computed signal that
    freezes, with [false] it returns the signal it was given; without a
    per-call value it does what the module variable says.
    [immutableSignal] creates its signal with the per-call [equal], else
    strict equality; its [set] and [update] freeze exactly when the
    per-call [enableDeepFreezing] is [true], or is absent and the module
    variable is [true]; and its [mutate] runs the per-call
    [mutationProducerFn], and the one of the module variable only when
    there is no per-call one.  Absent options are options without
    fields. *)
Theorem options_precedence win :
  getDefaultImmutableSignalOptions win
  = {| requiredMutationProducerFn := naiveCloneAndMutate win;
       requiredEnableDeepFreezing := false |} ∧
  (∀ s, globalImmutableSignalOptions (initialWorld win s)
        = getDefaultImmutableSignalOptions win) ∧
  (∀ sig flag global wd,
     immutable sig (Some {| immutableEnableDeepFreezing := flag |})
       (withGlobal global wd)
     = if match flag with
          | Some perCall => perCall
          | None => requiredEnableDeepFreezing global
          end
       then Ok (length (signals wd))
               {| js := js wd;
                  signals := signals wd ++
                    [Computed (λ get, do value <- get sig; deepFreeze value)];
                  globalImmutableSignalOptions := global |}
       else Ok sig (withGlobal global wd)) ∧
  (∀ sig global wd,
     immutable sig None (withGlobal global wd)
     = immutable sig (Some {| immutableEnableDeepFreezing := None |})
         (withGlobal global wd)) ∧
  (∀ value eq producer flag global wd,
     ∃ sig,
       immutableSignal value
         (Some {| equal := eq;
                  immutableOptions := {| mutationProducerFn := producer;
                                         enableDeepFreezing := flag |} |})
         (withGlobal global wd)
       = Ok sig {| js := js wd;
                   signals := signals wd ++
                     [Writable value match eq with
                                     | Some perCall => perCall
                                     | None => strictEquals
                                     end];
                   globalImmutableSignalOptions := global |} ∧
       target sig = length (signals wd) ∧
       set sig
       = (if match flag with
             | Some perCall => perCall
             | None => requiredEnableDeepFreezing global
             end
          then λ val, do frozenVal <- liftJs (deepFreeze val);
                      signalSet (target sig) frozenVal
          else signalSet (target sig)) ∧
       update sig
       = (if match flag with
             | Some perCall => perCall
             | None => requiredEnableDeepFreezing global
             end
          then λ updateFn,
                 signalUpdate (target sig)
                   (λ val, do newVal <- updateFn val; deepFreeze newVal)
          else signalUpdate (target sig)) ∧
       mutate sig
       = (λ mutatorFn,
            signalUpdate (target sig)
              (λ val, match producer with
                      | Some perCall => perCall
                      | None => requiredMutationProducerFn global
                      end val mutatorFn))) ∧
  (∀ value global wd,
     immutableSignal value None (withGlobal global wd)
     = immutableSignal value
         (Some {| equal := None;
                  immutableOptions := {| mutationProducerFn := None;
                                         enableDeepFreezing := None |} |})
         (withGlobal global wd)).
Proof.
  split; [done|]. split; [done|]. split; [|split; [done|split; [|done]]].
  - intros sig flag global wd. unfold immutable, bind, gets. simpl.
    by destruct flag as [[]|], (requiredEnableDeepFreezing global).
  - intros value eq producer flag global wd.
    unfold immutableSignal, bind, signal, newNode, gets, ret. simpl.
    eexists. split; [by destruct eq|]. simpl. split; [done|].
    split; [|split].
    + by destruct flag as [[]|], (requiredEnableDeepFreezing global).
    + by destruct flag as [[]|], (requiredEnableDeepFreezing global).
    + by destruct producer.
Qed.

Lemma options_precedence_witness :
  ∃ sig w1 w2,
    immutableSignal (VRef 0) (Some deepFreezingOn) counterWorld = Ok sig w1 ∧
    requiredEnableDeepFreezing (globalImmutableSignalOptions counterWorld)
    = false ∧
    set sig (VRef 0) w1 = Ok tt w2 ∧
    isFrozen (VRef 0) (js w1) = false ∧
    isFrozen (VRef 0) (js w2) = true.
Proof.
  destruct (options_precedence noStructuredClone) as (_&_&_&_&Hsig&_).
  destruct (Hsig (VRef 0) None None (Some true)
              (getDefaultImmutableSignalOptions noStructuredClone)
              counterWorld) as (sig&Hrun&Htarget&Hset&_).
  eexists sig, _, _. split; [exact Hrun|]. split; [reflexivity|].
  rewrite Hset, Htarget. simpl.
  split; [vm_compute; reflexivity|]. split; reflexivity.
Defined.

(** ** C9 *)

(** C9: [setGlobalImmutableSignalOptions(options)] with an options object
    sets the module variable to the fields of [options], and to the
    built-in default for each field that [options] does not have; what the
    variable held before plays no part: after a call that sets a mutation
    producer, a call that gives only [enableDeepFreezing] leaves
    [naiveCloneAndMutate] as the producer.  With [null] or [undefined] the
    function changes nothing. *)
Theorem setGlobal_replaces win wd :
  (∀ producer flag,
     setGlobalImmutableSignalOptions win
       (Some {| mutationProducerFn := producer; enableDeepFreezing := flag |})
       wd
     = Ok tt (withGlobal
                {| requiredMutationProducerFn :=
                     orElse producer (naiveCloneAndMutate win);
                   requiredEnableDeepFreezing := orElse flag false |} wd)) ∧
  (∀ previous,
     setGlobalImmutableSignalOptions win
       (Some {| mutationProducerFn := None; enableDeepFreezing := None |})
       (withGlobal previous wd)
     = Ok tt (withGlobal (getDefaultImmutableSignalOptions win) wd)) ∧
  (∀ producer flag,
     (do _ <- setGlobalImmutableSignalOptions win
                (Some {| mutationProducerFn := Some producer;
                         enableDeepFreezing := None |});
      setGlobalImmutableSignalOptions win
        (Some {| mutationProducerFn := None;
                 enableDeepFreezing := Some flag |})) wd
     = Ok tt (withGlobal
                {| requiredMutationProducerFn := naiveCloneAndMutate win;
                   requiredEnableDeepFreezing := flag |} wd)) ∧
  setGlobalImmutableSignalOptions win None wd = Ok tt wd.
Proof.
  split; [|split; [|split]].
  - intros producer flag. unfold setGlobalImmutableSignalOptions, modify.
    reflexivity.
  - intros previous. unfold setGlobalImmutableSignalOptions, modify.
    reflexivity.
  - intros producer flag.
    unfold bind, setGlobalImmutableSignalOptions, modify. reflexivity.
  - reflexivity.
Qed.

(** ** C10 *)

(** C10: when deep freezing is disabled (the option of the call is [false],
    or is absent and the global option is [false]), [immutable(sig)]
    returns [sig] itself and creates no signal.  When it is enabled, it
    creates a computed signal, which is not [sig]; reading that signal
    reads [sig] and passes the value through [deepFreeze]: for a writable
    [sig] it returns the current value of [sig], in the state in which
    [deepFreeze] has left it. *)
Theorem immutable_identity sig options wd :
  sig < length (signals wd) →
  (orElse (options ≫= immutableEnableDeepFreezing)
          (requiredEnableDeepFreezing (globalImmutableSignalOptions wd))
   = false →
   immutable sig options wd = Ok sig wd) ∧
  (orElse (options ≫= immutableEnableDeepFreezing)
          (requiredEnableDeepFreezing (globalImmutableSignalOptions wd))
   = true →
   ∃ derived wd',
     immutable sig options wd = Ok derived wd' ∧
     derived ≠ sig ∧
     js wd' = js wd ∧
     signals wd' =
       signals wd ++ [Computed (λ get, do value <- get sig; deepFreeze value)] ∧
     ∀ current eq s',
       signals wd !! sig = Some (Writable current eq) →
       deepFreeze current (js wd) = Ok current s' →
       readSignal derived wd' = Ok current (withJs s' wd')).
Proof.
  intros Hsig. unfold immutable, bind, gets. split; intros ->; [done|].
  eexists _, _. split; [reflexivity|]. simpl.
  split; [lia|]. split; [done|]. split; [done|].
  intros current eq s' Hcur Hfreeze.
  unfold readSignal, liftJs. simpl.
  rewrite length_app, Nat.add_1_r. simpl.
  rewrite list_lookup_middle by done.
  unfold bind. rewrite (lookup_app_l_Some _ _ _ _ Hcur).
  unfold ret. by rewrite Hfreeze.
Qed.

Lemma immutable_identity_witness :
  ∃ sig w1,
    immutableSignal (VRef 0) None counterWorld = Ok sig w1 ∧
    immutable (target sig) None w1 = Ok (target sig) w1.
Proof.
  eexists _, _. split; [vm_compute; reflexivity|].
  apply immutable_identity; [simpl; lia|reflexivity].
Defined.

End Signals.

(* ================================================================== *)
(** * Further properties: the JSON round trip                          *)
(* ================================================================== *)

Section JsonFailures.

Lemma mapM_throws {St A B} (f : A → M St B) xs x e s :
  (∀ y, readOnly (f y)) →
  x ∈ xs → f x s = Throw e s →
  (∀ y e' s', y ∈ xs → f y s = Throw e' s' → e' = e) →
  mapM f xs s ≠ OutOfFuel →
  mapM f xs s = Throw e s.
Proof.
  intros Hro. induction xs as [|x0 xs IH]; intros Hx Hf Hall Hterm.
  { by apply elem_of_nil in Hx. }
  simpl in *. unfold bind in *.
  pose proof (Hro x0 s) as Hx0.
  destruct (f x0 s) as [y0 s1|e1 s1|] eqn:Hfx0; [subst s1| |done].
  - apply elem_of_cons in Hx as [->|Hx]; [congruence|].
    rewrite IH; [done|done|done| |].
    + intros y e' s' Hy. apply Hall. by apply list_elem_of_further.
    + by destruct (mapM f xs s).
  - subst s1. by rewrite (Hall x0 e1 s (list_elem_of_here _ _) Hfx0).
Qed.

Lemma mapM_throw_inv {St A B} (f : A → M St B) xs e s s' :
  (∀ y, readOnly (f y)) →
  mapM f xs s = Throw e s' → ∃ x, x ∈ xs ∧ f x s = Throw e s'.
Proof.
  intros Hro. induction xs as [|x0 xs IH]; [done|].
  simpl. unfold bind. pose proof (Hro x0 s) as Hx0.
  destruct (f x0 s) as [y s1|e1 s1|] eqn:Hfx0; [subst s1| |done].
  - destruct (mapM f xs s) as [ys s2|e2 s2|] eqn:Hm; [done| |done].
    intros [= -> ->]. destruct (IH eq_refl) as (x&?&?).
    exists x. split; [by apply list_elem_of_further|done].
  - intros [= -> ->]. exists x0. split; [apply list_elem_of_here|done].
Qed.

Lemma Get_throw_TypeError v k s e s' :
  Get v k s = Throw e s' → e = TypeError ∧ s' = s.
Proof.
  unfold Get. destruct v as [| | | | |l]; simpl; unfold throw, ret;
    try by intros [= <- <-].
  destruct (heap s !! l) as [o|]; [|done].
  destruct (ownProp o k) as [[w|]|]; try done. by intros [= <- <-].
Qed.

(** Every exception of [JSON.stringify] is a [TypeError], and the state is
    as it was. *)
Lemma serialize_throw_TypeError fuel :
  ∀ stack v s e s',
    serializeJSONProperty fuel stack v s = Throw e s' →
    e = TypeError ∧ s' = s.
Proof.
  induction fuel as [|fuel IH]; intros stack v s e s'; [done|].
  simpl. destruct v as [| | |[z| |neg]| |l]; try done.
  unfold bind, gets. destruct (heap s !! l) as [o|] eqn:Hl; [|done].
  assert (Hitem : ∀ (k : key) B (g : option json → B) e s',
    (do w <- Get (VRef l) k;
     do j <- serializeJSONProperty fuel (l :: stack) w;
     ret (g j)) s = Throw e s' → e = TypeError ∧ s' = s).
  { intros k B g e0 s0. unfold bind.
    destruct (Get (VRef l) k s) as [w s1|e1 s1|] eqn:HG; [| |done].
    - pose proof (readOnly_Get (VRef l) k s) as Hro. rewrite HG in Hro. subst s1.
      destruct (serializeJSONProperty fuel (l :: stack) w s)
        as [j s2|e2 s2|] eqn:Hs; [done| |done].
      intros [= <- <-]. by eapply IH.
    - intros [= <- <-]. by eapply Get_throw_TypeError. }
  assert (Hro : ∀ (B : Type) (g : option json → B) (k : key),
    readOnly (do w <- Get (VRef l) k;
              do j <- serializeJSONProperty fuel (l :: stack) w;
              ret (g j))).
  { intros B g k. apply readOnly_bind; [apply readOnly_Get|]. intros w.
    apply readOnly_bind; [apply readOnly_serialize|]. intros j.
    apply readOnly_ret. }
  destruct (class o); [| |done].
  - case_bool_decide; [by intros [= <- <-]|].
    match goal with |- context [mapM ?f ?xs s] =>
      destruct (mapM f xs s) as [ms s1|e1 s1|] eqn:Hm end; [done| |done].
    intros [= <- <-].
    apply mapM_throw_inv in Hm as (k&_&Hk);
      [|intros k0; apply (Hro _ (fmap (pair k0)) k0)].
    by apply (Hitem k _ (fmap (pair k))) in Hk.
  - case_bool_decide; [by intros [= <- <-]|].
    match goal with |- context [mapM ?f ?xs s] =>
      destruct (mapM f xs s) as [ms s1|e1 s1|] eqn:Hm end; [done| |done].
    intros [= <- <-].
    apply mapM_throw_inv in Hm as (k&_&Hk);
      [|intros i; apply (Hro _ (default JNull) (Index i))].
    by apply (Hitem (Index k)) in Hk.
Qed.

Lemma lookupProp_Index_lt i ps sl :
  lookupProp (Index i) ps = Some sl → i < arrayLength ps.
Proof.
  induction ps as [|[[i'|x] sl'] ps IH]; simpl; [done| |].
  - destruct (decide (Index i' = Index i)) as [[= ->]|]; [lia|].
    intros H. specialize (IH H). lia.
  - destruct (decide (Name x = Index i)); [done|auto].
Qed.

(** When the text of a child cannot be produced, that of the parent
    cannot either. *)
Lemma serialize_child_throws fuel stack l0 c s :
  NoDup stack → (∀ l, l ∈ stack → l < length (heap s)) →
  length (heap s) < S fuel + length stack →
  serialEdge s l0 c →
  (l0 ∉ stack →
   serializeJSONProperty fuel (l0 :: stack) (VRef c) s = Throw TypeError s) →
  serializeJSONProperty (S fuel) stack (VRef l0) s = Throw TypeError s.
Proof.
  intros Hnd Hin Hfuel (o&k&Hl&Hk&Hcls) Hchild.
  pose proof (serialize_terminates (S fuel) stack (VRef l0) s Hnd Hin Hfuel)
    as Hterm.
  simpl in Hterm |- *. unfold bind, gets in Hterm |- *. rewrite Hl in Hterm |- *.
  assert (HG : Get (VRef l0) k s = Ok (VRef c) s).
  { unfold Get. rewrite Hl. unfold ownProp. by rewrite Hk. }
  assert (Hro : ∀ (B : Type) (g : option json → B) (k : key),
    readOnly (do w <- Get (VRef l0) k;
              do j <- serializeJSONProperty fuel (l0 :: stack) w;
              ret (g j))).
  { intros B g k'. apply readOnly_bind; [apply readOnly_Get|]. intros w.
    apply readOnly_bind; [apply readOnly_serialize|]. intros j.
    apply readOnly_ret. }
  assert (Hitem : ∀ (k : key) B (g : option json → B) e s',
    (do w <- Get (VRef l0) k;
     do j <- serializeJSONProperty fuel (l0 :: stack) w;
     ret (g j)) s = Throw e s' → e = TypeError).
  { intros k' B g e0 s0. unfold bind.
    destruct (Get (VRef l0) k' s) as [w s1|e1 s1|] eqn:HG'; [| |done].
    - pose proof (readOnly_Get (VRef l0) k' s) as Hro'. rewrite HG' in Hro'.
      subst s1.
      destruct (serializeJSONProperty fuel (l0 :: stack) w s)
        as [j s2|e2 s2|] eqn:Hs; [done| |done].
      intros [= <- <-]. by eapply serialize_throw_TypeError.
    - intros [= <- <-]. by eapply Get_throw_TypeError. }
  destruct Hcls as [Hc|[Hc Hidx]]; rewrite Hc in Hterm |- *.
  - case_bool_decide as Hstack; [done|].
    rewrite (mapM_throws _ _ k TypeError); [done| | | | |].
    + intros k0. apply (Hro _ (fmap (pair k0)) k0).
    + by eapply lookupProp_Some_elem.
    + unfold bind. rewrite HG, (Hchild Hstack). done.
    + intros y e' s' _. apply (Hitem y _ (fmap (pair y))).
    + by destruct (mapM _ _ s).
  - case_bool_decide as Hstack; [done|].
    destruct k as [i|x]; [|done].
    rewrite (mapM_throws _ _ i TypeError); [done| | | | |].
    + intros i'. apply (Hro _ (default JNull) (Index i')).
    + apply elem_of_seq. apply lookupProp_Index_lt in Hk. lia.
    + unfold bind. rewrite HG, (Hchild Hstack). done.
    + intros y e' s' _. apply (Hitem (Index y)).
    + by destruct (mapM _ _ s).
Qed.

(** Meeting an object that is being serialized: a [TypeError]. *)
Lemma serialize_back_edge s l0 x :
  rtc (serialEdge s) l0 x →
  ∀ fuel stack,
    NoDup stack → (∀ l, l ∈ stack → l < length (heap s)) →
    length (heap s) < fuel + length stack →
    x ∈ stack →
    (∃ o, heap s !! x = Some o ∧ class o ≠ FunctionObject) →
    serializeJSONProperty fuel stack (VRef l0) s = Throw TypeError s.
Proof.
  induction 1 as [x|l0 c x Hedge _ IH]; intros fuel stack Hnd Hin Hfuel Hx Hcont;
    (destruct fuel as [|fuel];
     [pose proof (stack_bound _ _ Hnd Hin); lia|]).
  - destruct Hcont as (o&Hl&Hc). simpl. unfold bind, gets. rewrite Hl.
    destruct (class o); [| |done]; by rewrite bool_decide_true.
  - apply (serialize_child_throws _ _ _ c); [done|done|done|done|].
    intros Hnotin. apply IH.
    + by constructor.
    + intros l [->|?]%elem_of_cons; [|auto].
      destruct Hedge as (o&?&?&_). eauto using lookup_lt_Some.
    + simpl. lia.
    + by apply list_elem_of_further.
    + done.
Qed.

(** A cycle that [JSON.stringify] reaches: a [TypeError]. *)
Lemma serialize_cycle s l0 x :
  rtc (serialEdge s) l0 x → tc (serialEdge s) x x →
  ∀ fuel stack,
    NoDup stack → (∀ l, l ∈ stack → l < length (heap s)) →
    length (heap s) < fuel + length stack →
    serializeJSONProperty fuel stack (VRef l0) s = Throw TypeError s.
Proof.
  intros Hpath Hcycle.
  assert (Hstep : ∃ c, serialEdge s x c ∧ rtc (serialEdge s) c x).
  { inversion Hcycle as [? ? Hxx|? c ? Hxc Hcx]; subst.
    - exists x. split; [done|apply rtc_refl].
    - exists c. split; [done|by apply tc_rtc]. }
  destruct Hstep as (c&Hxc&Hcx).
  assert (Hcont : ∃ o, heap s !! x = Some o ∧ class o ≠ FunctionObject).
  { destruct Hxc as (o&k&Hl&_&[Hc|[Hc _]]); exists o; rewrite Hc; done. }
  induction Hpath as [x|l0 c' x Hedge _ IH]; intros fuel stack Hnd Hin Hfuel;
    (destruct fuel as [|fuel];
     [pose proof (stack_bound _ _ Hnd Hin); lia|]).
  - apply (serialize_child_throws _ _ _ c); [done|done|done|done|].
    intros Hnotin. apply (serialize_back_edge s c x Hcx).
    + by constructor.
    + intros l [->|?]%elem_of_cons; [|auto].
      destruct Hcont as (o&?&_). eauto using lookup_lt_Some.
    + simpl. lia.
    + apply list_elem_of_here.
    + done.
  - apply (serialize_child_throws _ _ _ c'); [done|done|done|done|].
    intros Hnotin. apply IH; try done.
    + by constructor.
    + intros l [->|?]%elem_of_cons; [|auto].
      destruct Hedge as (o&?&?&_). eauto using lookup_lt_Some.
    + simpl. lia.
Qed.

End JsonFailures.

Section JsonAnyText.

Lemma precedes_keyBefore k k' : precedes k k' = true → keyBefore k k'.
Proof.
  destruct k, k'; simpl; try done. intros H. by apply bool_decide_eq_true in H.
Qed.

Lemma precedes_keyBefore_trans k k0 k1 :
  precedes k k0 = true → keyBefore k0 k1 → keyBefore k k1.
Proof.
  destruct k, k0, k1; simpl; try done.
  intros H%bool_decide_eq_true. lia.
Qed.

Lemma not_precedes_keyBefore k k0 :
  k0 ≠ k → precedes k k0 = false → keyBefore k0 k.
Proof.
  destruct k, k0; simpl; try done.
  - intros Hne H%bool_decide_eq_false.
    assert (i ≠ i0) by congruence. lia.
  - intros Hne _ ->. done.
Qed.

(** [CreateDataProperty] keeps the keys of an object in order. *)
Lemma defineProp_canonical k v (kvs : list (key * value)) :
  canonicalKeys kvs.*1 →
  ∃ kvs' : list (key * value),
    defineProp k (Data v) ((λ kv, (kv.1, Data kv.2)) <$> kvs)
    = (λ kv, (kv.1, Data kv.2)) <$> kvs' ∧
    canonicalKeys kvs'.*1 ∧
    ∀ kv, kv ∈ kvs' → kv = (k, v) ∨ kv ∈ kvs.
Proof.
  induction kvs as [|[k0 v0] kvs IH]; intros Hc.
  { exists [(k, v)]. split; [done|]. split; [by split|].
    intros kv ->%list_elem_of_singleton. by left. }
  destruct Hc as [Hk0 Hc]. csimpl.
  destruct (decide (k0 = k)) as [->|Hne].
  { exists ((k, v) :: kvs). split; [done|]. split; [by split|].
    intros kv [->|?]%elem_of_cons; [by left|].
    right. by apply list_elem_of_further. }
  destruct (precedes k k0) eqn:Hp.
  { exists ((k, v) :: (k0, v0) :: kvs). split; [done|]. split.
    - split; [|by split]. constructor; [by apply precedes_keyBefore|].
      eapply Forall_impl; [exact Hk0|]. intros k1.
      by apply precedes_keyBefore_trans.
    - intros kv [->|?]%elem_of_cons; [by left|by right]. }
  destruct (IH Hc) as (kvs'&Heq&Hc'&Hin).
  exists ((k0, v0) :: kvs'). split; [csimpl; by rewrite Heq|]. split.
  - split; [|done]. apply Forall_forall. intros k1 Hk1.
    apply list_elem_of_fmap in Hk1 as ([k1' v1]&->&Hkv).
    destruct (Hin _ Hkv) as [[= -> ->]|Hold]; simpl.
    + by apply not_precedes_keyBefore.
    + rewrite Forall_forall in Hk0. apply Hk0.
      apply list_elem_of_fmap. by exists (k1', v1).
  - intros kv [->|Hkv]%elem_of_cons.
    + right. apply list_elem_of_here.
    + destruct (Hin _ Hkv) as [?|?]; [by left|].
      right. by apply list_elem_of_further.
Qed.

(** The properties of an object that [JSON.parse] builds: its keys are in
    order, and each holds the value of a member. *)
Lemma propsOfMembers_canonical_form kvs :
  ∃ kvs' : list (key * value),
    propsOfMembers kvs = (λ kv, (kv.1, Data kv.2)) <$> kvs' ∧
    canonicalKeys kvs'.*1 ∧ ∀ kv, kv ∈ kvs' → kv ∈ kvs.
Proof.
  unfold propsOfMembers.
  enough (H : ∀ acc : list (key * value),
    canonicalKeys acc.*1 →
    ∃ kvs' : list (key * value),
      foldl (λ ps kv, defineProp kv.1 (Data kv.2) ps)
        ((λ kv, (kv.1, Data kv.2)) <$> acc) kvs
      = (λ kv, (kv.1, Data kv.2)) <$> kvs' ∧
      canonicalKeys kvs'.*1 ∧ ∀ kv, kv ∈ kvs' → kv ∈ acc ∨ kv ∈ kvs).
  { destruct (H [] I) as (kvs'&?&?&Hin). exists kvs'.
    split; [done|]. split; [done|].
    intros kv Hkv. destruct (Hin kv Hkv) as [Hnil|?]; [|done].
    by apply elem_of_nil in Hnil. }
  induction kvs as [|[k v] kvs IH]; intros acc Hacc; simpl.
  { exists acc. split; [done|]. split; [done|]. by left. }
  destruct (defineProp_canonical k v acc Hacc) as (acc'&->&Hacc'&Hin').
  destruct (IH acc' Hacc') as (kvs'&Heq&Hc&Hin).
  exists kvs'. split; [done|]. split; [done|].
  intros kv Hkv. destruct (Hin kv Hkv) as [Ha|?].
  - destruct (Hin' kv Ha) as [->|?]; [|by left].
    right. apply list_elem_of_here.
  - right. by apply list_elem_of_further.
Qed.

Lemma Forall_exists_Forall2 {A B} (R : A → B → Prop) xs :
  Forall (λ x, ∃ y, R x y) xs → ∃ ys, Forall2 R xs ys.
Proof.
  induction 1 as [|x xs [y Hy] _ [ys Hys]]; [by exists []|].
  exists (y :: ys). by constructor.
Qed.

Lemma internalize_grown j s v s' :
  internalize j s = Ok v s' →
  grown s s' ∧ freshFrom (length (heap s)) v.
Proof.
  intros H. destruct (internalize_spec j s) as (v0&s0&H0&?&?&_).
  rewrite H in H0. by injection H0 as -> ->.
Qed.

(** [JSON.parse] builds a JSON-like value, whatever the text. *)
Lemma internalize_represents_some j :
  ∀ s v s', internalize j s = Ok v s' → ∃ j', represents s' v j'.
Proof.
  induction j as [|b|z|str|items IH|members IH] using json_induction;
    intros s v s'.
  1-4: intros [= <- <-]; eexists; constructor.
  - (* arrays *)
    assert (Helems : ∀ s vs s',
      (fix elements (items : list json) : M state (list value) :=
         match items with
         | [] => ret []
         | j :: items' =>
             do v <- internalize j;
             do vs <- elements items';
             ret (v :: vs)
         end) items s = Ok vs s' →
      grown s s' ∧ Forall (λ v, ∃ j', represents s' v j') vs).
    { clear s v s'. induction IH as [|j items Hj _ IHitems]; intros s vs s'.
      - intros [= <- <-]. split; [apply grown_refl|constructor].
      - unfold bind at 1.
        destruct (internalize j s) as [v s1|e s1|] eqn:Hv; [|done|done].
        unfold bind at 1.
        match goal with |- context [?f items s1] =>
          destruct (f items s1) as [vs1 s2|e s2|] eqn:Hvs end; [|done|done].
        intros [= <- <-].
        destruct (IHitems _ _ _ Hvs) as [G2 F2].
        destruct (internalize_grown _ _ _ _ Hv) as [G1 _].
        split; [by eapply grown_trans|]. constructor; [|done].
        destruct (Hj _ _ _ Hv) as (j'&Hj'). exists j'.
        eapply represents_extends; [by apply grown_extends|done]. }
    simpl. unfold bind at 1.
    match goal with |- context [?f items s] =>
      destruct (f items s) as [vs s2|e s2|] eqn:Hvs end; [|done|done].
    intros [= <- <-].
    destruct (Helems _ _ _ Hvs) as [_ Hall].
    apply Forall_exists_Forall2 in Hall as (items'&Hall).
    exists (JArray items'). eapply represents_array.
    + apply list_lookup_middle. done.
    + done.
    + simpl. apply propsOfMembers_array.
    + eapply Forall2_impl; [exact Hall|]. intros w j.
      apply represents_extends. intros l' o' Hl'. by apply lookup_app_l_Some.
  - (* objects *)
    assert (Hfields : ∀ s kvs s',
      (fix fields (members : list (key * json))
         : M state (list (key * value)) :=
         match members with
         | [] => ret []
         | (k, j) :: members' =>
             do v <- internalize j;
             do kvs <- fields members';
             ret ((k, v) :: kvs)
         end) members s = Ok kvs s' →
      grown s s' ∧ Forall (λ kv, ∃ j', represents s' kv.2 j') kvs).
    { clear s v s'. induction IH as [|[k j] members Hj _ IHmembers];
        intros s kvs s'.
      - intros [= <- <-]. split; [apply grown_refl|constructor].
      - unfold bind at 1. simpl in Hj.
        destruct (internalize j s) as [v s1|e s1|] eqn:Hv; [|done|done].
        unfold bind at 1.
        match goal with |- context [?f members s1] =>
          destruct (f members s1) as [kvs1 s2|e s2|] eqn:Hkvs end;
          [|done|done].
        intros [= <- <-].
        destruct (IHmembers _ _ _ Hkvs) as [G2 F2].
        destruct (internalize_grown _ _ _ _ Hv) as [G1 _].
        split; [by eapply grown_trans|]. constructor; [|done].
        destruct (Hj _ _ _ Hv) as (j'&Hj'). exists j'. simpl.
        eapply represents_extends; [by apply grown_extends|done]. }
    simpl. unfold bind at 1.
    match goal with |- context [?f members s] =>
      destruct (f members s) as [kvs s2|e s2|] eqn:Hkvs end; [|done|done].
    intros [= <- <-].
    destruct (Hfields _ _ _ Hkvs) as [_ Hall].
    destruct (propsOfMembers_canonical_form kvs) as (kvs'&Hprops&Hcan&Hin).
    assert (Hall' : Forall (λ kv : key * value,
                              ∃ m : key * json,
                                kv.1 = m.1 ∧ represents s2 kv.2 m.2) kvs').
    { apply Forall_forall. intros kv Hkv.
      rewrite Forall_forall in Hall.
      destruct (Hall kv (Hin kv Hkv)) as (j'&Hj'). by exists (kv.1, j'). }
    apply Forall_exists_Forall2 in Hall' as (members'&Hall').
    exists (JObject members'). eapply represents_object.
    + apply list_lookup_middle. done.
    + done.
    + simpl. exact Hprops.
    + done.
    + eapply Forall2_impl; [exact Hall'|]. intros kv m [? ?]. split; [done|].
      eapply represents_extends; [|done].
      intros l' o' Hl'. by apply lookup_app_l_Some.
Qed.

End JsonAnyText.

Section CloneMore.

Lemma naiveDeepClone_ok_inv v s v' s' :
  naiveDeepClone v s = Ok v' s' →
  ∃ j, JSON_stringify v s = Ok (Some j) s ∧ internalize j s = Ok v' s'.
Proof.
  unfold naiveDeepClone, bind.
  pose proof (readOnly_serialize (S (length (heap s))) [] v s) as Hro.
  unfold JSON_stringify.
  destruct (serializeJSONProperty _ _ _ _) as [[j|] s1|e s1|];
    simpl; try done.
  subst s1. eauto.
Qed.

(** What [naiveDeepClone] returns is a JSON-like value made of new objects,
    none of them frozen. *)
Lemma naiveDeepClone_builds v s v' s' :
  naiveDeepClone v s = Ok v' s' →
  (∃ j, represents s' v' j) ∧ grown s s' ∧
  ∀ l, reachableFrom s' v' l →
       length (heap s) ≤ l < length (heap s') ∧ frozenAt s' l = false.
Proof.
  intros Hrun.
  destruct (naiveDeepClone_ok_inv _ _ _ _ Hrun) as (j&_&Hparse).
  destruct (internalize_represents_some _ _ _ _ Hparse) as (j'&Hrep).
  destruct (internalize_grown _ _ _ _ Hparse) as [Hg Hfresh].
  split; [eauto|]. split; [done|]. intros l Hl.
  pose proof (reachable_fresh _ _ _ Hg Hfresh l Hl) as Hge.
  pose proof (represents_reachable s' s' j' (extends_refl _) _ _ Hrep Hl) as Hlt.
  split; [lia|].
  destruct Hg as (_&new&Hheap&Hnew).
  unfold frozenAt, isFrozen. rewrite Hheap, lookup_app_r by done.
  destruct (new !! (l - length (heap s))) as [o|] eqn:Ho.
  - rewrite Forall_forall in Hnew.
    by destruct (Hnew o (list_elem_of_lookup_2 _ _ _ Ho)).
  - apply lookup_ge_None in Ho. rewrite Hheap, length_app in Hlt. lia.
Qed.

(** The objects of a JSON-like value are plain objects and arrays whose
    properties are data properties. *)
Lemma represents_reachable_object s j :
  ∀ v l, represents s v j → reachableFrom s v l →
    ∃ o, heap s !! l = Some o ∧ class o ≠ FunctionObject ∧
         ∀ k, lookupProp k (props o) ≠ Some ThrowingAccessor.
Proof.
  induction j as [|b|z|str|items IH|members IH] using json_induction;
    intros v l Hv (l0&->&Hreach).
  1-4: by inversion Hv.
  - apply represents_array_inv in Hv as (?&o&vs&[= <-]&Hl&Hc&Hp&Hall).
    apply rtc_inv in Hreach as [<-|(c&(o'&k&Hl'&Hk)&Hreach)].
    { exists o. split; [done|]. split; [by rewrite Hc|].
      intros k Hk. apply lookupProp_elem in Hk. rewrite Hp in Hk.
      by apply elem_of_lookup_imap_1 in Hk as (i&w&?&_). }
    rewrite Hl in Hl'. injection Hl' as <-.
    unfold ownProp in Hk. rewrite Hc in Hk.
    destruct (lookupProp k (props o)) as [sl|] eqn:Hlk;
      [|by case_decide].
    simplify_eq. apply lookupProp_elem in Hlk. rewrite Hp in Hlk.
    apply elem_of_lookup_imap_1 in Hlk as (i&w&Heq&Hi). simplify_eq.
    destruct (Forall2_lookup_l _ _ _ _ _ Hall Hi) as (ji&Hji&Hrep).
    rewrite Forall_forall in IH.
    apply (IH ji) with (v := VRef c); [by eapply list_elem_of_lookup_2|done|].
    by exists c.
  - apply represents_object_inv in Hv as (?&o&kvs&[= <-]&Hl&Hc&Hp&_&Hall).
    apply rtc_inv in Hreach as [<-|(c&(o'&k&Hl'&Hk)&Hreach)].
    { exists o. split; [done|]. split; [by rewrite Hc|].
      intros k Hk. apply lookupProp_elem in Hk. rewrite Hp in Hk.
      by apply list_elem_of_fmap in Hk as ([k' w]&?&_). }
    rewrite Hl in Hl'. injection Hl' as <-.
    unfold ownProp in Hk. rewrite Hc in Hk.
    destruct (lookupProp k (props o)) as [sl|] eqn:Hlk; [|done].
    simplify_eq. apply lookupProp_elem in Hlk. rewrite Hp in Hlk.
    apply list_elem_of_fmap in Hlk as ([k' w]&Heq&Hin). simpl in Heq.
    simplify_eq.
    apply list_elem_of_lookup in Hin as (i&Hi).
    destruct (Forall2_lookup_l _ _ _ _ _ Hall Hi) as ([ki ji]&Hji&_&Hrep).
    rewrite Forall_forall in IH.
    apply (IH (ki, ji)) with (v := VRef c);
      [by eapply list_elem_of_lookup_2|done|].
    by exists c.
Qed.

(** Freezing objects leaves the text of a JSON-like value as it is. *)
Lemma represents_freezes s s' :
  freezes s s' → ∀ j v, represents s v j → represents s' v j.
Proof.
  intros Hfz. induction j as [|b|z|str|items IH|members IH]
    using json_induction; intros v Hv; inversion Hv; subst; try by constructor.
  - match goal with H : heap s !! _ = Some _ |- _ =>
      destruct (freezes_lookup _ _ _ _ Hfz H) as (o'&Hl'&Hc'&Hp'&_) end.
    eapply represents_array; [exact Hl'|congruence|rewrite Hp'; eassumption|].
    match goal with H : Forall2 _ vs items |- _ => revert H end.
    clear -IH. revert vs. induction IH as [|j items Hj _ IHitems];
      intros vs Hvs; inversion Hvs; subst; constructor; auto.
  - match goal with H : heap s !! _ = Some _ |- _ =>
      destruct (freezes_lookup _ _ _ _ Hfz H) as (o'&Hl'&Hc'&Hp'&_) end.
    eapply represents_object; [exact Hl'|congruence|rewrite Hp'; eassumption|done|].
    match goal with H : Forall2 _ kvs members |- _ => revert H end.
    clear -IH. revert kvs. induction IH as [|m members Hm _ IHmembers];
      intros kvs Hkvs; inversion Hkvs as [|kv m' kvs' ms' [Hk Hr]]; subst;
      constructor; auto.
Qed.

(** A write to an object that is not frozen and has data properties only,
    under a key other than [length], succeeds and is read back. *)
Lemma Put_Get_unfrozen l o k w s :
  heap s !! l = Some o → frozen o = false →
  (∀ k, lookupProp k (props o) ≠ Some ThrowingAccessor) →
  k ≠ lengthKey →
  ∃ s', Put (VRef l) k w s = Ok tt s' ∧ Get (VRef l) k s' = Ok w s'.
Proof.
  intros Hl Hf Hdata Hk. simpl. rewrite Hl, Hf.
  assert (Hread : ∀ cls,
    Get (VRef l) k
      (storeObject l {| class := cls;
                        props := defineProp k (Data w) (props o);
                        frozen := false |} s)
    = Ok w (storeObject l {| class := cls;
                             props := defineProp k (Data w) (props o);
                             frozen := false |} s)).
  { intros cls. unfold Get. simpl.
    rewrite list_lookup_insert_eq by eauto using lookup_lt_Some.
    unfold ownProp. simpl. rewrite lookupProp_defineProp.
    by rewrite decide_True. }
  destruct (lookupProp k (props o)) as [[w0|]|] eqn:Hlk.
  - eexists. split; [done|]. apply Hread.
  - by destruct (Hdata k).
  - rewrite decide_False by (by intros [_ ?]).
    eexists. split; [done|]. apply Hread.
Qed.

Lemma deepFreeze_freezes v s v' s' :
  deepFreeze v s = Ok v' s' → freezes s s'.
Proof.
  intros Hrun. destruct v as [| | | | |l];
    try (rewrite deepFreeze_primitive in Hrun by done;
         injection Hrun as <- <-; apply freezes_refl).
  destruct (heap s !! l) as [o|] eqn:Hl.
  - destruct (deepFreezeN_froze _ _ _ _ _ Hrun (ex_intro _ o Hl))
      as (_&_&rest&Hfz&_). apply Hfz.
  - rewrite deepFreeze_not_in_heap in Hrun by done.
    injection Hrun as <- <-. apply freezes_refl.
Qed.



(** X2: after [deepFreeze(v)] of a JSON-like value, [naiveDeepClone(v)]
    still returns a value that is deeply equal to [v]; none of the objects
    of the clone is frozen, and an assignment to any of them, under any key
    other than [length] and [__proto__], succeeds and is read back. *)
Theorem clone_of_frozen_value_is_writable s v j v1 s1 :
  represents s v j → deepFreeze v s = Ok v1 s1 →
  ∃ clone s2,
    naiveDeepClone v1 s1 = Ok clone s2 ∧ represents s2 clone j ∧
    ∀ l, reachableFrom s2 clone l →
      frozenAt s2 l = false ∧
      ∀ k w, k ≠ lengthKey → k ≠ protoKey →
        ∃ s3, Put (VRef l) k w s2 = Ok tt s3 ∧ Get (VRef l) k s3 = Ok w s3.
Proof.
  intros Hv Hfreeze.
  pose proof (deepFreeze_returns_argument _ _ _ _ Hfreeze) as ->.
  pose proof (represents_freezes _ _ (deepFreeze_freezes _ _ _ _ Hfreeze) _ _ Hv)
    as Hv1.
  destruct (naiveDeepClone_represents _ _ _ Hv1) as (clone&s2&Hrun&Hrep&_).
  exists clone, s2. split; [done|]. split; [done|]. intros l Hl.
  destruct (naiveDeepClone_builds _ _ _ _ Hrun) as (_&_&Hnew).
  destruct (Hnew l Hl) as [_ Hunfrozen]. split; [done|]. intros k w Hk _.
  destruct (represents_reachable_object _ _ _ _ Hrep Hl) as (o&Ho&_&Hdata).
  apply (Put_Get_unfrozen l o); try done.
  revert Hunfrozen. unfold frozenAt, isFrozen. by rewrite Ho.
Qed.

Lemma clone_of_frozen_value_is_writable_witness :
  ∃ s1 clone s2 s3,
    deepFreeze (VRef 0) sampleState = Ok (VRef 0) s1 ∧
    Put (VRef 0) (Name "a") (VNumber (Finite 42)) s1 = Throw TypeError s1 ∧
    naiveDeepClone (VRef 0) s1 = Ok clone s2 ∧
    Put clone (Name "a") (VNumber (Finite 42)) s2 = Ok tt s3 ∧
    Get clone (Name "a") s3 = Ok (VNumber (Finite 42)) s3.
Proof.
  assert (Hfreeze : ∃ s1, deepFreeze (VRef 0) sampleState = Ok (VRef 0) s1)
    by (eexists; vm_compute; reflexivity).
  destruct Hfreeze as [s1 Hfreeze].
  destruct (clone_of_frozen_value_is_writable _ _ _ _ _
              sampleState_represents Hfreeze) as (clone&s2&Hrun&Hrep&Hw).
  assert (Hclone : ∃ l, clone = VRef l).
  { inversion Hrep; subst. eauto. }
  destruct Hclone as [l ->].
  destruct (Hw l (ex_intro _ l (conj eq_refl (rtc_refl _ _))))
    as [_ Hput].
  destruct (Hput (Name "a") (VNumber (Finite 42)) ltac:(done) ltac:(done))
    as (s3&?&?).
  exists s1, (VRef l), s2, s3. split; [exact Hfreeze|].
  split; [|done].
  revert Hfreeze. vm_compute. by intros [= <-].
Defined.

(** X3: cloning is idempotent up to deep equality: whenever
    [naiveDeepClone(v)] returns [v1], also when information of [v] was lost
    on the way, [naiveDeepClone(v1)] returns a deep copy of [v1]: a value
    with the same JSON text that shares no object with it. *)
Theorem naiveDeepClone_twice v s v1 s1 :
  naiveDeepClone v s = Ok v1 s1 →
  ∃ j v2 s2,
    represents s1 v1 j ∧
    naiveDeepClone v1 s1 = Ok v2 s2 ∧ deepCopy s1 v1 j v2 s2.
Proof.
  intros Hrun. destruct (naiveDeepClone_builds _ _ _ _ Hrun) as ([j Hj]&_&_).
  destruct (naiveDeepClone_represents _ _ _ Hj) as (v2&s2&Hrun2&Hj2&Hg&Hf).
  exists j, v2, s2. split; [done|]. split; [done|].
  apply deepCopy_intro; [done|done|by apply grown_extends|].
  by apply reachable_fresh.
Qed.

Lemma naiveDeepClone_twice_witness :
  ∃ s1 j v2 s2,
    naiveDeepClone (VRef 0) notJsonLike = Ok (VRef 3) s1 ∧
    naiveDeepClone (VRef 3) s1 = Ok v2 s2 ∧ deepCopy s1 (VRef 3) j v2 s2.
Proof.
  assert (Hrun : ∃ s1, naiveDeepClone (VRef 0) notJsonLike = Ok (VRef 3) s1)
    by (eexists; vm_compute; reflexivity).
  destruct Hrun as [s1 Hrun].
  destruct (naiveDeepClone_twice _ _ _ _ Hrun) as (j&v2&s2&_&Hrun2&Hcopy).
  exists s1, j, v2, s2. split; [exact Hrun|]. split; [exact Hrun2|exact Hcopy].
Defined.

(** X4: when [JSON.stringify] reaches, from the object [l0] and through
    properties of plain objects and elements of arrays, an object that lies
    on a cycle of such references, and none of the objects it visits has a
    callable [toJSON], then [naiveDeepClone], [deepClone] without
    [structuredClone], and [naiveCloneAndMutate] with any mutation function
    throw a [TypeError] and leave the state as it was; the mutation
    function has no effect. *)
Theorem naiveDeepClone_cycle_throws s l0 x :
  toJSONFree s (VRef l0) →
  rtc (serialEdge s) l0 x → tc (serialEdge s) x x →
  naiveDeepClone (VRef l0) s = Throw TypeError s ∧
  deepClone noStructuredClone (VRef l0) s = Throw TypeError s ∧
  ∀ mutation,
    naiveCloneAndMutate noStructuredClone (VRef l0) mutation s
    = Throw TypeError s.
Proof.
  intros _ Hpath Hcycle.
  assert (Hclone : naiveDeepClone (VRef l0) s = Throw TypeError s).
  { unfold naiveDeepClone, bind, JSON_stringify.
    rewrite (serialize_cycle s l0 x Hpath Hcycle); [done| | |].
    - constructor.
    - intros l Hl. by apply elem_of_nil in Hl.
    - simpl. lia. }
  split; [done|]. split; [done|]. intros mutation.
  unfold naiveCloneAndMutate, bind, deepClone. simpl. by rewrite Hclone.
Qed.

Lemma naiveDeepClone_cycle_throws_witness :
  naiveDeepClone (VRef 2) cyclicShared = Throw TypeError cyclicShared.
Proof.
  refine (proj1 (naiveDeepClone_cycle_throws cyclicShared 2 0
                   (toJSONFree_cyclicShared _) _ _)).
  - eapply rtc_l; [exists (mkObject ArrayObject [(Index 0, Data (VRef 1))] false),
                     (Index 0); split; [reflexivity|];
                   split; [reflexivity|right; split; reflexivity]|].
    eapply rtc_l; [|apply rtc_refl].
    eexists _, (Name "back"). split; [reflexivity|].
    split; [reflexivity|left; reflexivity].
  - apply tc_once. eexists _, (Name "self"). split; [reflexivity|].
    split; [reflexivity|left; reflexivity].
Defined.

(** X5: for a value none of whose visited objects has a callable
    [toJSON]: [naiveDeepClone(undefined)] and [naiveDeepClone] of a
    function throw a [SyntaxError] ([JSON.stringify] returns [undefined],
    which [JSON.parse] rejects); these are the only [SyntaxError]s; every
    other exception is a [TypeError] on an object; and every exception
    leaves the state as it was.  A finite number is returned as it is, and
    [NaN] and the infinities come back as [null], without a change of
    state. *)
Theorem naiveDeepClone_failures v s :
  toJSONFree s v →
  (v = VUndefined ∨ typeOf v s = TFunction →
   naiveDeepClone v s = Throw SyntaxError s) ∧
  (∀ e s', naiveDeepClone v s = Throw e s' →
     s' = s ∧
     (e = SyntaxError ∧ (v = VUndefined ∨ typeOf v s = TFunction)
      ∨ e = TypeError ∧ ∃ l, v = VRef l ∧ typeOf v s = TObject)) ∧
  (typeOf v s = TNumber →
   naiveDeepClone v s
   = Ok (match v with VNumber (Finite z) => v | _ => VNull end) s).
Proof.
  intros _. split; [|split].
  3:{ destruct v as [| | |[z| |neg]| |l]; try done.
      simpl. destruct (heap s !! l) as [o|]; [by case_decide|done]. }
  - intros [->|Hfn]; [done|].
    destruct v as [| | | | |l]; try done.
    unfold naiveDeepClone, bind, JSON_stringify. simpl.
    unfold bind, gets. simpl in Hfn.
    destruct (heap s !! l) as [o|]; [|done].
    destruct (decide (class o = FunctionObject)) as [->|]; done.
  - intros e s'. unfold naiveDeepClone, bind.
    pose proof (readOnly_serialize (S (length (heap s))) [] v s) as Hro.
    unfold JSON_stringify.
    destruct (serializeJSONProperty _ _ _ _) as [[j|] s1|e1 s1|] eqn:Hser;
      simpl; [| | |done].
    + subst s1. destruct (internalize_spec j s) as (v'&s2&->&_). done.
    + subst s1. intros [= <- <-]. split; [done|]. left. split; [done|].
      simpl in Hser. destruct v as [| | |[z| |neg]| |l]; try done; [by left|].
      right. simpl. unfold bind, gets in Hser. revert Hser.
      destruct (heap s !! l) as [o|]; [|done].
      destruct (class o) eqn:Hc; simpl; [| |done].
      * by destruct (mapM _ _ s).
      * by destruct (mapM _ _ s).
    + intros [= <- <-]. split; [done|]. right.
      destruct (serialize_throw_TypeError _ _ _ _ _ _ Hser) as [-> _].
      split; [done|].
      simpl in Hser. destruct v as [| | |[z| |neg]| |l]; try done.
      exists l. split; [done|]. simpl. unfold bind, gets in Hser. revert Hser.
      destruct (heap s !! l) as [o|]; [|done].
      destruct (class o) eqn:Hc; simpl; done.
Qed.

Lemma naiveDeepClone_failures_witness :
  naiveDeepClone (VRef 1) notJsonLike = Throw SyntaxError notJsonLike.
Proof.
  apply (proj1 (naiveDeepClone_failures (VRef 1) notJsonLike
                  (toJSONFree_notJsonLike _))).
  right. reflexivity.
Defined.

End CloneMore.

(* ================================================================== *)
(** * Further properties: deepFreeze                                   *)
(* ================================================================== *)

Section DeepFreezeMore.

Lemma freezes_readable s s' x : freezes s s' → readable s x → readable s' x.
Proof.
  intros H Hx o' k Hl' Hp.
  destruct (freezes_lookup_r _ _ _ _ H Hl') as (o&Hl&Hsb).
  rewrite (sameButFrozen_ownProp _ _ _ Hsb) in Hp.
  destruct (Hx o k Hl Hp) as [Hc Hr]. destruct Hsb as (->&_). done.
Qed.

(** No exception when the entered objects are readable. *)
Lemma deepFreezeN_returns n :
  ∀ l s e s', (∀ x, entered s l x → readable s x) →
              deepFreezeN n (VRef l) s ≠ Throw e s'.
Proof.
  induction n as [|n IH]; intros l s e s' Hs; [done|].
  rewrite deepFreezeN_ref. destruct (heap s !! l) as [o|] eqn:Hl; [|done].
  assert (Hloop : ∀ names t isFn,
    (∀ ot, heap t !! l = Some ot →
           isFn = bool_decide (class ot = FunctionObject)) →
    readable t l →
    (∀ x, freshPath t l x → frozenAt t x = false → readable t x) →
    forEach names (visitProp (deepFreezeN n) (VRef l) isFn) t ≠ Throw e s').
  { induction names as [|k names IHn]; intros t isFn HisFn Hroot Ht; [done|].
    simpl. unfold bind. rewrite visitProp_ref.
    pose proof (IHn t isFn HisFn Hroot Ht) as Hnext.
    destruct (heap t !! l) as [ot|] eqn:Hlt; [|done].
    destruct (ownProp ot k) as [sl|] eqn:Hp; [|done].
    destruct (isFn && reservedKey k) eqn:Hr; [done|].
    destruct sl as [w|].
    - destruct w as [| | | | |c]; try done.
      destruct (frozenAt t c) eqn:Hfc; [done|].
      assert (Hedge : traversedChild t l c).
      { exists ot, k. split; [done|]. split; [done|]. intros Hfn.
        rewrite (HisFn ot eq_refl), bool_decide_true in Hr by done. done. }
      destruct (deepFreezeN n (VRef c) t) as [v t1|e1 t1|] eqn:Hcall.
      + destruct (deepFreezeN_froze _ _ _ _ _ Hcall (frozenAt_in_heap _ _ Hfc))
          as (_&_&rest&Hfz&_).
        pose proof (froze_freezes _ _ _ Hfz) as F.
        apply IHn.
        * intros ot1 Hlt1.
          destruct (freezes_lookup _ _ _ _ F Hlt) as (ot1'&?&Hsb). simplify_eq.
          rewrite (HisFn ot eq_refl). destruct Hsb as (->&_). done.
        * by eapply freezes_readable.
        * intros x Hx Hfx. eapply freezes_readable; [exact F|].
          apply Ht; [by eapply freezes_freshPath|by eapply freezes_unfrozen].
      + exfalso. apply (IH c t e1 t1); [|done].
        intros x [->|[Hpath Hfx]].
        * apply Ht; [by apply freshPath_last|done].
        * apply Ht; [|done]. eapply freshPath_step; eauto.
      + done.
    - destruct (Hroot ot k Hlt Hp) as [Hfn Hk].
      rewrite (HisFn ot eq_refl), Hk in Hr.
      rewrite bool_decide_true in Hr by done. done. }
  pose proof (markFrozen_freezes l s) as F0.
  assert (Hne : forEach (ownKeys o)
                  (visitProp (deepFreezeN n) (VRef l)
                     (bool_decide (class o = FunctionObject)))
                  (markFrozen l s) ≠ Throw e s').
  { apply Hloop.
    - intros ot. rewrite (markFrozen_lookup _ _ _ Hl). by intros [= <-].
    - eapply freezes_readable; [exact F0|]. apply Hs. by left.
    - intros x Hx Hfx. eapply freezes_readable; [exact F0|]. apply Hs. right.
      split; [by eapply freezes_freshPath|by eapply freezes_unfrozen]. }
  destruct (forEach _ _ _) as [[] t|e1 t|]; [done| |done].
  intros [= -> ->]. by apply Hne.
Qed.

(** When [deepFreeze] throws, it throws a [TypeError], and it has frozen
    objects and done nothing else. *)
Lemma deepFreezeN_throw n :
  ∀ l s e s', deepFreezeN n (VRef l) s = Throw e s' →
              e = TypeError ∧ freezes (markFrozen l s) s'.
Proof.
  induction n as [|n IH]; intros l s e s'; [done|].
  rewrite deepFreezeN_ref. destruct (heap s !! l) as [o|] eqn:Hl; [|done].
  assert (Hloop : ∀ names t isFn,
    forEach names (visitProp (deepFreezeN n) (VRef l) isFn) t = Throw e s' →
    e = TypeError ∧ freezes t s').
  { induction names as [|k names IHn]; intros t isFn; [done|].
    simpl. unfold bind. rewrite visitProp_ref.
    pose proof (IHn t isFn) as Hnext.
    destruct (heap t !! l) as [ot|] eqn:Hlt; [|done].
    destruct (ownProp ot k) as [sl|] eqn:Hp; [|done].
    destruct (isFn && reservedKey k) eqn:Hr; [done|].
    destruct sl as [w|]; [|by intros [= <- <-]; split; [|apply freezes_refl]].
    destruct w as [| | | | |c]; try done.
    destruct (frozenAt t c) eqn:Hfc; [done|].
    destruct (deepFreezeN n (VRef c) t) as [v t1|e1 t1|] eqn:Hcall; [| |done].
    - destruct (deepFreezeN_froze _ _ _ _ _ Hcall (frozenAt_in_heap _ _ Hfc))
        as (_&_&rest&Hfz&_).
      intros Hrest. destruct (IHn _ _ Hrest) as [-> F].
      split; [done|]. eapply freezes_trans; [apply Hfz|done].
    - intros [= <- <-]. destruct (IH c _ _ _ Hcall) as [-> F].
      split; [done|]. eapply freezes_trans; [apply markFrozen_freezes|done]. }
  destruct (forEach _ _ _) as [[] t|e1 t|] eqn:Hrun; [done| |done].
  intros [= <- <-]. by apply (Hloop _ _ _ Hrun).
Qed.

(** An object whose property values are primitives or frozen objects:
    [deepFreeze] is [Object.freeze]. *)
Lemma deepFreezeN_flat n l o s :
  heap s !! l = Some o → readable s l →
  (∀ k c, ownProp o k = Some (Data (VRef c)) →
          (class o = FunctionObject → reservedKey k = false) →
          c = l ∨ frozenAt s c = true) →
  deepFreezeN (S n) (VRef l) s = Ok (VRef l) (markFrozen l s).
Proof.
  intros Hl Hread Hflat. rewrite deepFreezeN_ref, Hl.
  rewrite forEach_skip; [done|]. intros k _. rewrite visitProp_ref.
  rewrite (markFrozen_lookup _ _ _ Hl).
  change (ownProp (setFrozen o) k) with (ownProp o k).
  destruct (ownProp o k) as [sl|] eqn:Hp; [|done].
  destruct (bool_decide (class o = FunctionObject) && reservedKey k) eqn:Hr;
    [done|].
  assert (Hres : class o = FunctionObject → reservedKey k = false).
  { intros Hfn. apply andb_false_iff in Hr as [Hr|Hr]; [|done].
    by apply bool_decide_eq_false in Hr. }
  destruct sl as [w|].
  - destruct w as [| | | | |c]; try done.
    destruct (Hflat k c Hp Hres) as [->|Hc].
    + by rewrite markFrozen_frozenAt.
    + by rewrite (freezes_frozenAt _ _ _ (markFrozen_freezes l s) Hc).
  - destruct (Hread o k Hl Hp) as [Hfn Hk]. rewrite (Hres Hfn) in Hk. done.
Qed.

(** In a JSON-like value, every path is a path that [deepFreeze] takes. *)
Lemma represents_traversedPath s v j l0 x :
  represents s v j → v = VRef l0 → reachable s l0 x → traversedPath s l0 x.
Proof.
  intros Hv -> Hreach. unfold traversedPath. revert x Hreach.
  apply (rtc_ind_r (λ x, rtc (traversedChild s) l0 x)); [apply rtc_refl|].
  intros x c Hx (o&k&Hl&Hp) IH. eapply rtc_r; [exact IH|].
  destruct (represents_reachable_object s j (VRef l0) x Hv
              (ex_intro _ l0 (conj eq_refl Hx))) as (o'&Hl'&Hc&_).
  simplify_eq. exists o, k. by repeat split.
Qed.

Lemma unfrozen_freshPath s l0 x :
  traversedPath s l0 x →
  (∀ y, traversedPath s l0 y → frozenAt s y = false) →
  freshPath s l0 x.
Proof.
  intros Hpath Hall. unfold traversedPath in *. revert x Hpath.
  apply (rtc_ind_r (λ x, freshPath s l0 x)); [constructor|].
  intros x c Hx Hc IH. eapply freshPath_snoc; [exact IH| |exact Hc].
  right. by apply Hall.
Qed.

Lemma freshPath_traversedPath s l x : freshPath s l x → traversedPath s l x.
Proof.
  induction 1 as [l|l c Hc|l m c Hm _ _ IH].
  - apply rtc_refl.
  - by apply rtc_once.
  - by eapply rtc_l.
Qed.

Lemma traversedPath_reachable s l x : traversedPath s l x → reachable s l x.
Proof.
  induction 1 as [l|l m c (o&k&?&?&_) _ IH]; [apply rtc_refl|].
  eapply rtc_l; [|exact IH]. by exists o, k.
Qed.

(** X6: [deepFreeze] of a primitive (a falsy one, or a truthy one such as
    a string, whose characters it enumerates) returns it and changes
    nothing.  On an object whose property values that it looks at are
    primitives, the object itself, or objects that are frozen already,
    [deepFreeze] is [Object.freeze]: the object is marked, one call is
    recorded, and nothing else changes. *)
Theorem deepFreeze_shallow obj s :
  ((∀ l, obj ≠ VRef l) → deepFreeze obj s = Ok obj s) ∧
  (∀ l o, obj = VRef l → heap s !! l = Some o → readable s l →
     (∀ k c, ownProp o k = Some (Data (VRef c)) →
             (class o = FunctionObject → reservedKey k = false) →
             c = l ∨ frozenAt s c = true) →
     deepFreeze obj s = Ok obj (markFrozen l s) ∧
     heap (markFrozen l s) = <[l := setFrozen o]> (heap s) ∧
     freezeCalls (markFrozen l s) = freezeCalls s ++ [l]).
Proof.
  split; [apply deepFreeze_primitive|].
  intros l o -> Hl Hread Hflat. split; [|split].
  - unfold deepFreeze. by apply (deepFreezeN_flat _ l o).
  - unfold markFrozen. by rewrite Hl.
  - by apply (markFrozen_calls _ o).
Qed.

Lemma deepFreeze_shallow_witness :
  deepFreeze (VString "ab") sampleState = Ok (VString "ab") sampleState ∧
  deepFreeze (VRef 1) sampleState = Ok (VRef 1) (markFrozen 1 sampleState).
Proof.
  split.
  - apply (proj1 (deepFreeze_shallow (VString "ab") sampleState)). done.
  - refine (proj1 (proj2 (deepFreeze_shallow (VRef 1) sampleState)
                     1 _ eq_refl eq_refl _ _)).
    + intros o k Hl Hp. vm_compute in Hl. injection Hl as <-.
      unfold ownProp in Hp. simpl in Hp. repeat case_decide; simplify_eq.
    + intros k c Hp _. unfold ownProp in Hp. simpl in Hp.
      repeat case_decide; simplify_eq.
Defined.

(** X7: [deepFreeze(l)] returns normally, with [l] as its result, when
    the objects that it enters (the argument, and the objects that are not
    frozen and are reached from it through objects that are not frozen)
    have no throwing accessor other than [caller], [callee], [arguments]
    of a function.  Accessors elsewhere in the heap, also behind a frozen
    object, do not matter. *)
Theorem deepFreeze_returns_normally l s :
  (∀ x, entered s l x → readable s x) →
  ∃ s', deepFreeze (VRef l) s = Ok (VRef l) s'.
Proof.
  intros Hs. destruct (deepFreeze (VRef l) s) as [v s'|e s'|] eqn:Hrun.
  - rewrite (deepFreeze_returns_argument _ _ _ _ Hrun). eauto.
  - exfalso. revert Hrun. by apply deepFreezeN_returns.
  - exfalso. revert Hrun. apply deepFreeze_terminates.
Qed.

Lemma deepFreeze_returns_normally_witness :
  ∃ s', deepFreeze (VRef 0) guardedAccessor = Ok (VRef 0) s'.
Proof.
  apply deepFreeze_returns_normally.
  assert (H0 : readable guardedAccessor 0).
  { intros o k Hl Hp. vm_compute in Hl. injection Hl as <-.
    unfold ownProp in Hp. simpl in Hp. repeat case_decide; simplify_eq. }
  intros x [->|[Hpath Hfx]]; [exact H0|].
  apply freshPath_traversedPath in Hpath.
  apply rtc_inv in Hpath as [<-|(c&(o1&k1&Hl1&Hp1&_)&Hpath)]; [exact H0|].
  vm_compute in Hl1. injection Hl1 as <-.
  unfold ownProp in Hp1. simpl in Hp1. repeat case_decide; simplify_eq.
  apply rtc_inv in Hpath as [<-|(c&(o1&k1&Hl1&Hp1&_)&Hpath)]; [done|].
  vm_compute in Hl1. injection Hl1 as <-.
  unfold ownProp in Hp1. simpl in Hp1. repeat case_decide; simplify_eq.
Defined.

(** X8: [deepFreeze] is not atomic.  When it throws, the exception is a
    [TypeError] raised by a property read on an entered object; the
    argument is an object of the heap and is frozen already, objects may
    have been frozen, and nothing else has changed: no object has been
    added or removed or has other properties. *)
Theorem deepFreeze_throw_is_partial v s e s' :
  deepFreeze v s = Throw e s' →
  e = TypeError ∧ freezes s s' ∧
  ∃ l, v = VRef l ∧ is_Some (heap s !! l) ∧ frozenAt s' l = true ∧
       ¬ ∀ x, entered s l x → readable s x.
Proof.
  intros Hrun. destruct v as [| | | | |l];
    try (rewrite deepFreeze_primitive in Hrun by done; done).
  destruct (heap s !! l) as [o|] eqn:Hl;
    [|by rewrite deepFreeze_not_in_heap in Hrun].
  destruct (deepFreezeN_throw _ _ _ _ _ Hrun) as [-> F].
  split; [done|].
  split; [eapply freezes_trans; [apply markFrozen_freezes|done]|].
  exists l. split; [done|]. split; [by rewrite Hl|]. split.
  - eapply freezes_frozenAt; [exact F|apply markFrozen_frozenAt].
  - intros Hs. revert Hrun. by apply deepFreezeN_returns.
Qed.

Lemma deepFreeze_throw_is_partial_witness :
  ∃ s', deepFreeze (VRef 0) throwingMiddle = Throw TypeError s' ∧
        freezes throwingMiddle s' ∧
        frozen <$> heap s' = [true; true; false].
Proof.
  assert (Hrun : ∃ s', deepFreeze (VRef 0) throwingMiddle = Throw TypeError s')
    by (eexists; vm_compute; reflexivity).
  destruct Hrun as [s' Hrun].
  destruct (deepFreeze_throw_is_partial _ _ _ _ Hrun) as (_&F&_).
  exists s'. split; [exact Hrun|]. split; [exact F|].
  revert Hrun. vm_compute. by intros [= <-].
Defined.

(** X9: on a JSON-like value, [deepFreeze] returns normally and leaves
    the JSON text of the value as it is; when no object of the value was
    frozen before, every object of the value is frozen afterwards and an
    assignment to any of its properties other than [__proto__] throws a
    [TypeError] and changes nothing. *)
Theorem deepFreeze_json_like s v j :
  represents s v j →
  ∃ s', deepFreeze v s = Ok v s' ∧ represents s' v j ∧
        ((∀ l, reachableFrom s v l → frozenAt s l = false) →
         ∀ l, reachableFrom s v l →
              frozenAt s' l = true ∧
              ∀ k w, k ≠ protoKey →
                     Put (VRef l) k w s' = Throw TypeError s').
Proof.
  intros Hv.
  assert (Hrun : ∃ s', deepFreeze v s = Ok v s').
  { destruct (deepFreeze v s) as [v' s'|e s'|] eqn:Hrun.
    - rewrite (deepFreeze_returns_argument _ _ _ _ Hrun). eauto.
    - exfalso. destruct v as [| | | | |l0];
        try (rewrite deepFreeze_primitive in Hrun by done; done).
      revert Hrun. apply deepFreezeN_returns. intros x Hx o k Hl Hp.
      assert (Hreach : reachableFrom s (VRef l0) x).
      { exists l0. split; [done|]. destruct Hx as [->|[Hpath _]];
          [apply rtc_refl|].
        by apply traversedPath_reachable, freshPath_traversedPath. }
      destruct (represents_reachable_object _ _ _ _ Hv Hreach)
        as (o'&Hl'&_&Hdata).
      simplify_eq. exfalso. apply (Hdata k). unfold ownProp in Hp.
      destruct (lookupProp k (props o)) as [sl|]; [done|].
      destruct (class o); try done. by case_decide.
    - exfalso. revert Hrun. apply deepFreeze_terminates. }
  destruct Hrun as [s' Hrun]. exists s'. split; [done|]. split.
  { eapply represents_freezes; [by eapply deepFreeze_freezes|done]. }
  intros Hfresh l (l0&->&Hreach).
  assert (Hin : is_Some (heap s !! l0)).
  { destruct (represents_reachable_object _ _ _ _ Hv
                (ex_intro _ l0 (conj eq_refl (rtc_refl _ _)))) as (o&?&_).
    eauto. }
  assert (Hfrozen : frozenAt s' l = true).
  { apply (deepFreezeN_frozen_iff _ _ _ _ _ Hrun Hin). right.
    apply unfrozen_freshPath.
    - by eapply represents_traversedPath.
    - intros y Hy. apply Hfresh. exists l0. split; [done|].
      by apply traversedPath_reachable. }
  split; [done|]. intros k w _. by apply Put_frozen.
Qed.

Lemma deepFreeze_json_like_witness :
  ∃ s', deepFreeze (VRef 0) sampleState = Ok (VRef 0) s' ∧
        represents s' (VRef 0) sampleJson ∧
        frozenAt s' 1 = true.
Proof.
  destruct (deepFreeze_json_like sampleState (VRef 0) sampleJson
              sampleState_represents) as (s'&Hrun&Hrep&Hall).
  exists s'. split; [exact Hrun|]. split; [exact Hrep|].
  apply Hall.
  - intros l (l0&[= <-]&Hreach).
    apply rtc_inv in Hreach as [<-|(c&(o&k&Hl&Hp)&Hreach)]; [done|].
    vm_compute in Hl. injection Hl as <-.
    unfold ownProp in Hp. simpl in Hp. repeat case_decide; simplify_eq.
    apply rtc_inv in Hreach as [<-|(c&(o&k&Hl&Hp)&Hreach)]; [done|].
    vm_compute in Hl. injection Hl as <-.
    unfold ownProp in Hp. simpl in Hp. repeat case_decide; simplify_eq.
  - exists 0. split; [done|]. apply rtc_once.
    eexists _, (Name "b"). split; reflexivity.
Defined.

End DeepFreezeMore.

(* ================================================================== *)
(** * Further properties: immutable signals                            *)
(* ================================================================== *)

Section SignalsMore.

Lemma immutableSignal_inv value options wd sig wd1 :
  immutableSignal value options wd = Ok sig wd1 →
  wd1 = {| js := js wd;
           signals := signals wd ++
             [Writable value (orElse (options ≫= equal) strictEquals)];
           globalImmutableSignalOptions := globalImmutableSignalOptions wd |} ∧
  target sig = length (signals wd) ∧
  set sig
  = (if negb (deepFreezeEnabled options wd) then signalSet (target sig)
     else λ val, do frozenVal <- liftJs (deepFreeze val);
                 signalSet (target sig) frozenVal) ∧
  update sig
  = (if negb (deepFreezeEnabled options wd) then signalUpdate (target sig)
     else λ updateFn,
            signalUpdate (target sig)
              (λ val, do newVal <- updateFn val; deepFreeze newVal)) ∧
  mutate sig
  = (λ mutatorFn,
       signalUpdate (target sig) (λ val, mutateFn options wd val mutatorFn)).
Proof.
  unfold immutableSignal, bind, signal, newNode, gets, ret. simpl.
  by intros [= <- <-].
Qed.

Lemma readSignal_writable sig cur eq w :
  signals w !! sig = Some (Writable cur eq) →
  readSignal sig w = Ok cur w.
Proof.
  intros H. unfold readSignal, liftJs. simpl. rewrite H. simpl.
  by destruct w.
Qed.

Lemma signalSet_committed sig cur eq v w :
  signals w !! sig = Some (Writable cur eq) →
  signalSet sig v w = Ok tt (committed sig cur eq v (js w) w).
Proof.
  intros H. unfold signalSet, committed. rewrite H.
  destruct (eq cur v); [|done]. by destruct w.
Qed.

Lemma readSignal_committed sig cur eq v s w :
  signals w !! sig = Some (Writable cur eq) →
  readSignal sig (committed sig cur eq v s w)
  = Ok (if eq cur v then cur else v) (committed sig cur eq v s w).
Proof.
  intros H. unfold committed. destruct (eq cur v).
  - by apply (readSignal_writable _ _ eq).
  - apply (readSignal_writable _ _ eq). simpl.
    apply list_lookup_insert_eq. eauto using lookup_lt_Some.
Qed.

(** What [deepFreeze] has returned is frozen. *)
Lemma deepFreeze_result_frozen v s v' s' :
  deepFreeze v s = Ok v' s' → isFrozen v s' = true.
Proof.
  intros Hrun. destruct v as [| | | | |l]; try done.
  destruct (heap s !! l) as [o|] eqn:Hl.
  - apply (deepFreezeN_frozen_iff _ _ _ _ _ Hrun (ex_intro _ o Hl) l).
    right. constructor.
  - rewrite deepFreeze_not_in_heap in Hrun by done. injection Hrun as <- <-.
    simpl. by rewrite Hl.
Qed.

Lemma signalUpdate_run sig cur eq updateFn w :
  signals w !! sig = Some (Writable cur eq) →
  signalUpdate sig updateFn w =
  match updateFn cur (js w) with
  | Ok v s' => Ok tt (committed sig cur eq v s' w)
  | Throw e s' => Throw e (withJs s' w)
  | OutOfFuel => OutOfFuel
  end.
Proof.
  intros H. unfold signalUpdate. rewrite H. unfold bind, liftJs.
  destruct (updateFn cur (js w)) as [v s'|e s'|]; [|done|done].
  unfold signalSet, committed. simpl. rewrite H. by destruct (eq cur v).
Qed.

(** X10: [set] of an immutable signal with deep freezing enabled, in any
    state in which the signal holds [cur]: when [deepFreeze(val)] returns,
    [set(val)] returns in the state that [deepFreeze] left, so [val] is
    frozen, also when the equality function holds of [cur] and [val] and
    the signal keeps [cur]; otherwise the signal holds [val].  When
    [deepFreeze(val)] throws, [set] throws the same exception and the
    signal keeps [cur]. *)
Theorem set_freezes_before_commit value options wd sig wd1 w cur eq val :
  immutableSignal value options wd = Ok sig wd1 →
  deepFreezeEnabled options wd = true →
  signals w !! target sig = Some (Writable cur eq) →
  (∀ v s', deepFreeze val (js w) = Ok v s' →
     ∃ w', set sig val w = Ok tt w' ∧ js w' = s' ∧
           isFrozen val (js w') = true ∧
           readSignal (target sig) w'
           = Ok (if eq cur val then cur else val) w') ∧
  (∀ e s', deepFreeze val (js w) = Throw e s' →
     set sig val w = Throw e (withJs s' w) ∧
     readSignal (target sig) (withJs s' w) = Ok cur (withJs s' w)).
Proof.
  intros Hsig Hflag Hcur.
  destruct (immutableSignal_inv _ _ _ _ _ Hsig) as (_&_&Hset&_).
  rewrite Hflag in Hset. simpl in Hset. rewrite Hset. split.
  - intros v s' Hrun.
    pose proof (deepFreeze_returns_argument _ _ _ _ Hrun) as ->.
    exists (committed (target sig) cur eq val s' w).
    unfold bind, liftJs. rewrite Hrun.
    rewrite (signalSet_committed _ cur eq) by done. simpl.
    split; [done|]. split; [unfold committed; by destruct (eq cur val)|].
    split.
    + replace (js (committed (target sig) cur eq val s' w)) with s'
        by (unfold committed; by destruct (eq cur val)).
      by eapply deepFreeze_result_frozen.
    + by apply readSignal_committed.
  - intros e s' Hrun. unfold bind, liftJs. rewrite Hrun.
    split; [done|]. by apply (readSignal_writable _ _ eq).
Qed.

(** X11: [update] of an immutable signal with deep freezing enabled: the
    value that the update function returns for the current value is passed
    through [deepFreeze] and is frozen when it is committed (or dropped,
    when the equality function holds); when the update function or
    [deepFreeze] throws, [update] throws the same exception and the signal
    keeps its value. *)
Theorem update_freezes_before_commit value options wd sig wd1 w cur eq
    updateFn :
  immutableSignal value options wd = Ok sig wd1 →
  deepFreezeEnabled options wd = true →
  signals w !! target sig = Some (Writable cur eq) →
  (∀ v s1 v' s2,
     updateFn cur (js w) = Ok v s1 → deepFreeze v s1 = Ok v' s2 →
     ∃ w', update sig updateFn w = Ok tt w' ∧ js w' = s2 ∧
           isFrozen v (js w') = true ∧
           readSignal (target sig) w' = Ok (if eq cur v then cur else v) w') ∧
  (∀ e s1,
     updateFn cur (js w) = Throw e s1 →
     update sig updateFn w = Throw e (withJs s1 w) ∧
     readSignal (target sig) (withJs s1 w) = Ok cur (withJs s1 w)) ∧
  (∀ v s1 e s2,
     updateFn cur (js w) = Ok v s1 → deepFreeze v s1 = Throw e s2 →
     update sig updateFn w = Throw e (withJs s2 w) ∧
     readSignal (target sig) (withJs s2 w) = Ok cur (withJs s2 w)).
Proof.
  intros Hsig Hflag Hcur.
  destruct (immutableSignal_inv _ _ _ _ _ Hsig) as (_&_&_&Hupd&_).
  rewrite Hflag in Hupd. simpl in Hupd. rewrite Hupd.
  rewrite (signalUpdate_run _ cur eq) by done. unfold bind.
  split; [|split].
  - intros v s1 v' s2 Hfn Hrun. rewrite Hfn, Hrun.
    pose proof (deepFreeze_returns_argument _ _ _ _ Hrun) as ->.
    exists (committed (target sig) cur eq v s2 w).
    split; [done|]. split; [unfold committed; by destruct (eq cur v)|].
    split.
    + replace (js (committed (target sig) cur eq v s2 w)) with s2
        by (unfold committed; by destruct (eq cur v)).
      by eapply deepFreeze_result_frozen.
    + by apply readSignal_committed.
  - intros e s1 Hfn. rewrite Hfn. split; [done|].
    by apply (readSignal_writable _ _ eq).
  - intros v s1 e s2 Hfn Hrun. rewrite Hfn, Hrun. split; [done|].
    by apply (readSignal_writable _ _ eq).
Qed.

Lemma set_freezes_before_commit_witness :
  ∃ sig w1 w2,
    immutableSignal (VRef 0) (Some deepFreezingOn) counterWorld = Ok sig w1 ∧
    isFrozen (VRef 0) (js w1) = false ∧
    set sig (VRef 0) w1 = Ok tt w2 ∧
    isFrozen (VRef 0) (js w2) = true ∧
    readSignal (target sig) w2 = Ok (VRef 0) w2.
Proof.
  destruct (immutableSignal (VRef 0) (Some deepFreezingOn) counterWorld)
    as [sig w1|e w1|] eqn:Hsig; [|by vm_compute in Hsig..].
  destruct (immutableSignal_inv _ _ _ _ _ Hsig) as (Hw1&Htarget&_).
  assert (Hcur : signals w1 !! target sig
                 = Some (Writable (VRef 0) strictEquals)).
  { by rewrite Htarget, Hw1. }
  destruct (set_freezes_before_commit _ _ _ _ _ w1 _ _ (VRef 0)
              Hsig eq_refl Hcur) as [Hok _].
  assert (Hrun : ∃ s', deepFreeze (VRef 0) (js w1) = Ok (VRef 0) s').
  { rewrite Hw1. eexists. vm_compute. reflexivity. }
  destruct Hrun as [s' Hrun].
  destruct (Hok _ _ Hrun) as (w2&Hset&_&Hfrozen&Hread).
  exists sig, w1, w2. split; [reflexivity|]. split; [by rewrite Hw1|].
  split; [exact Hset|]. split; [exact Hfrozen|exact Hread].
Defined.

Lemma update_freezes_before_commit_witness :
  ∃ sig w1 w2,
    immutableSignal (VRef 0) (Some deepFreezingOn) counterWorld = Ok sig w1 ∧
    update sig freshCounter w1 = Ok tt w2 ∧
    isFrozen (VRef 1) (js w2) = true ∧
    readSignal (target sig) w2 = Ok (VRef 1) w2.
Proof.
  destruct (immutableSignal (VRef 0) (Some deepFreezingOn) counterWorld)
    as [sig w1|e w1|] eqn:Hsig; [|by vm_compute in Hsig..].
  destruct (immutableSignal_inv _ _ _ _ _ Hsig) as (Hw1&Htarget&_).
  assert (Hcur : signals w1 !! target sig
                 = Some (Writable (VRef 0) strictEquals)).
  { by rewrite Htarget, Hw1. }
  destruct (update_freezes_before_commit _ _ _ _ _ w1 _ _ freshCounter
              Hsig eq_refl Hcur) as [Hok _].
  assert (Hfn : ∃ s1, freshCounter (VRef 0) (js w1) = Ok (VRef 1) s1).
  { rewrite Hw1. eexists. vm_compute. reflexivity. }
  destruct Hfn as [s1 Hfn].
  assert (Hrun : ∃ s2, deepFreeze (VRef 1) s1 = Ok (VRef 1) s2).
  { revert Hfn. rewrite Hw1. vm_compute. intros [= <-]. eexists. reflexivity. }
  destruct Hrun as [s2 Hrun].
  destruct (Hok _ _ _ _ Hfn Hrun) as (w2&Hupd&_&Hfrozen&Hread).
  exists sig, w1, w2. split; [reflexivity|]. split; [exact Hupd|].
  split; [exact Hfrozen|exact Hread].
Defined.





Lemma liftJs_withGlobal {A} (c : M state A) global w :
  liftJs c (withGlobal global w) = onWorld (withGlobal global) (liftJs c w).
Proof. unfold liftJs. simpl. by destruct (c (js w)). Qed.

Lemma signalSet_withGlobal sig v global w :
  signalSet sig v (withGlobal global w)
  = onWorld (withGlobal global) (signalSet sig v w).
Proof.
  unfold signalSet. simpl. destruct (signals w !! sig) as [[cur eq|f]|];
    try done. by destruct (eq cur v).
Qed.

Lemma signalUpdate_withGlobal sig updateFn global w :
  signalUpdate sig updateFn (withGlobal global w)
  = onWorld (withGlobal global) (signalUpdate sig updateFn w).
Proof.
  unfold signalUpdate. simpl. destruct (signals w !! sig) as [[cur eq|f]|];
    try done.
  unfold bind. rewrite liftJs_withGlobal. unfold liftJs.
  destruct (updateFn cur (js w)) as [v s'|e s'|]; simpl; try done.
  apply (signalSet_withGlobal sig v global
           {| js := s'; signals := signals w;
              globalImmutableSignalOptions := globalImmutableSignalOptions w |}).
Qed.

(** X13: [immutableSignal] reads the options when the signal is created:
    whatever [globalImmutableSignalOptions] is changed to afterwards,
    [set], [update] and [mutate] of the signal do what they did, and they
    leave the module variable as they found it. *)
Theorem options_captured_at_creation value options wd sig wd1 :
  immutableSignal value options wd = Ok sig wd1 →
  ∀ global w,
    (∀ val, set sig val (withGlobal global w)
            = onWorld (withGlobal global) (set sig val w)) ∧
    (∀ updateFn, update sig updateFn (withGlobal global w)
                 = onWorld (withGlobal global) (update sig updateFn w)) ∧
    (∀ mutatorFn, mutate sig mutatorFn (withGlobal global w)
                  = onWorld (withGlobal global) (mutate sig mutatorFn w)).
Proof.
  intros Hsig global w.
  destruct (immutableSignal_inv _ _ _ _ _ Hsig) as (_&_&Hset&Hupd&Hmut).
  rewrite Hset, Hupd, Hmut. split; [|split].
  - intros val. destruct (deepFreezeEnabled options wd); simpl.
    + unfold bind. rewrite liftJs_withGlobal.
      destruct (liftJs (deepFreeze val) w) as [v w'|e w'|]; simpl; try done.
      apply signalSet_withGlobal.
    + apply signalSet_withGlobal.
  - intros updateFn. destruct (deepFreezeEnabled options wd); simpl;
      apply signalUpdate_withGlobal.
  - intros mutatorFn. apply signalUpdate_withGlobal.
Qed.

Lemma options_captured_at_creation_witness :
  ∃ sig w1 w2 w3,
    immutableSignal (VRef 0) None counterWorld = Ok sig w1 ∧
    setGlobalImmutableSignalOptions noStructuredClone
      (Some (immutableOptions deepFreezingOn)) w1 = Ok tt w2 ∧
    set sig (VRef 0) w2 = Ok tt w3 ∧
    isFrozen (VRef 0) (js w3) = false.
Proof.
  destruct (immutableSignal (VRef 0) None counterWorld)
    as [sig w1|e w1|] eqn:Hsig; [|by vm_compute in Hsig..].
  destruct (immutableSignal_inv _ _ _ _ _ Hsig) as (Hw1&Htarget&Hset&_).
  destruct (options_captured_at_creation _ _ _ _ _ Hsig
              {| requiredMutationProducerFn :=
                   naiveCloneAndMutate noStructuredClone;
                 requiredEnableDeepFreezing := true |} w1) as (Hcap&_&_).
  specialize (Hcap (VRef 0)).
  assert (Hplain : set sig (VRef 0) w1 = Ok tt w1).
  { rewrite Hset. simpl. rewrite Htarget, Hw1. reflexivity. }
  rewrite Hplain in Hcap. simpl in Hcap.
  eexists sig, w1, _, _. split; [reflexivity|].
  split; [reflexivity|]. split; [exact Hcap|]. by rewrite Hw1.
Defined.

(** X14: [immutableSignal] always returns.  It creates one writable
    signal that holds the initial value itself, with the equality function
    of the options or strict equality, and leaves the host state and the
    module variable as they were: the initial value is neither cloned nor,
    whatever [enableDeepFreezing] is, frozen. *)
Theorem immutableSignal_creation value options wd :
  ∃ sig wd1,
    immutableSignal value options wd = Ok sig wd1 ∧
    target sig = length (signals wd) ∧
    js wd1 = js wd ∧
    globalImmutableSignalOptions wd1 = globalImmutableSignalOptions wd ∧
    signals wd1 = signals wd ++
      [Writable value (orElse (options ≫= equal) strictEquals)] ∧
    readSignal (target sig) wd1 = Ok value wd1.
Proof.
  destruct (immutableSignal value options wd) as [sig wd1|e wd1|] eqn:Hsig;
    [|done..].
  destruct (immutableSignal_inv _ _ _ _ _ Hsig) as (Hw1&Htarget&_).
  exists sig, wd1. split; [done|]. split; [done|]. subst wd1. simpl.
  split; [done|]. split; [done|]. split; [done|].
  apply (readSignal_writable _ _ (orElse (options ≫= equal) strictEquals)).
  simpl. rewrite Htarget. by apply list_lookup_middle.
Qed.

(** The effective [enableDeepFreezing] of [immutable(_, options)]. *)
Lemma immutable_enabled sig options wd :
  orElse (options ≫= immutableEnableDeepFreezing)
         (requiredEnableDeepFreezing (globalImmutableSignalOptions wd)) = true →
  immutable sig options wd
  = Ok (length (signals wd))
       {| js := js wd;
          signals := signals wd ++
            [Computed (λ get, do value <- get sig; deepFreeze value)];
          globalImmutableSignalOptions := globalImmutableSignalOptions wd |}.
Proof. intros H. unfold immutable, bind, gets. by rewrite H. Qed.

(** Reading a signal derived by [immutable] from a writable signal. *)
Lemma readSignal_derived sig derived cur eq w :
  signals w !! derived
  = Some (Computed (λ get, do value <- get sig; deepFreeze value)) →
  signals w !! sig = Some (Writable cur eq) →
  readSignal derived w = liftJs (deepFreeze cur) w.
Proof.
  intros Hd Hs. unfold readSignal, liftJs. simpl. rewrite Hd.
  destruct (signals w) as [|n ns] eqn:Hsigs; [done|]. simpl length.
  unfold bind. simpl. rewrite Hs. done.
Qed.

Lemma deepFreeze_again v s v' s' :
  deepFreeze v s = Ok v' s' →
  ∃ s'', deepFreeze v s' = Ok v s'' ∧ heap s'' = heap s'.
Proof.
  intros Hrun. destruct v as [| | | | |l];
    try (exists s'; by rewrite deepFreeze_primitive).
  destruct (heap s !! l) as [o|] eqn:Hl.
  - destruct (deepFreezeN_again _ (unfrozenCount s') _ _ _ _ Hrun
                (ex_intro _ o Hl)) as (Hagain&Hheap&_).
    eauto.
  - rewrite deepFreeze_not_in_heap in Hrun by done. injection Hrun as <- <-.
    exists s. by rewrite deepFreeze_not_in_heap.
Qed.

(** X15: the computation of a signal derived by [immutable] with deep
    freezing enabled, whenever it is evaluated and whatever kind of signal
    the source is: it reads the source; when the source returns [v], it
    applies [deepFreeze] to [v] and returns [v] itself, frozen, in a heap
    that differs in frozen flags only, so that the value of the source is
    frozen in place; when the read of the source or [deepFreeze] throws,
    the evaluation throws the same exception.  When the framework
    evaluates the computation, and when it answers a read from its cache,
    is not part of the statement. *)
Theorem immutable_derived_evaluation sig options wd derived wd' :
  immutable sig options wd = Ok derived wd' →
  orElse (options ≫= immutableEnableDeepFreezing)
         (requiredEnableDeepFreezing (globalImmutableSignalOptions wd)) = true →
  ∃ computation,
    signals wd' !! derived = Some (Computed computation) ∧
    ∀ (get : nat → M state value) s,
      match get sig s with
      | Ok v s1 =>
          match deepFreeze v s1 with
          | Ok _ s2 =>
              computation get s = Ok v s2 ∧
              isFrozen v s2 = true ∧ freezes s1 s2
          | Throw e s2 => computation get s = Throw e s2
          | OutOfFuel => False
          end
      | Throw e s1 => computation get s = Throw e s1
      | OutOfFuel => computation get s = OutOfFuel
      end.
Proof.
  intros Hrun Hflag.
  rewrite (immutable_enabled _ _ _ Hflag) in Hrun. injection Hrun as <- <-.
  eexists. split; [simpl; by apply list_lookup_middle|].
  intros get s. unfold bind.
  destruct (get sig s) as [v s1|e s1|]; [|done..].
  destruct (deepFreeze v s1) as [v' s2|e s2|] eqn:Hfreeze; [|done|].
  - pose proof (deepFreeze_returns_argument _ _ _ _ Hfreeze) as ->.
    split; [done|]. split; [by eapply deepFreeze_result_frozen|].
    by eapply deepFreeze_freezes.
  - by apply (deepFreeze_terminates v s1).
Qed.

Lemma immutable_derived_evaluation_witness :
  ∃ sig w1 derived w2 computation s2,
    immutableSignal (VRef 0) None counterWorld = Ok sig w1 ∧
    immutable (target sig) (Some freezingOn) w1 = Ok derived w2 ∧
    signals w2 !! derived = Some (Computed computation) ∧
    computation (readSignalN 1 (signals w2)) (js w2) = Ok (VRef 0) s2 ∧
    isFrozen (VRef 0) (js w2) = false ∧
    isFrozen (VRef 0) s2 = true.
Proof.
  destruct (immutableSignal (VRef 0) None counterWorld)
    as [sig w1|e w1|] eqn:Hsig; [|by vm_compute in Hsig..].
  destruct (immutableSignal_inv _ _ _ _ _ Hsig) as (Hw1&Htarget&_).
  destruct (immutable (target sig) (Some freezingOn) w1)
    as [derived w2|e w2|] eqn:Hder; [|by vm_compute in Hder..].
  destruct (immutable_derived_evaluation (target sig) (Some freezingOn) w1
              derived w2 Hder eq_refl) as (computation&Hnode&Heval).
  pose proof Hder as Hder'.
  rewrite (immutable_enabled (target sig) (Some freezingOn) w1 eq_refl)
    in Hder'.
  injection Hder' as Hderived Hw2.
  specialize (Heval (readSignalN 1 (signals w2)) (js w2)).
  assert (Hget : readSignalN 1 (signals w2) (target sig) (js w2)
                 = Ok (VRef 0) (js w2)).
  { rewrite <- Hw2, Htarget, Hw1. reflexivity. }
  rewrite Hget in Heval.
  assert (Hfreeze : ∃ s2, deepFreeze (VRef 0) (js w2) = Ok (VRef 0) s2).
  { rewrite <- Hw2, Hw1. eexists. vm_compute. reflexivity. }
  destruct Hfreeze as [s2 Hfreeze]. rewrite Hfreeze in Heval.
  destruct Heval as (Hrun&Hfrozen&_).
  exists sig, w1, derived, w2, computation, s2.
  split; [reflexivity|]. split; [exact Hder|]. split; [exact Hnode|].
  split; [exact Hrun|]. split; [by rewrite <- Hw2, Hw1|exact Hfrozen].
Defined.

Lemma readSignalN_derived fuel sigs derived src :
  sigs !! derived
  = Some (Computed (λ get, do value <- get src; deepFreeze value)) →
  readSignalN (S fuel) sigs derived
  = (do value <- readSignalN fuel sigs src; deepFreeze value).
Proof. intros H. simpl. by rewrite H. Qed.

Lemma readSignalN_writable fuel sigs sig cur eq :
  sigs !! sig = Some (Writable cur eq) →
  readSignalN (S fuel) sigs sig = ret cur.
Proof. intros H. simpl. by rewrite H. Qed.

(** X16: [immutable] applied to a signal derived by [immutable], with
    deep freezing enabled: each call creates a new signal; reading the
    second returns the value of the source, as reading the first does, and
    leaves the same heap behind. *)
Theorem immutable_twice sig options wd cur eq s1 :
  orElse (options ≫= immutableEnableDeepFreezing)
         (requiredEnableDeepFreezing (globalImmutableSignalOptions wd)) = true →
  signals wd !! sig = Some (Writable cur eq) →
  deepFreeze cur (js wd) = Ok cur s1 →
  ∃ d1 wd1 d2 wd2 s2,
    immutable sig options wd = Ok d1 wd1 ∧
    immutable d1 options wd1 = Ok d2 wd2 ∧
    d1 ≠ sig ∧ d2 ≠ d1 ∧ d2 ≠ sig ∧
    readSignal d1 wd2 = Ok cur (withJs s1 wd2) ∧
    readSignal d2 wd2 = Ok cur (withJs s2 wd2) ∧
    heap s2 = heap s1.
Proof.
  intros Hflag Hs Hfreeze.
  destruct (deepFreeze_again _ _ _ _ Hfreeze) as (s2&Hagain&Hheap).
  pose proof (lookup_lt_Some _ _ _ Hs) as Hlt.
  eexists _, _, _, _, s2.
  split; [by apply immutable_enabled|].
  split; [by apply immutable_enabled|]. simpl.
  rewrite length_app. simpl.
  split; [lia|]. split; [lia|]. split; [lia|].
  split; [|split; [|done]].
  - rewrite (readSignal_derived sig _ cur eq); simpl.
    + unfold liftJs. simpl. by rewrite Hfreeze.
    + rewrite <- app_assoc. by apply list_lookup_middle.
    + rewrite <- app_assoc. by apply lookup_app_l_Some.
  - unfold readSignal. cbn [signals].
    rewrite (readSignalN_derived _ _ _ (length (signals wd))).
    2:{ apply list_lookup_middle. rewrite length_app. simpl. lia. }
    rewrite !length_app. simpl.
    replace (length (signals wd) + 1 + 1) with (S (S (length (signals wd))))
      by lia.
    rewrite (readSignalN_derived _ _ _ sig).
    2:{ rewrite <- app_assoc. by apply list_lookup_middle. }
    rewrite (readSignalN_writable _ _ _ cur eq).
    2:{ rewrite <- app_assoc. by apply lookup_app_l_Some. }
    unfold liftJs, bind, ret. simpl. by rewrite Hfreeze, Hagain.
Qed.

Lemma immutable_twice_witness :
  ∃ sig w1 d1 w2 d2 w3 s1 s2,
    immutableSignal (VRef 0) None counterWorld = Ok sig w1 ∧
    immutable (target sig) (Some freezingOn) w1 = Ok d1 w2 ∧
    immutable d1 (Some freezingOn) w2 = Ok d2 w3 ∧
    readSignal d1 w3 = Ok (VRef 0) (withJs s1 w3) ∧
    readSignal d2 w3 = Ok (VRef 0) (withJs s2 w3) ∧
    heap s2 = heap s1.
Proof.
  destruct (immutableSignal (VRef 0) None counterWorld)
    as [sig w1|e w1|] eqn:Hsig; [|by vm_compute in Hsig..].
  destruct (immutableSignal_inv _ _ _ _ _ Hsig) as (Hw1&Htarget&_).
  assert (Hcur : signals w1 !! target sig
                 = Some (Writable (VRef 0) strictEquals)).
  { by rewrite Htarget, Hw1. }
  assert (Hrun : ∃ s1, deepFreeze (VRef 0) (js w1) = Ok (VRef 0) s1).
  { rewrite Hw1. eexists. vm_compute. reflexivity. }
  destruct Hrun as [s1 Hrun].
  destruct (immutable_twice (target sig) (Some freezingOn) w1 _ _ s1
              eq_refl Hcur Hrun)
    as (d1&w2&d2&w3&s2&H1&H2&_&_&_&Hr1&Hr2&Hheap).
  exists sig, w1, d1, w2, d2, w3, s1, s2. split; [reflexivity|]. done.
Defined.

(** X17: on an immutable signal that uses the default mutation producer
    without [structuredClone] and holds a value from which
    [JSON.stringify] reaches a cycle, visiting no object with a callable
    [toJSON], [mutate] throws a [TypeError] for every mutation function;
    the program state is exactly as before, and the signal holds the value
    it held. *)
Theorem mutate_on_cycle_fails_safely value options wd sig wd1 w l0 x eq :
  immutableSignal value options wd = Ok sig wd1 →
  mutateFn options wd = naiveCloneAndMutate noStructuredClone →
  signals w !! target sig = Some (Writable (VRef l0) eq) →
  toJSONFree (js w) (VRef l0) →
  rtc (serialEdge (js w)) l0 x → tc (serialEdge (js w)) x x →
  ∀ mutatorFn,
    mutate sig mutatorFn w = Throw TypeError w ∧
    readSignal (target sig) w = Ok (VRef l0) w.
Proof.
  intros Hsig Hprod Hcur _ Hpath Hcycle mutatorFn.
  destruct (immutableSignal_inv _ _ _ _ _ Hsig) as (_&_&_&_&Hmut).
  rewrite Hmut, (signalUpdate_run _ (VRef l0) eq), Hprod by done.
  unfold naiveCloneAndMutate, bind, deepClone. simpl.
  unfold naiveDeepClone, bind, JSON_stringify.
  rewrite (serialize_cycle _ l0 x Hpath Hcycle).
  - split; [by destruct w|]. by apply (readSignal_writable _ _ eq).
  - constructor.
  - intros l Hl. by apply elem_of_nil in Hl.
  - simpl. lia.
Qed.

Lemma mutate_on_cycle_fails_safely_witness :
  ∃ sig w1,
    immutableSignal (VRef 0) None cyclicWorld = Ok sig w1 ∧
    mutate sig increment w1 = Throw TypeError w1 ∧
    readSignal (target sig) w1 = Ok (VRef 0) w1.
Proof.
  destruct (immutableSignal (VRef 0) None cyclicWorld)
    as [sig w1|e w1|] eqn:Hsig; [|by vm_compute in Hsig..].
  destruct (immutableSignal_inv _ _ _ _ _ Hsig) as (Hw1&Htarget&_).
  assert (Hcur : signals w1 !! target sig
                 = Some (Writable (VRef 0) strictEquals)).
  { by rewrite Htarget, Hw1. }
  assert (Hself : serialEdge (js w1) 0 0).
  { rewrite Hw1. eexists _, (Name "self"). split; [reflexivity|].
    split; [reflexivity|left; reflexivity]. }
  assert (Hfree : toJSONFree (js w1) (VRef 0)).
  { rewrite Hw1. apply toJSONFree_cyclicShared. }
  destruct (mutate_on_cycle_fails_safely _ _ _ _ _ w1 0 0 _ Hsig eq_refl Hcur
              Hfree (rtc_refl _ _) (tc_once _ _ _ Hself) increment)
    as [Hmut Hread].
  exists sig, w1. split; [reflexivity|]. split; [exact Hmut|exact Hread].
Defined.

(** X18: [mutate] runs the effective mutation producer (the one of the
    options, else the global one at creation) on the current value and the
    mutation function: when the producer returns, [mutate] returns in the
    state the producer left, and the signal holds what the producer
    returned unless the equality function holds; when the producer throws,
    [mutate] throws the same exception and the signal keeps its value. *)
Theorem mutate_runs_producer value options wd sig wd1 w cur eq mutatorFn :
  immutableSignal value options wd = Ok sig wd1 →
  signals w !! target sig = Some (Writable cur eq) →
  (∀ v s', mutateFn options wd cur mutatorFn (js w) = Ok v s' →
     ∃ w', mutate sig mutatorFn w = Ok tt w' ∧ js w' = s' ∧
           readSignal (target sig) w'
           = Ok (if eq cur v then cur else v) w') ∧
  (∀ e s', mutateFn options wd cur mutatorFn (js w) = Throw e s' →
     mutate sig mutatorFn w = Throw e (withJs s' w) ∧
     readSignal (target sig) (withJs s' w) = Ok cur (withJs s' w)).
Proof.
  intros Hsig Hcur.
  destruct (immutableSignal_inv _ _ _ _ _ Hsig) as (_&_&_&_&Hmut).
  rewrite Hmut, (signalUpdate_run _ cur eq) by done. split.
  - intros v s' Hrun. rewrite Hrun.
    exists (committed (target sig) cur eq v s' w).
    split; [done|]. split; [unfold committed; by destruct (eq cur v)|].
    by apply readSignal_committed.
  - intros e s' Hrun. rewrite Hrun. split; [done|].
    by apply (readSignal_writable _ _ eq).
Qed.

Lemma mutate_runs_producer_witness :
  ∃ sig w1 w2,
    immutableSignal (VRef 0) (Some customProducerOn) counterWorld = Ok sig w1 ∧
    mutate sig increment w1 = Ok tt w2 ∧
    js w2 = js w1 ∧
    readSignal (target sig) w2 = Ok (VString "produced") w2.
Proof.
  destruct (immutableSignal (VRef 0) (Some customProducerOn) counterWorld)
    as [sig w1|e w1|] eqn:Hsig; [|by vm_compute in Hsig..].
  destruct (immutableSignal_inv _ _ _ _ _ Hsig) as (Hw1&Htarget&_).
  assert (Hcur : signals w1 !! target sig
                 = Some (Writable (VRef 0) strictEquals)).
  { by rewrite Htarget, Hw1. }
  destruct (mutate_runs_producer _ _ _ _ _ w1 _ _ increment Hsig Hcur)
    as [Hok _].
  destruct (Hok (VString "produced") (js w1) eq_refl) as (w2&Hmut&Hjs&Hread).
  exists sig, w1, w2. split; [reflexivity|]. split; [exact Hmut|].
  split; [exact Hjs|exact Hread].
Defined.

End SignalsMore.

Section SignalsGlobal.

Lemma strictEquals_refl v : v ≠ VNumber NaN → strictEquals v v = true.
Proof.
  intros H. unfold strictEquals.
  destruct v as [| | |[z| |neg]| |l]; try done; by apply bool_decide_eq_true.
Qed.

Lemma strictEquals_ne a b : a ≠ b → strictEquals a b = false.
Proof.
  intros H. unfold strictEquals.
  destruct a as [| | |[z| |neg]| |l], b as [| | |[z'| |neg']| |l'];
    try done; by apply bool_decide_eq_false.
Qed.

Lemma withJs_same w : withJs (js w) w = w.
Proof. by destruct w. Qed.

(** X19: enabling deep freezing through
    [setGlobalImmutableSignalOptions] applies to the signals that are
    created afterwards, and to no other: [set] of a signal created after
    the call freezes its argument, and [set] of a signal created before
    the call, in the same state, leaves the host state as it is. *)
Theorem global_freezing_applies_to_later_signals win value wd old wd1 :
  requiredEnableDeepFreezing (globalImmutableSignalOptions wd) = false →
  immutableSignal value None wd = Ok old wd1 →
  ∃ w2 new w3,
    setGlobalImmutableSignalOptions win (Some globalFreezingOn) wd1
    = Ok tt w2 ∧
    immutableSignal value None w2 = Ok new w3 ∧
    target new ≠ target old ∧
    ∀ val v s', deepFreeze val (js w3) = Ok v s' →
      (∃ w4, set new val w3 = Ok tt w4 ∧ js w4 = s' ∧
             isFrozen val (js w4) = true) ∧
      (∃ w4, set old val w3 = Ok tt w4 ∧ js w4 = js w3).
Proof.
  intros Hoff Hold.
  destruct (immutableSignal_inv _ _ _ _ _ Hold) as (Hwd1&Hto&Hso&_).
  unfold deepFreezeEnabled in Hso. simpl in Hso. rewrite Hoff in Hso.
  simpl in Hso.
  destruct (immutableSignal value None
              (withGlobal
                 {| requiredMutationProducerFn := naiveCloneAndMutate win;
                    requiredEnableDeepFreezing := true |} wd1))
    as [new w3|e w3|] eqn:Hnew; [|done..].
  destruct (immutableSignal_inv _ _ _ _ _ Hnew) as (Hw3&Htn&Hsn&_).
  simpl in Hsn, Htn.
  exists (withGlobal {| requiredMutationProducerFn := naiveCloneAndMutate win;
                        requiredEnableDeepFreezing := true |} wd1), new, w3.
  split; [done|]. split; [done|].
  assert (Hlen : length (signals wd1) = S (length (signals wd))).
  { rewrite Hwd1. simpl. rewrite length_app. simpl. lia. }
  split; [lia|]. intros val v s' Hrun.
  pose proof (deepFreeze_returns_argument _ _ _ _ Hrun) as ->.
  assert (Hn : signals w3 !! target new
               = Some (Writable value strictEquals)).
  { rewrite Hw3, Htn. simpl. by apply list_lookup_middle. }
  assert (Ho : signals w3 !! target old
               = Some (Writable value strictEquals)).
  { rewrite Hw3, Hto, Hwd1. simpl. apply lookup_app_l_Some.
    by apply list_lookup_middle. }
  split.
  - exists (committed (target new) value strictEquals val s' w3).
    rewrite Hsn. unfold bind, liftJs. rewrite Hrun.
    rewrite (signalSet_committed _ value strictEquals) by done. simpl.
    assert (Hjs : js (committed (target new) value strictEquals val s' w3)
                  = s')
      by (unfold committed; by destruct (strictEquals value val)).
    split; [done|]. split; [done|]. rewrite Hjs.
    by eapply deepFreeze_result_frozen.
  - exists (committed (target old) value strictEquals val (js w3) w3).
    rewrite Hso, (signalSet_committed _ value strictEquals) by done.
    split; [done|]. unfold committed. by destruct (strictEquals value val).
Qed.

Lemma global_freezing_applies_to_later_signals_witness :
  ∃ old w1 w2 new w3 w4 w5,
    immutableSignal (VRef 0) None counterWorld = Ok old w1 ∧
    setGlobalImmutableSignalOptions noStructuredClone (Some globalFreezingOn)
      w1 = Ok tt w2 ∧
    immutableSignal (VRef 0) None w2 = Ok new w3 ∧
    set old (VRef 0) w3 = Ok tt w4 ∧ isFrozen (VRef 0) (js w4) = false ∧
    set new (VRef 0) w3 = Ok tt w5 ∧ isFrozen (VRef 0) (js w5) = true.
Proof.
  destruct (immutableSignal (VRef 0) None counterWorld)
    as [old w1|e w1|] eqn:Hold; [|by vm_compute in Hold..].
  destruct (global_freezing_applies_to_later_signals noStructuredClone
              (VRef 0) counterWorld old w1 eq_refl Hold)
    as (w2&new&w3&Hglobal&Hnew&_&Hset).
  destruct (immutableSignal_inv _ _ _ _ _ Hold) as (Hw1&_).
  destruct (immutableSignal_inv _ _ _ _ _ Hnew) as (Hw3&_).
  assert (Hjs : js w3 = js counterWorld).
  { rewrite Hw3. revert Hglobal. rewrite Hw1. by intros [= <-]. }
  assert (Hrun : ∃ s', deepFreeze (VRef 0) (js w3) = Ok (VRef 0) s').
  { rewrite Hjs. eexists. vm_compute. reflexivity. }
  destruct Hrun as [s' Hrun].
  destruct (Hset _ _ _ Hrun) as [(w5&Hs5&_&Hf5) (w4&Hs4&Hj4)].
  exists old, w1, w2, new, w3, w4, w5.
  split; [reflexivity|]. split; [exact Hglobal|]. split; [exact Hnew|].
  split; [exact Hs4|]. split; [by rewrite Hj4, Hjs|].
  split; [exact Hs5|exact Hf5].
Defined.

(** X20: without an [equal] option the signal is created with strict
    equality.  With deep freezing disabled, [set] with the value that the
    signal holds and [update] with the identity change nothing at all,
    unless that value is [NaN]; [set] with any other value makes the
    signal hold it and leaves the host state as it is. *)
Theorem default_equality_is_strict value options wd sig wd1 w cur :
  immutableSignal value options wd = Ok sig wd1 →
  options ≫= equal = None →
  deepFreezeEnabled options wd = false →
  signals wd1 !! target sig = Some (Writable value strictEquals) ∧
  (signals w !! target sig = Some (Writable cur strictEquals) →
   (cur ≠ VNumber NaN →
    set sig cur w = Ok tt w ∧ update sig ret w = Ok tt w) ∧
   (∀ val, val ≠ cur →
      ∃ w', set sig val w = Ok tt w' ∧ js w' = js w ∧
            readSignal (target sig) w' = Ok val w')).
Proof.
  intros Hsig Heq Hoff.
  destruct (immutableSignal_inv _ _ _ _ _ Hsig) as (Hwd1&Ht&Hset&Hupd&_).
  rewrite Hoff in Hset, Hupd. simpl in Hset, Hupd. split.
  { rewrite Hwd1, Ht, Heq. simpl. by apply list_lookup_middle. }
  intros Hcur. split.
  - intros Hnan. rewrite Hset, Hupd.
    rewrite (signalSet_committed _ cur strictEquals) by done.
    rewrite (signalUpdate_run _ cur strictEquals) by done.
    unfold committed, ret. rewrite strictEquals_refl by done.
    by rewrite withJs_same.
  - intros val Hne.
    exists (committed (target sig) cur strictEquals val (js w) w).
    rewrite Hset, (signalSet_committed _ cur strictEquals) by done.
    split; [done|].
    pose proof (readSignal_committed (target sig) cur strictEquals val (js w) w
                  Hcur) as Hread.
    revert Hread. unfold committed.
    rewrite strictEquals_ne by done. done.
Qed.

Lemma default_equality_is_strict_witness :
  ∃ sig w1 w2,
    immutableSignal (VRef 0) None counterWorld = Ok sig w1 ∧
    set sig (VRef 0) w1 = Ok tt w1 ∧
    set sig (VNumber (Finite 3)) w1 = Ok tt w2 ∧
    readSignal (target sig) w2 = Ok (VNumber (Finite 3)) w2.
Proof.
  destruct (immutableSignal (VRef 0) None counterWorld)
    as [sig w1|e w1|] eqn:Hsig; [|by vm_compute in Hsig..].
  destruct (default_equality_is_strict (VRef 0) None counterWorld sig w1 w1
              (VRef 0) Hsig eq_refl eq_refl) as [Hcur Hw].
  destruct (Hw Hcur) as [Hsame Hother].
  destruct (Hsame ltac:(done)) as [Hset _].
  destruct (Hother (VNumber (Finite 3)) ltac:(done)) as (w2&Hset2&_&Hread).
  exists sig, w1, w2. split; [reflexivity|]. split; [exact Hset|].
  split; [exact Hset2|exact Hread].
Defined.

End SignalsGlobal.
